(** * kamicry/music: the catalog route and the player's resolution pipeline

    A shallow embedding of [pages/api/music.ts] (the API route and the
    [MusicPlayer] component's logic) and of [data/localTracks.ts].

    Conventions of the embedding.
    - A JavaScript string is the list of its UTF-16 code units ([jsstring]).
    - An optional field [f?: T] is an [option]; a field that can hold both
      [undefined] and [null] is a [nullable].
    - [if (x)] on an optional string is JavaScript truthiness: the field is
      present and not the empty string ([truthy]).
    - An [async] function is a program over the events it awaits ([Prog]);
      a closure that resumes after an [await] is a function of the state it
      finds when it resumes.
    - [String.prototype.toLowerCase] is a parameter of the definitions that
      call it; the theorems hold for every lower-casing, and the examples
      use the one of Basic Latin. *)

From Stdlib Require Import String Ascii.
From Stdlib Require Import List ZArith NArith QArith Lia Bool Arith.
From Stdlib Require Import Sorting.Sorted Sorting.Permutation.
Import ListNotations.

Close Scope Q_scope.
Set Implicit Arguments.

(* ================================================================== *)
(** ** JavaScript strings *)

Definition jsstring := list N.

Fixpoint jsstring_eqb (a b : jsstring) : bool :=
  match a, b with
  | [], [] => true
  | x :: a', y :: b' => N.eqb x y && jsstring_eqb a' b'
  | _, _ => false
  end.

(** Code units of a code point: one unit in the basic plane, a surrogate
    pair above it. *)
Definition utf16_of_code_point (cp : N) : jsstring :=
  if (cp <? 65536)%N then [cp]
  else let v := (cp - 65536)%N in
       [(55296 + v / 1024)%N; (56320 + v mod 1024)%N].

(** Source literals are written in UTF-8; [utf8_go] turns the bytes of a
    literal into the code units the JavaScript engine holds. *)
Fixpoint utf8_go (pending : nat) (acc : N) (bytes : list N) : jsstring :=
  match bytes with
  | [] => []
  | b :: rest =>
      match pending with
      | O =>
          if (b <? 128)%N then b :: utf8_go 0 0%N rest
          else if (b <? 224)%N then utf8_go 1 (b mod 32)%N rest
          else if (b <? 240)%N then utf8_go 2 (b mod 16)%N rest
          else utf8_go 3 (b mod 8)%N rest
      | S O => utf16_of_code_point (acc * 64 + b mod 64)%N ++ utf8_go 0 0%N rest
      | S k => utf8_go k (acc * 64 + b mod 64)%N rest
      end
  end.

Definition js (s : string) : jsstring :=
  utf8_go 0 0%N (map N_of_ascii (list_ascii_of_string s)).

(** [a.startsWith(p)] at position 0. *)
Fixpoint startsWith (p s : jsstring) : bool :=
  match p, s with
  | [], _ => true
  | x :: p', y :: s' => N.eqb x y && startsWith p' s'
  | _ :: _, [] => false
  end.

(** [s.includes(p)]. *)
Fixpoint includes (s p : jsstring) : bool :=
  startsWith p s ||
  match s with
  | [] => false
  | _ :: s' => includes s' p
  end.

(** WhiteSpace and LineTerminator code units: the class [\s] of a regular
    expression and the characters [trim] removes. *)
Definition isWhiteSpace (c : N) : bool :=
  ((9 <=? c) && (c <=? 13) || (c =? 32) || (c =? 160) || (c =? 5760)
   || (8192 <=? c) && (c <=? 8202) || (c =? 8232) || (c =? 8233)
   || (c =? 8239) || (c =? 8287) || (c =? 12288) || (c =? 65279))%N.

Fixpoint trimStart (s : jsstring) : jsstring :=
  match s with
  | c :: s' => if isWhiteSpace c then trimStart s' else s
  | [] => []
  end.

Definition trimEnd (s : jsstring) : jsstring := rev (trimStart (rev s)).

Definition trim (s : jsstring) : jsstring := trimEnd (trimStart s).

(** Truthiness of an optional string: present and non-empty. *)
Definition truthy (o : option jsstring) : bool :=
  match o with
  | Some (_ :: _) => true
  | _ => false
  end.

Definition isEmpty (s : jsstring) : bool :=
  match s with [] => true | _ => false end.

(** [s.split(re)] and the scan of a global regular expression: [matchLen]
    gives the length of the match that starts at the head of its argument
    (0 when there is none; the expressions of this program never match the
    empty string).  [skip] counts the code units of a match still to pass. *)
Fixpoint splitBy (matchLen : jsstring -> nat) (skip : nat) (cur : jsstring)
         (s : jsstring) : list jsstring :=
  match s with
  | [] => [rev cur]
  | c :: s' =>
      match skip with
      | S k => splitBy matchLen k cur s'
      | O =>
          match matchLen s with
          | O => splitBy matchLen 0 (c :: cur) s'
          | S k => rev cur :: splitBy matchLen k [] s'
          end
      end
  end.

Definition split (matchLen : jsstring -> nat) (s : jsstring) : list jsstring :=
  splitBy matchLen 0 [] s.

(** [s.replace(/&amp;/g, '&')]. *)
Definition amp_entity : jsstring := js "&amp;".

Fixpoint replaceAmp (skip : nat) (s : jsstring) : jsstring :=
  match s with
  | [] => []
  | c :: s' =>
      match skip with
      | S k => replaceAmp k s'
      | O => if startsWith amp_entity s then 38%N :: replaceAmp 4 s'
             else c :: replaceAmp 0 s'
      end
  end.

(** Decimal rendering, [String(n)] for an integer [n]. *)
Fixpoint digits_of_uint (d : Decimal.uint) : jsstring :=
  match d with
  | Decimal.Nil => []
  | Decimal.D0 r => 48%N :: digits_of_uint r
  | Decimal.D1 r => 49%N :: digits_of_uint r
  | Decimal.D2 r => 50%N :: digits_of_uint r
  | Decimal.D3 r => 51%N :: digits_of_uint r
  | Decimal.D4 r => 52%N :: digits_of_uint r
  | Decimal.D5 r => 53%N :: digits_of_uint r
  | Decimal.D6 r => 54%N :: digits_of_uint r
  | Decimal.D7 r => 55%N :: digits_of_uint r
  | Decimal.D8 r => 56%N :: digits_of_uint r
  | Decimal.D9 r => 57%N :: digits_of_uint r
  end.

Definition String_of_Z (z : Z) : jsstring :=
  match z with
  | Z0 => [48%N]
  | Zpos p => digits_of_uint (Pos.to_uint p)
  | Zneg p => 45%N :: digits_of_uint (Pos.to_uint p)
  end.

(* ================================================================== *)
(** ** data/localTracks.ts *)

Inductive MusicSource := netease | kuwo | joox.

Definition source_text (s : MusicSource) : jsstring :=
  match s with
  | netease => js "netease"
  | kuwo => js "kuwo"
  | joox => js "joox"
  end.

Definition MusicSource_eqb (a b : MusicSource) : bool :=
  match a, b with
  | netease, netease | kuwo, kuwo | joox, joox => true
  | _, _ => false
  end.

(** [128 | 192 | 320 | 740 | 999] *)
Inductive Bitrate := B128 | B192 | B320 | B740 | B999.

Definition bitrate_value (b : Bitrate) : Z :=
  match b with
  | B128 => 128 | B192 => 192 | B320 => 320 | B740 => 740 | B999 => 999
  end.

Definition Bitrate_eqb (a b : Bitrate) : bool :=
  Z.eqb (bitrate_value a) (bitrate_value b).

Record LocalTrack := mkLocalTrack {
  id : jsstring;
  name : jsstring;
  artist : option jsstring;
  album : option jsstring;
  duration : option jsstring;
  source : MusicSource;
  keyword : option jsstring;
  trackId : option jsstring;
  picId : option jsstring;
  lyricId : option jsstring;
  bitrate : option Bitrate
}.

Definition LOCAL_TRACKS : list LocalTrack :=
  [ {| id := js "netease-1867150097";
       name := js "夏霞";
       artist := Some (js "あたらよ");
       album := Some (js "夏霞");
       duration := None;
       source := netease;
       keyword := Some (js "夏霞 あたらよ");
       trackId := Some (js "1867150097");
       picId := Some (js "109951166253940594");
       lyricId := Some (js "1867150097");
       bitrate := Some B320 |};
    {| id := js "netease-1835951859";
       name := js "Avid";
       artist := Some (js "SawanoHiroyuki[nZk], 瑞葵(mizuki)");
       album := Some (js "Avid / Hands Up to the Sky");
       duration := None;
       source := netease;
       keyword := Some (js "Avid SawanoHiroyuki[nZk], 瑞葵(mizuki)");
       trackId := Some (js "1835951859");
       picId := Some (js "109951166004106688");
       lyricId := Some (js "1835951859");
       bitrate := Some B320 |};
    {| id := js "netease-554245242";
       name := js "Cage";
       artist := Some (js "Tielle, SawanoHiroyuki[nZk]");
       album := Some (js "Binary Star/Cage");
       duration := None;
       source := netease;
       keyword := Some (js "Cage Tielle, SawanoHiroyuki[nZk]");
       trackId := Some (js "554245242");
       picId := Some (js "109951166200369055");
       lyricId := Some (js "554245242");
       bitrate := Some B320 |};
    {| id := js "netease-2051328176";
       name := js "僕らはそれを愛と呼んだ";
       artist := Some (js "あたらよ");
       album := Some (js "僕らはそれを愛と呼んだ");
       duration := None;
       source := netease;
       keyword := Some (js "僕らはそれを愛と呼んだ あたらよ");
       trackId := Some (js "2051328176");
       picId := Some (js "109951168645551891");
       lyricId := Some (js "2051328176");
       bitrate := Some B320 |} ].

(* ================================================================== *)
(** ** pages/api/music.ts: the route *)

Record NextApiRequest := mkRequest {
  method : jsstring;
  headers : list (jsstring * jsstring);
  requestBody : option jsstring
}.

Record NextApiResponse := mkResponse {
  statusCode : Z;
  sentBody : option (list LocalTrack)
}.

(** [res.status(code)] returns the response it was called on. *)
Definition status (code : Z) (res : NextApiResponse) : NextApiResponse :=
  {| statusCode := code; sentBody := sentBody res |}.

(** [res.json(body)]. *)
Definition json (payload : list LocalTrack) (res : NextApiResponse)
  : NextApiResponse :=
  {| statusCode := statusCode res; sentBody := Some payload |}.

Definition handler (req : NextApiRequest) (res : NextApiResponse)
  : NextApiResponse :=
  json LOCAL_TRACKS (status 200 res).

(* ================================================================== *)
(** ** components/MusicPlayer.tsx: data *)

Definition RATE_LIMIT_WINDOW_MS : Z := 5 * 60 * 1000.
Definition RATE_LIMIT_MAX_REQUESTS : nat := 60.
Definition DEFAULT_SEARCH_COUNT : Z := 8.
Definition DEFAULT_COVER_SIZE : jsstring := js "300".

(** A field typed [T | null] and optional: it can hold [undefined], [null]
    or a value. *)
Inductive nullable (A : Type) :=
| undefined
| null
| val (a : A).
Arguments undefined {A}.
Arguments null {A}.
Arguments val {A} a.

(** [x ?? null] *)
Definition orNull {A} (x : nullable A) : nullable A :=
  match x with
  | undefined => null
  | other => other
  end.

Definition truthyN (x : nullable jsstring) : bool :=
  match x with
  | val (_ :: _) => true
  | _ => false
  end.

(** The [id] of a search item, a number or a string.  [IdNumber n] is a
    whole number of magnitude below 10^21, which [String] prints with all
    its decimal digits; a number with a fraction, or one from 10^21 on,
    which [String] prints with an exponent, is not in this type. *)
Inductive ItemId :=
| IdNumber (n : Z)
| IdString (s : jsstring).

Definition String_of_id (i : ItemId) : jsstring :=
  match i with
  | IdNumber n => String_of_Z n
  | IdString s => s
  end.

Inductive ArtistField :=
| ArtistList (l : list jsstring)
| ArtistText (s : jsstring).

Record SearchApiItem := mkItem {
  item_id : ItemId;
  item_name : option jsstring;
  item_artist : option ArtistField;
  item_album : option jsstring;
  pic_id : option jsstring;
  lyric_id : option jsstring;
  item_source : option jsstring
}.

Record UrlApiResponse := mkUrlResponse {
  url_url : option jsstring;
  br : option Q;
  size : option Q
}.

Record PicApiResponse := mkPicResponse {
  pic_url : option jsstring
}.

Record LyricApiResponse := mkLyricResponse {
  lyric_lyric : nullable jsstring;
  tlyric : nullable jsstring
}.

(** [Track = LocalTrack & { url?, cover?, lyric?, tLyric?, fileSizeKb? }] *)
Record Track := mkTrack {
  descriptor : LocalTrack;
  url : option jsstring;
  cover : nullable jsstring;
  lyric : nullable jsstring;
  tLyric : nullable jsstring;
  fileSizeKb : nullable Q
}.

Definition sanitizeUrl (u : jsstring) : jsstring := replaceAmp 0 u.

Definition createTrack (track : LocalTrack) : Track :=
  {| descriptor := track;
     url := None;
     cover := if truthy (picId track) then undefined else null;
     lyric := null;
     tLyric := null;
     fileSizeKb := null |}.

(* ================================================================== *)
(** ** Lyric parsing *)

(** [time] is kept in exact milliseconds: the number
    [minutes * 60 + seconds + millis / 1000] of the source is determined by,
    and ordered as, the integer [(minutes * 60 + seconds) * 1000 + millis]
    ([millis < 1000]).  [PositiveInfinity] is [Number.POSITIVE_INFINITY]. *)
Inductive LyricTime :=
| Finite (ms : N)
| PositiveInfinity.

Record LyricLine := mkLyricLine {
  time : LyricTime;
  text : jsstring
}.

Definition isDigit (c : N) : bool := ((48 <=? c) && (c <=? 57))%N.

(** [\d{1,n}], greedy: the digits taken and the rest.  Giving a digit back
    never helps the expressions below: the code unit after a shorter run is
    a digit, and each run is followed by [:], [.] or a bracket. *)
Fixpoint takeDigits (n : nat) (s : jsstring) : jsstring * jsstring :=
  match n, s with
  | S k, c :: s' =>
      if isDigit c
      then let (d, r) := takeDigits k s' in (c :: d, r)
      else ([], s)
  | _, _ => ([], s)
  end.

(** One match of [/\[(\d{1,2}):(\d{1,2})(?:\.(\d{1,3}))?]/]: the three
    groups and the number of code units matched. *)
Record TimeTag := mkTimeTag {
  tag_minutes : jsstring;
  tag_seconds : jsstring;
  tag_fraction : option jsstring;
  tag_length : nat
}.

Definition matchTimeTag (s : jsstring) : option TimeTag :=
  match s with
  | c0 :: s1 =>
      if negb (c0 =? 91)%N then None else
      let (m, s2) := takeDigits 2 s1 in
      match m, s2 with
      | _ :: _, c1 :: s3 =>
          if negb (c1 =? 58)%N then None else
          let (sec, s4) := takeDigits 2 s3 in
          match sec, s4 with
          | _ :: _, c2 :: s5 =>
              if (c2 =? 93)%N then
                Some (mkTimeTag m sec None (3 + length m + length sec))
              else if (c2 =? 46)%N then
                let (f, s6) := takeDigits 3 s5 in
                match f, s6 with
                | _ :: _, c3 :: _ =>
                    if (c3 =? 93)%N then
                      Some (mkTimeTag m sec (Some f)
                              (4 + length m + length sec + length f))
                    else None
                | _, _ => None
                end
              else None
          | _, _ => None
          end
      | _, _ => None
      end
  | [] => None
  end.

(** [[...line.matchAll(timeTagRegex)]] *)
Fixpoint matchAll (skip : nat) (s : jsstring) : list TimeTag :=
  match s with
  | [] => []
  | _ :: s' =>
      match skip with
      | S k => matchAll k s'
      | O =>
          match matchTimeTag s with
          | Some t => t :: matchAll (tag_length t - 1) s'
          | None => matchAll 0 s'
          end
      end
  end.

(** [line.replace(timeTagRegex, '')] *)
Fixpoint removeTimeTags (skip : nat) (s : jsstring) : jsstring :=
  match s with
  | [] => []
  | c :: s' =>
      match skip with
      | S k => removeTimeTags k s'
      | O =>
          match matchTimeTag s with
          | Some t => removeTimeTags (tag_length t - 1) s'
          | None => c :: removeTimeTags 0 s'
          end
      end
  end.

(** [/\r?\n/] at the head of [s]. *)
Definition lineBreakLen (s : jsstring) : nat :=
  match s with
  | 10%N :: _ => 1
  | 13%N :: 10%N :: _ => 2
  | _ => 0
  end.

(** [Number.parseInt(digits, 10)] on a run of decimal digits. *)
Definition parseInt (digits : jsstring) : N :=
  fold_left (fun acc c => (acc * 10 + (c - 48))%N) digits 0%N.

(** [s.padEnd(3, '0').slice(0, 3)] *)
Definition padEnd3 (s : jsstring) : jsstring :=
  firstn 3 (s ++ repeat 48%N (3 - length s)).

Definition tagTime (t : TimeTag) : LyricTime :=
  let minutes := parseInt (tag_minutes t) in
  let seconds := parseInt (tag_seconds t) in
  let millisRaw := match tag_fraction t with Some f => f | None => [48%N] end in
  let millis := parseInt (padEnd3 millisRaw) in
  Finite ((minutes * 60 + seconds) * 1000 + millis)%N.

(** The body of [for (const line of lines)]: what one line pushes. *)
Definition pushLine (line : jsstring) : list LyricLine :=
  let text := trim (removeTimeTags 0 line) in
  let matches := matchAll 0 line in
  match matches with
  | [] => if (0 <? length text)%nat
          then [mkLyricLine PositiveInfinity text] else []
  | _ =>
      flat_map (fun m =>
                  let totalSeconds := tagTime m in
                  if (0 <? length text)%nat
                  then [mkLyricLine totalSeconds text] else [])
               matches
  end.

(** The sign of [a.time - b.time]; the difference of two infinities is
    [NaN], which [sort] takes as 0. *)
Definition compareTime (a b : LyricLine) : comparison :=
  match time a, time b with
  | Finite x, Finite y => N.compare x y
  | Finite _, PositiveInfinity => Lt
  | PositiveInfinity, Finite _ => Gt
  | PositiveInfinity, PositiveInfinity => Eq
  end.

(** [Array.prototype.sort] is a stable sort; insertion from the right is
    one. *)
Fixpoint insertLine (x : LyricLine) (l : list LyricLine) : list LyricLine :=
  match l with
  | [] => [x]
  | y :: l' =>
      match compareTime x y with
      | Gt => y :: insertLine x l'
      | _ => x :: l
      end
  end.

Definition sortLines (l : list LyricLine) : list LyricLine :=
  fold_right insertLine [] l.

Definition LyricTime_eqb (a b : LyricTime) : bool :=
  match a, b with
  | Finite x, Finite y => N.eqb x y
  | PositiveInfinity, PositiveInfinity => true
  | _, _ => false
  end.

(** The callback of [reduce]. *)
Definition dedupStep (acc : list LyricLine) (current : LyricLine)
  : list LyricLine :=
  match acc with
  | [] => acc ++ [current]
  | _ :: _ =>
      let prev := last acc current in
      if LyricTime_eqb (time prev) (time current)
         && jsstring_eqb (text prev) (text current)
      then acc
      else acc ++ [current]
  end.

Definition parseLyricLines (lyric : nullable jsstring) : list LyricLine :=
  match lyric with
  | val (c :: r) =>
      let lines := split lineBreakLen (c :: r) in
      let result := flat_map pushLine lines in
      fold_left dedupStep (sortLines result) []
  | _ => []
  end.

(* ================================================================== *)
(** ** Search-result matching *)

(** Lower-casing of the Basic Latin letters; [String.prototype.toLowerCase]
    agrees with it on strings of Basic Latin characters. *)
Definition asciiLower (s : jsstring) : jsstring :=
  map (fun c => if ((65 <=? c) && (c <=? 90))%N then (c + 32)%N else c) s.

(** The characters [normalizeText] removes besides white space: the
    double quote (code unit 34) and the ones listed. *)
Definition normalizeStripped : jsstring :=
  34%N :: js "'、，。！？!（）()【】[]《》“”‘’·._/-".

Definition isNormalizeStripped (c : N) : bool :=
  isWhiteSpace c || existsb (N.eqb c) normalizeStripped.

(** Case folding of an ignore-case expression, on the letters the
    separators of [collectArtistTokens] are written with: no code unit
    outside Basic Latin folds to one of them. *)
Definition foldCase (c : N) : N :=
  if ((97 <=? c) && (c <=? 122))%N then (c - 32)%N else c.

Fixpoint startsWithIgnoreCase (p s : jsstring) : bool :=
  match p, s with
  | [], _ => true
  | x :: p', y :: s' => N.eqb (foldCase x) (foldCase y) && startsWithIgnoreCase p' s'
  | _ :: _, [] => false
  end.

(** The match of [/[,，/&、x×+·]|feat\.?|ft\.?|with|合作|合唱/gi] at the head
    of [s]: alternatives in order, the optional dot taken when present. *)
Definition artistSeparatorLen (s : jsstring) : nat :=
  match s with
  | [] => 0
  | c :: _ =>
      if existsb (fun x => N.eqb (foldCase x) (foldCase c)) (js ",，/&、x×+·")
      then 1
      else if startsWithIgnoreCase (js "feat") s
      then (if startsWith (js ".") (skipn 4 s) then 5 else 4)
      else if startsWithIgnoreCase (js "ft") s
      then (if startsWith (js ".") (skipn 2 s) then 3 else 2)
      else if startsWithIgnoreCase (js "with") s then 4
      else if startsWith (js "合作") s then 2
      else if startsWith (js "合唱") s then 2
      else 0
  end.

Section Matching.

(** [String.prototype.toLowerCase], the Unicode lower-casing of the
    engine. *)
Variable toLowerCase : jsstring -> jsstring.

Definition normalizeText (value : option jsstring) : jsstring :=
  match value with
  | Some (c :: r) =>
      filter (fun u => negb (isNormalizeStripped u))
             (replaceAmp 0 (toLowerCase (c :: r)))
  | _ => []
  end.

Definition collectArtistTokens (artist : option ArtistField) : list jsstring :=
  match artist with
  | None => []
  | Some (ArtistText []) => []
  | Some a =>
      let raw := match a with ArtistList l => l | ArtistText s => [s] end in
      filter (fun token => negb (isEmpty token))
             (map (fun token => normalizeText (Some token))
                  (flat_map (fun item => split artistSeparatorLen item) raw))
  end.

(** The score the callback of [results.forEach] computes for [item]. *)
Definition itemScore (target : Track) (targetName : jsstring)
           (targetArtists : list jsstring) (item : SearchApiItem) : Z :=
  let itemName := normalizeText (item_name item) in
  let itemArtists := collectArtistTokens (item_artist item) in
  let nameScore : Z :=
    if negb (isEmpty targetName) && jsstring_eqb itemName targetName then 4%Z
    else if negb (isEmpty targetName) && includes itemName targetName then 2%Z
    else 0%Z in
  let artistScore : Z :=
    if (0 <? length targetArtists)%nat && (0 <? length itemArtists)%nat then
      if existsb (fun token => existsb (jsstring_eqb token) targetArtists)
                 itemArtists
      then 4%Z else 0%Z
    else 0%Z in
  let sourceScore : Z :=
    match item_source item with
    | Some (c :: r) =>
        if jsstring_eqb (c :: r) (source_text (source (descriptor target)))
        then 1%Z else 0%Z
    | _ => 0%Z
    end in
  (nameScore + artistScore + sourceScore)%Z.

(** The three variables the callback updates; [bestScore = None] is
    [-Infinity]. *)
Record BestSoFar := mkBest {
  best : SearchApiItem;
  bestScore : option Z;
  bestIndex : nat
}.

Definition considerItem (score : Z) (item : SearchApiItem) (index : nat)
           (st : BestSoFar) : BestSoFar :=
  let better :=
    match bestScore st with
    | None => true
    | Some b => (b <? score)%Z || ((score =? b)%Z && (index <? bestIndex st)%nat)
    end in
  if better then mkBest item (Some score) index else st.

Fixpoint forEachResult (target : Track) (targetName : jsstring)
         (targetArtists : list jsstring) (items : list SearchApiItem)
         (index : nat) (st : BestSoFar) : BestSoFar :=
  match items with
  | [] => st
  | item :: rest =>
      forEachResult target targetName targetArtists rest (S index)
        (considerItem (itemScore target targetName targetArtists item)
                      item index st)
  end.

(** [results] is [None] for [null] or [undefined]. *)
Definition selectBestSearchResult (results : option (list SearchApiItem))
           (target : Track) : option SearchApiItem :=
  match results with
  | None | Some [] => None
  | Some (first :: rest) =>
      let targetName := normalizeText (Some (name (descriptor target))) in
      let targetArtists :=
        collectArtistTokens (option_map ArtistText (artist (descriptor target))) in
      Some (best (forEachResult target targetName targetArtists (first :: rest) 0
                                (mkBest first None 0)))
  end.

End Matching.

(* ================================================================== *)
(** ** The remote API and the rate limiter *)

(** An [Error] is its message. *)
Definition Error := jsstring.

Definition Params := list (jsstring * jsstring).

(** What [response.json()] gives, by the shape each call site reads; any
    other JSON value is [JsonOther]. *)
Inductive ApiValue :=
| SearchResults (items : list SearchApiItem)
| UrlData (r : UrlApiResponse)
| PicData (r : PicApiResponse)
| LyricData (r : LyricApiResponse)
| JsonOther.

(** What [fetch] and [response.json()] do for one request. *)
Inductive FetchResult :=
| NetworkError (e : Error)
| HttpNotOk
| BadJson (e : Error)
| JsonBody (v : ApiValue).

(** The settlement of the promise [callMusicApi] returns. *)
Inductive Outcome :=
| Rejected (e : Error)
| Resolved (v : ApiValue).

(** [registerRequest], on the content of [requestTimestampsRef]: the new
    content and the error thrown, if any.  [now] is [Date.now()]. *)
Definition registerRequest (now : Z) (timestamps : list Z)
  : list Z * option Error :=
  let windowStart := (now - RATE_LIMIT_WINDOW_MS)%Z in
  let kept := filter (fun timestamp => (windowStart <=? timestamp)%Z) timestamps in
  if (RATE_LIMIT_MAX_REQUESTS <=? length kept)%nat
  then (kept, Some (js "请求过于频繁，请稍后再试"))
  else (kept ++ [now], None).

(** The part of the player the API calls touch: the timestamps of the rate
    limiter and the requests sent, each with the time it was registered
    at. *)
Record Network := mkNetwork {
  requestTimestampsRef : list Z;
  fetched : list (Z * Params)
}.

(** [callMusicApi(params)], run to its settlement: [now] is the clock when
    it is called, [response] what the remote service does with the
    request, if one is sent. *)
Definition callMusicApi (now : Z) (response : Params -> FetchResult)
           (params : Params) (net : Network) : Outcome * Network :=
  match registerRequest now (requestTimestampsRef net) with
  | (kept, Some err) => (Rejected err, mkNetwork kept (fetched net))
  | (kept, None) =>
      let net' := mkNetwork kept (fetched net ++ [(now, params)]) in
      match response params with
      | NetworkError e => (Rejected e, net')
      | HttpNotOk => (Rejected (js "音乐服务暂时不可用"), net')
      | BadJson e => (Rejected e, net')
      | JsonBody v => (Resolved v, net')
      end
  end.

(* ================================================================== *)
(** ** Asynchronous programs *)

(** An [async] function of the component: it returns, throws, awaits
    [callMusicApi(p)] and goes on with the settlement, or calls
    [updateTrackInStates] and goes on. *)
Inductive Prog (A : Type) : Type :=
| Ret (a : A)
| Throw (e : Error)
| Await (p : Params) (k : Outcome -> Prog A)
| UpdateTrackInStates (t : Track) (k : Prog A).
Arguments Ret {A} a.
Arguments Throw {A} e.
Arguments Await {A} p k.
Arguments UpdateTrackInStates {A} t k.

Fixpoint bind {A B} (m : Prog A) (f : A -> Prog B) : Prog B :=
  match m with
  | Ret a => f a
  | Throw e => Throw e
  | Await p k => Await p (fun o => bind (k o) f)
  | UpdateTrackInStates t k => UpdateTrackInStates t (bind k f)
  end.

(** [try { m } catch { h }] *)
Fixpoint tryCatch {A} (m : Prog A) (h : Error -> Prog A) : Prog A :=
  match m with
  | Ret a => Ret a
  | Throw e => h e
  | Await p k => Await p (fun o => tryCatch (k o) h)
  | UpdateTrackInStates t k => UpdateTrackInStates t (tryCatch k h)
  end.

(** [await callMusicApi(p)]: a rejection is thrown at the [await]. *)
Definition awaitApi (p : Params) : Prog ApiValue :=
  Await p (fun o => match o with
                    | Resolved v => Ret v
                    | Rejected e => Throw e
                    end).

Notation "x <- m ;; k" := (bind m (fun x => k))
  (at level 61, m at next level, right associativity).

(* ================================================================== *)
(** ** Track resolution *)

Definition bitrateIs (b : option Bitrate) (desired : Bitrate) : bool :=
  match b with
  | Some x => Bitrate_eqb x desired
  | None => false
  end.

Definition orElse {A} (o : option A) (d : A) : A :=
  match o with Some a => a | None => d end.

(** [parts.join(', ')] *)
Fixpoint join (parts : list jsstring) : jsstring :=
  match parts with
  | [] => []
  | [p] => p
  | p :: rest => p ++ js ", " ++ join rest
  end.

(** The locals of [ensureTrackResolved] the search branch assigns. *)
Record Identified := mkIdentified {
  i_trackId : jsstring;
  i_picId : option jsstring;
  i_lyricId : option jsstring;
  resolvedName : jsstring;
  resolvedAlbum : option jsstring;
  resolvedArtist : option jsstring
}.

Definition searchKeyword (track : Track) : jsstring :=
  let d := descriptor track in
  trim (match keyword d with
        | Some k => k
        | None => name d ++ js " " ++ orElse (artist d) []
        end).

Definition searchParams (src : MusicSource) (keyword : jsstring) (page : jsstring)
  : Params :=
  [ (js "types", js "search");
    (js "source", source_text src);
    (js "name", keyword);
    (js "count", String_of_Z DEFAULT_SEARCH_COUNT);
    (js "pages", page) ].

Definition urlParams (src : MusicSource) (trackId : jsstring)
           (desiredBitrate : Bitrate) : Params :=
  [ (js "types", js "url");
    (js "source", source_text src);
    (js "id", trackId);
    (js "br", String_of_Z (bitrate_value desiredBitrate)) ].

Definition picParams (src : MusicSource) (picId : jsstring) : Params :=
  [ (js "types", js "pic");
    (js "source", source_text src);
    (js "id", picId);
    (js "size", DEFAULT_COVER_SIZE) ].

Definition lyricParams (src : MusicSource) (lyricId : jsstring) : Params :=
  [ (js "types", js "lyric");
    (js "source", source_text src);
    (js "id", lyricId) ].

(** The assignments after a best match is found. *)
Definition adoptBest (track : Track) (best : SearchApiItem) : Identified :=
  let d := descriptor track in
  let artistText :=
    match item_artist best with
    | Some (ArtistList l) => Some (join l)
    | Some (ArtistText s) => Some s
    | None => None
    end in
  {| i_trackId := String_of_id (item_id best);
     i_picId := if truthy (pic_id best) then pic_id best else picId d;
     i_lyricId := if truthy (lyric_id best) then lyric_id best else lyricId d;
     resolvedName := if truthy (item_name best)
                     then orElse (item_name best) [] else name d;
     resolvedAlbum := if truthy (item_album best) then item_album best else album d;
     resolvedArtist := if truthy artistText then artistText else artist d |}.

Section Resolution.

Variable toLowerCase : jsstring -> jsstring.

(** [if (!trackId) { ... }] *)
Definition identify (track : Track) : Prog Identified :=
  let d := descriptor track in
  let keyword := searchKeyword track in
  match trackId d with
  | Some (c :: r) =>
      Ret {| i_trackId := c :: r; i_picId := picId d; i_lyricId := lyricId d;
             resolvedName := name d; resolvedAlbum := album d;
             resolvedArtist := artist d |}
  | _ =>
      if isEmpty keyword then Throw (js "未配置歌曲关键词")
      else
        searchResults <- awaitApi (searchParams (source d) keyword (js "1")) ;;
        let list := match searchResults with
                    | SearchResults items => items
                    | _ => []
                    end in
        match selectBestSearchResult toLowerCase (Some list) track with
        | None => Throw (js "未找到对应歌曲")
        | Some best => Ret (adoptBest track best)
        end
  end.

(** [if (!urlData || !urlData.url) throw ...]: the url to play, if any. *)
Definition playableUrl (urlData : ApiValue) : option jsstring :=
  match urlData with
  | UrlData r => if truthy (url_url r) then url_url r else None
  | _ => None
  end.

(** The cover after [if (picId) { try { ... } catch { } }]. *)
Definition fetchCover (src : MusicSource) (picId : option jsstring)
           (cover : nullable jsstring) : Prog (nullable jsstring) :=
  match picId with
  | Some (c :: r) =>
    tryCatch
      (picData <- awaitApi (picParams src (c :: r)) ;;
       Ret (match picData with
            | PicData r =>
                match pic_url r with
                | Some u => if negb (isEmpty (trim u)) then val u else cover
                | None => cover
                end
            | _ => cover
            end))
      (fun _ => Ret cover)
  | _ => Ret cover
  end.

Definition stringValue (x : nullable jsstring) : option jsstring :=
  match x with val s => Some s | _ => None end.

(** [lyricText] and [translationText] after
    [if (!lyricText && lyricId) { try { ... } catch { } }]. *)
Definition fetchLyric (src : MusicSource) (lyricId : option jsstring)
           (lyricText translationText : nullable jsstring)
  : Prog (nullable jsstring * nullable jsstring) :=
  match lyricId with
  | Some (c :: r) =>
    if truthyN lyricText then Ret (lyricText, translationText) else
    tryCatch
      (lyricData <- awaitApi (lyricParams src (c :: r)) ;;
       Ret (match lyricData with
            | LyricData r =>
                (match stringValue (lyric_lyric r) with
                 | Some l => if negb (isEmpty (trim l)) then val l else lyricText
                 | None => lyricText
                 end,
                 match stringValue (tlyric r) with
                 | Some l => if negb (isEmpty (trim l)) then val l
                             else translationText
                 | None => translationText
                 end)
            | _ => (lyricText, translationText)
            end))
      (fun _ => Ret (lyricText, translationText))
  | _ => Ret (lyricText, translationText)
  end.

Definition ensureTrackResolved (track : Track) (desiredBitrate : Bitrate)
  : Prog Track :=
  let d := descriptor track in
  if truthy (url track) && bitrateIs (bitrate d) desiredBitrate then Ret track
  else
    let lyricText := orNull (lyric track) in
    let translationText := orNull (tLyric track) in
    ids <- identify track ;;
    urlData <- awaitApi (urlParams (source d) (i_trackId ids) desiredBitrate) ;;
    match playableUrl urlData with
    | None => Throw (js "未获取到播放链接")
    | Some u =>
        let resolvedUrl := sanitizeUrl u in
        cover <- fetchCover (source d) (i_picId ids) (orNull (cover track)) ;;
        lyrics <- fetchLyric (source d) (i_lyricId ids) lyricText translationText ;;
        let fileSizeKb :=
          match urlData with
          | UrlData {| size := Some n |} => val n
          | _ => orNull (fileSizeKb track)
          end in
        let resolvedTrack :=
          {| descriptor :=
               {| id := id d;
                  name := resolvedName ids;
                  artist := resolvedArtist ids;
                  album := resolvedAlbum ids;
                  duration := duration d;
                  source := source d;
                  keyword := keyword d;
                  trackId := Some (i_trackId ids);
                  picId := i_picId ids;
                  lyricId := i_lyricId ids;
                  bitrate := Some desiredBitrate |};
             url := Some resolvedUrl;
             cover := cover;
             lyric := fst lyrics;
             tLyric := snd lyrics;
             fileSizeKb := fileSizeKb |} in
        UpdateTrackInStates resolvedTrack (Ret resolvedTrack)
    end.

End Resolution.

(* ================================================================== *)
(** ** The state of the component *)

Inductive PlaybackMode := order | single | shuffle.

(** The [useState] cells and the [useRef] cells the functions below read or
    write.  [playerDuration] is the cell [duration]; [soundRef] holds the
    source of the loaded sound; [network] holds [requestTimestampsRef]. *)
Record PlayerState := mkPlayerState {
  currentSongIndex : Z;
  isPlaying : bool;
  progress : Q;
  currentTime : Q;
  playerDuration : Q;
  localTracks : list Track;
  selectedBitrate : Bitrate;
  allTracks : list Track;
  musicList : list Track;
  coverUrl : option jsstring;
  loadingTrackIndex : option Z;
  errorMessage : option jsstring;
  isSearching : bool;
  showingSearchResults : bool;
  showTranslation : bool;
  searchPage : Z;
  searchHasMore : bool;
  searchPageInput : jsstring;
  lastSearchKeyword : option jsstring;
  soundRef : option jsstring;
  autoPlayRef : bool;
  playbackModeRef : PlaybackMode;
  playRequestIdRef : Z;
  searchRequestIdRef : Z;
  network : Network
}.

Definition setCurrentSongIndex (v : Z) (s : PlayerState) : PlayerState :=
  let 'mkPlayerState _ x1 x2 x3 x4 x5 x6 x7 x8 x9 x10 x11 x12 x13 x14 x15 x16 x17 x18 x19 x20 x21 x22 x23 x24 := s in
  mkPlayerState v x1 x2 x3 x4 x5 x6 x7 x8 x9 x10 x11 x12 x13 x14 x15 x16 x17 x18 x19 x20 x21 x22 x23 x24.

Definition setIsPlaying (v : bool) (s : PlayerState) : PlayerState :=
  let 'mkPlayerState x0 _ x2 x3 x4 x5 x6 x7 x8 x9 x10 x11 x12 x13 x14 x15 x16 x17 x18 x19 x20 x21 x22 x23 x24 := s in
  mkPlayerState x0 v x2 x3 x4 x5 x6 x7 x8 x9 x10 x11 x12 x13 x14 x15 x16 x17 x18 x19 x20 x21 x22 x23 x24.

Definition setProgress (v : Q) (s : PlayerState) : PlayerState :=
  let 'mkPlayerState x0 x1 _ x3 x4 x5 x6 x7 x8 x9 x10 x11 x12 x13 x14 x15 x16 x17 x18 x19 x20 x21 x22 x23 x24 := s in
  mkPlayerState x0 x1 v x3 x4 x5 x6 x7 x8 x9 x10 x11 x12 x13 x14 x15 x16 x17 x18 x19 x20 x21 x22 x23 x24.

Definition setCurrentTime (v : Q) (s : PlayerState) : PlayerState :=
  let 'mkPlayerState x0 x1 x2 _ x4 x5 x6 x7 x8 x9 x10 x11 x12 x13 x14 x15 x16 x17 x18 x19 x20 x21 x22 x23 x24 := s in
  mkPlayerState x0 x1 x2 v x4 x5 x6 x7 x8 x9 x10 x11 x12 x13 x14 x15 x16 x17 x18 x19 x20 x21 x22 x23 x24.

Definition setDuration (v : Q) (s : PlayerState) : PlayerState :=
  let 'mkPlayerState x0 x1 x2 x3 _ x5 x6 x7 x8 x9 x10 x11 x12 x13 x14 x15 x16 x17 x18 x19 x20 x21 x22 x23 x24 := s in
  mkPlayerState x0 x1 x2 x3 v x5 x6 x7 x8 x9 x10 x11 x12 x13 x14 x15 x16 x17 x18 x19 x20 x21 x22 x23 x24.

Definition setLocalTracks (v : list Track) (s : PlayerState) : PlayerState :=
  let 'mkPlayerState x0 x1 x2 x3 x4 _ x6 x7 x8 x9 x10 x11 x12 x13 x14 x15 x16 x17 x18 x19 x20 x21 x22 x23 x24 := s in
  mkPlayerState x0 x1 x2 x3 x4 v x6 x7 x8 x9 x10 x11 x12 x13 x14 x15 x16 x17 x18 x19 x20 x21 x22 x23 x24.

Definition setSelectedBitrate (v : Bitrate) (s : PlayerState) : PlayerState :=
  let 'mkPlayerState x0 x1 x2 x3 x4 x5 _ x7 x8 x9 x10 x11 x12 x13 x14 x15 x16 x17 x18 x19 x20 x21 x22 x23 x24 := s in
  mkPlayerState x0 x1 x2 x3 x4 x5 v x7 x8 x9 x10 x11 x12 x13 x14 x15 x16 x17 x18 x19 x20 x21 x22 x23 x24.

Definition setAllTracks (v : list Track) (s : PlayerState) : PlayerState :=
  let 'mkPlayerState x0 x1 x2 x3 x4 x5 x6 _ x8 x9 x10 x11 x12 x13 x14 x15 x16 x17 x18 x19 x20 x21 x22 x23 x24 := s in
  mkPlayerState x0 x1 x2 x3 x4 x5 x6 v x8 x9 x10 x11 x12 x13 x14 x15 x16 x17 x18 x19 x20 x21 x22 x23 x24.

Definition setMusicList (v : list Track) (s : PlayerState) : PlayerState :=
  let 'mkPlayerState x0 x1 x2 x3 x4 x5 x6 x7 _ x9 x10 x11 x12 x13 x14 x15 x16 x17 x18 x19 x20 x21 x22 x23 x24 := s in
  mkPlayerState x0 x1 x2 x3 x4 x5 x6 x7 v x9 x10 x11 x12 x13 x14 x15 x16 x17 x18 x19 x20 x21 x22 x23 x24.

Definition setCoverUrl (v : option jsstring) (s : PlayerState) : PlayerState :=
  let 'mkPlayerState x0 x1 x2 x3 x4 x5 x6 x7 x8 _ x10 x11 x12 x13 x14 x15 x16 x17 x18 x19 x20 x21 x22 x23 x24 := s in
  mkPlayerState x0 x1 x2 x3 x4 x5 x6 x7 x8 v x10 x11 x12 x13 x14 x15 x16 x17 x18 x19 x20 x21 x22 x23 x24.

Definition setLoadingTrackIndex (v : option Z) (s : PlayerState) : PlayerState :=
  let 'mkPlayerState x0 x1 x2 x3 x4 x5 x6 x7 x8 x9 _ x11 x12 x13 x14 x15 x16 x17 x18 x19 x20 x21 x22 x23 x24 := s in
  mkPlayerState x0 x1 x2 x3 x4 x5 x6 x7 x8 x9 v x11 x12 x13 x14 x15 x16 x17 x18 x19 x20 x21 x22 x23 x24.

Definition setErrorMessage (v : option jsstring) (s : PlayerState) : PlayerState :=
  let 'mkPlayerState x0 x1 x2 x3 x4 x5 x6 x7 x8 x9 x10 _ x12 x13 x14 x15 x16 x17 x18 x19 x20 x21 x22 x23 x24 := s in
  mkPlayerState x0 x1 x2 x3 x4 x5 x6 x7 x8 x9 x10 v x12 x13 x14 x15 x16 x17 x18 x19 x20 x21 x22 x23 x24.

Definition setIsSearching (v : bool) (s : PlayerState) : PlayerState :=
  let 'mkPlayerState x0 x1 x2 x3 x4 x5 x6 x7 x8 x9 x10 x11 _ x13 x14 x15 x16 x17 x18 x19 x20 x21 x22 x23 x24 := s in
  mkPlayerState x0 x1 x2 x3 x4 x5 x6 x7 x8 x9 x10 x11 v x13 x14 x15 x16 x17 x18 x19 x20 x21 x22 x23 x24.

Definition setShowingSearchResults (v : bool) (s : PlayerState) : PlayerState :=
  let 'mkPlayerState x0 x1 x2 x3 x4 x5 x6 x7 x8 x9 x10 x11 x12 _ x14 x15 x16 x17 x18 x19 x20 x21 x22 x23 x24 := s in
  mkPlayerState x0 x1 x2 x3 x4 x5 x6 x7 x8 x9 x10 x11 x12 v x14 x15 x16 x17 x18 x19 x20 x21 x22 x23 x24.

Definition setShowTranslation (v : bool) (s : PlayerState) : PlayerState :=
  let 'mkPlayerState x0 x1 x2 x3 x4 x5 x6 x7 x8 x9 x10 x11 x12 x13 _ x15 x16 x17 x18 x19 x20 x21 x22 x23 x24 := s in
  mkPlayerState x0 x1 x2 x3 x4 x5 x6 x7 x8 x9 x10 x11 x12 x13 v x15 x16 x17 x18 x19 x20 x21 x22 x23 x24.

Definition setSearchPage (v : Z) (s : PlayerState) : PlayerState :=
  let 'mkPlayerState x0 x1 x2 x3 x4 x5 x6 x7 x8 x9 x10 x11 x12 x13 x14 _ x16 x17 x18 x19 x20 x21 x22 x23 x24 := s in
  mkPlayerState x0 x1 x2 x3 x4 x5 x6 x7 x8 x9 x10 x11 x12 x13 x14 v x16 x17 x18 x19 x20 x21 x22 x23 x24.

Definition setSearchHasMore (v : bool) (s : PlayerState) : PlayerState :=
  let 'mkPlayerState x0 x1 x2 x3 x4 x5 x6 x7 x8 x9 x10 x11 x12 x13 x14 x15 _ x17 x18 x19 x20 x21 x22 x23 x24 := s in
  mkPlayerState x0 x1 x2 x3 x4 x5 x6 x7 x8 x9 x10 x11 x12 x13 x14 x15 v x17 x18 x19 x20 x21 x22 x23 x24.

Definition setSearchPageInput (v : jsstring) (s : PlayerState) : PlayerState :=
  let 'mkPlayerState x0 x1 x2 x3 x4 x5 x6 x7 x8 x9 x10 x11 x12 x13 x14 x15 x16 _ x18 x19 x20 x21 x22 x23 x24 := s in
  mkPlayerState x0 x1 x2 x3 x4 x5 x6 x7 x8 x9 x10 x11 x12 x13 x14 x15 x16 v x18 x19 x20 x21 x22 x23 x24.

Definition setLastSearchKeyword (v : option jsstring) (s : PlayerState) : PlayerState :=
  let 'mkPlayerState x0 x1 x2 x3 x4 x5 x6 x7 x8 x9 x10 x11 x12 x13 x14 x15 x16 x17 _ x19 x20 x21 x22 x23 x24 := s in
  mkPlayerState x0 x1 x2 x3 x4 x5 x6 x7 x8 x9 x10 x11 x12 x13 x14 x15 x16 x17 v x19 x20 x21 x22 x23 x24.

Definition set_soundRef (v : option jsstring) (s : PlayerState) : PlayerState :=
  let 'mkPlayerState x0 x1 x2 x3 x4 x5 x6 x7 x8 x9 x10 x11 x12 x13 x14 x15 x16 x17 x18 _ x20 x21 x22 x23 x24 := s in
  mkPlayerState x0 x1 x2 x3 x4 x5 x6 x7 x8 x9 x10 x11 x12 x13 x14 x15 x16 x17 x18 v x20 x21 x22 x23 x24.

Definition set_autoPlayRef (v : bool) (s : PlayerState) : PlayerState :=
  let 'mkPlayerState x0 x1 x2 x3 x4 x5 x6 x7 x8 x9 x10 x11 x12 x13 x14 x15 x16 x17 x18 x19 _ x21 x22 x23 x24 := s in
  mkPlayerState x0 x1 x2 x3 x4 x5 x6 x7 x8 x9 x10 x11 x12 x13 x14 x15 x16 x17 x18 x19 v x21 x22 x23 x24.

Definition set_playbackModeRef (v : PlaybackMode) (s : PlayerState) : PlayerState :=
  let 'mkPlayerState x0 x1 x2 x3 x4 x5 x6 x7 x8 x9 x10 x11 x12 x13 x14 x15 x16 x17 x18 x19 x20 _ x22 x23 x24 := s in
  mkPlayerState x0 x1 x2 x3 x4 x5 x6 x7 x8 x9 x10 x11 x12 x13 x14 x15 x16 x17 x18 x19 x20 v x22 x23 x24.

Definition set_playRequestIdRef (v : Z) (s : PlayerState) : PlayerState :=
  let 'mkPlayerState x0 x1 x2 x3 x4 x5 x6 x7 x8 x9 x10 x11 x12 x13 x14 x15 x16 x17 x18 x19 x20 x21 _ x23 x24 := s in
  mkPlayerState x0 x1 x2 x3 x4 x5 x6 x7 x8 x9 x10 x11 x12 x13 x14 x15 x16 x17 x18 x19 x20 x21 v x23 x24.

Definition set_searchRequestIdRef (v : Z) (s : PlayerState) : PlayerState :=
  let 'mkPlayerState x0 x1 x2 x3 x4 x5 x6 x7 x8 x9 x10 x11 x12 x13 x14 x15 x16 x17 x18 x19 x20 x21 x22 _ x24 := s in
  mkPlayerState x0 x1 x2 x3 x4 x5 x6 x7 x8 x9 x10 x11 x12 x13 x14 x15 x16 x17 x18 x19 x20 x21 x22 v x24.

Definition set_network (v : Network) (s : PlayerState) : PlayerState :=
  let 'mkPlayerState x0 x1 x2 x3 x4 x5 x6 x7 x8 x9 x10 x11 x12 x13 x14 x15 x16 x17 x18 x19 x20 x21 x22 x23 _ := s in
  mkPlayerState x0 x1 x2 x3 x4 x5 x6 x7 x8 x9 x10 x11 x12 x13 x14 x15 x16 x17 x18 x19 x20 x21 x22 x23 v.

(** [updateTrackInStates] *)
Definition replaceTrack (updated : Track) (prev : list Track) : list Track :=
  map (fun item =>
         if jsstring_eqb (id (descriptor item)) (id (descriptor updated))
         then updated else item)
      prev.

Definition updateTrackInStates (updated : Track) (s : PlayerState) : PlayerState :=
  setMusicList (replaceTrack updated (musicList s))
    (setAllTracks (replaceTrack updated (allTracks s))
       (setLocalTracks (replaceTrack updated (localTracks s)) s)).

(* ================================================================== *)
(** ** Running an asynchronous program *)

Inductive Result (A : Type) :=
| Ok (a : A)
| Err (e : Error).
Arguments Ok {A} a.
Arguments Err {A} e.

(** The result of a program when each [await callMusicApi(p)] settles as
    [api p] says.  The calls of one run of [ensureTrackResolved] differ in
    their [types] parameter, so [api] can give each of them any
    settlement. *)
Fixpoint settle {A} (api : Params -> Outcome) (m : Prog A) : Result A :=
  match m with
  | Ret a => Ok a
  | Throw e => Err e
  | Await p k => settle api (k (api p))
  | UpdateTrackInStates _ k => settle api k
  end.

(** The requests a program sends in that run, in order. *)
Fixpoint requested {A} (api : Params -> Outcome) (m : Prog A) : list Params :=
  match m with
  | Ret _ | Throw _ => []
  | Await p k => p :: requested api (k (api p))
  | UpdateTrackInStates _ k => requested api k
  end.

(** The world outside the component: what [Date.now()] reads at the n-th
    call of [callMusicApi] and what the service answers then. *)
Record Env := mkEnv {
  clock : nat -> Z;
  remote : nat -> Params -> FetchResult
}.

(** A program run on the state of the component with nothing interleaved;
    [n] counts the calls of [callMusicApi] made so far. *)
Fixpoint exec {A} (env : Env) (m : Prog A) (n : nat) (s : PlayerState)
  : Result A * nat * PlayerState :=
  match m with
  | Ret a => (Ok a, n, s)
  | Throw e => (Err e, n, s)
  | Await p k =>
      let (o, net) := callMusicApi (clock env n) (remote env n) p (network s) in
      exec env (k o) (S n) (set_network net s)
  | UpdateTrackInStates t k => exec env k n (updateTrackInStates t s)
  end.

(* ================================================================== *)
(** ** Playback *)

Definition unloadSound (s : PlayerState) : PlayerState :=
  match soundRef s with
  | Some _ => set_soundRef None s
  | None => s
  end.

Definition resetPlayer (s : PlayerState) : PlayerState :=
  let s := set_playRequestIdRef (playRequestIdRef s + 1)%Z s in
  let s := setLoadingTrackIndex None s in
  let s := unloadSound s in
  let s := setIsPlaying false s in
  let s := setCurrentSongIndex (-1)%Z s in
  let s := setCoverUrl None s in
  let s := setProgress 0%Q s in
  let s := setCurrentTime 0%Q s in
  setDuration 0%Q s.

(** [playSong] after [await ensureTrackResolved(...)] has settled as
    [outcome] (or when nothing had to be awaited): the rest of the [try]
    block or the [catch] block, then the [finally] block, on the state [s]
    the component is in by then. *)
Definition playSong_settled (requestId index : Z) (autoplay : bool)
           (outcome : Result Track) (s : PlayerState) : PlayerState :=
  let s1 :=
    match outcome with
    | Ok resolvedTrack =>
        if negb (playRequestIdRef s =? requestId)%Z then s
        else
          let s := unloadSound s in
          let s := set_autoPlayRef autoplay s in
          let s := setProgress 0%Q s in
          let s := setCurrentTime 0%Q s in
          let s := setDuration 0%Q s in
          let s := setCurrentSongIndex index s in
          setCoverUrl (stringValue (cover resolvedTrack)) s
    | Err message =>
        if (playRequestIdRef s =? requestId)%Z
        then setErrorMessage (Some message) s
        else s
    end in
  if (playRequestIdRef s1 =? requestId)%Z
  then setLoadingTrackIndex None s1
  else s1.

Inductive PlayStep :=
| PlayFinished (s : PlayerState)
| PlayAwaiting (s : PlayerState) (requestId : Z) (baseTrack : Track).

Definition option_Z_eqb (a : option Z) (b : Z) : bool :=
  match a with Some x => (x =? b)%Z | None => false end.

(** [playSong(index, autoplay)] up to its [await]: [PlayAwaiting s id t]
    when it waits for [ensureTrackResolved(t, selectedBitrate)] under the
    request id [id].  The closure reads the cells of the state it is
    called in. *)
Definition playSong (index : Z) (autoplay : bool) (s : PlayerState) : PlayStep :=
  if (index <? 0)%Z || (Z.of_nat (length (musicList s)) <=? index)%Z
  then PlayFinished s
  else if option_Z_eqb (loadingTrackIndex s) index then PlayFinished s
  else
    let requestId := (playRequestIdRef s + 1)%Z in
    let s1 := set_playRequestIdRef requestId s in
    let s1 := setLoadingTrackIndex (Some index) s1 in
    let s1 := setErrorMessage None s1 in
    let s1 := setIsPlaying false s1 in
    match nth_error (musicList s) (Z.to_nat index) with
    | None =>
        PlayFinished
          (playSong_settled requestId index autoplay (Err (js "未找到歌曲")) s1)
    | Some originalTrack =>
        let needsNewBitrate :=
          negb (bitrateIs (bitrate (descriptor originalTrack)) (selectedBitrate s)) in
        let d := descriptor originalTrack in
        let baseTrack :=
          {| descriptor :=
               {| id := id d; name := name d; artist := artist d;
                  album := album d; duration := duration d; source := source d;
                  keyword := keyword d; trackId := trackId d; picId := picId d;
                  lyricId := lyricId d; bitrate := Some (selectedBitrate s) |};
             url := if needsNewBitrate then None else url originalTrack;
             cover := cover originalTrack;
             lyric := lyric originalTrack;
             tLyric := tLyric originalTrack;
             fileSizeKb := if needsNewBitrate then null
                           else orNull (fileSizeKb originalTrack) |} in
        let s2 := updateTrackInStates baseTrack s1 in
        if truthy (url baseTrack)
        then PlayFinished
               (playSong_settled requestId index autoplay (Ok baseTrack) s2)
        else PlayAwaiting s2 requestId baseTrack
    end.

(** What [playNext] and [playPrevious] decide: no call of [playSong], the
    call [playSong(index)], or a shuffle loop that has not left its body
    after the draws given. *)
Inductive Choice :=
| NoPlay
| Play (index : Z)
| StillDrawing.

(** [while (candidate === currentSongIndex) candidate = Math.floor(...)]:
    [draws] are the successive values of
    [Math.floor(Math.random() * musicList.length)]. *)
Fixpoint shuffleCandidate (draws : list Z) (current : Z) : Choice :=
  match draws with
  | [] => StillDrawing
  | candidate :: rest =>
      if (candidate =? current)%Z then shuffleCandidate rest current
      else Play candidate
  end.

Definition nextChoice (draws : list Z) (s : PlayerState) : Choice :=
  if (length (musicList s) =? 0)%nat then NoPlay
  else
    let mode := playbackModeRef s in
    if (currentSongIndex s <? 0)%Z then Play 0%Z
    else
      match mode with
      | shuffle =>
          if (length (musicList s) =? 1)%nat then Play (currentSongIndex s)
          else shuffleCandidate draws (currentSongIndex s)
      | _ =>
          Play (if (Z.of_nat (length (musicList s)) - 1 <=? currentSongIndex s)%Z
                then 0%Z else (currentSongIndex s + 1)%Z)
      end.

Definition previousChoice (draws : list Z) (s : PlayerState) : Choice :=
  if (length (musicList s) =? 0)%nat then NoPlay
  else
    let mode := playbackModeRef s in
    if (currentSongIndex s <? 0)%Z then Play 0%Z
    else
      match mode with
      | shuffle =>
          if (length (musicList s) =? 1)%nat then Play (currentSongIndex s)
          else shuffleCandidate draws (currentSongIndex s)
      | _ =>
          Play (if (currentSongIndex s <=? 0)%Z
                then (Z.of_nat (length (musicList s)) - 1)%Z
                else (currentSongIndex s - 1)%Z)
      end.

Definition playChoice (c : Choice) (s : PlayerState) : option PlayStep :=
  match c with
  | NoPlay => Some (PlayFinished s)
  | Play index => Some (playSong index true s)
  | StillDrawing => None
  end.

(** [None] when the shuffle loop is still drawing. *)
Definition playNext (draws : list Z) (s : PlayerState) : option PlayStep :=
  playChoice (nextChoice draws s) s.

Definition playPrevious (draws : list Z) (s : PlayerState) : option PlayStep :=
  playChoice (previousChoice draws s) s.

(* ================================================================== *)
(** ** Search *)

(** The callback of [list.map] in [performSearch].  An item has an [id]
    by its type, so [rawId] is the id and the index is not read. *)
Definition mapSearchItem (src : MusicSource) (trimmedKeyword : jsstring)
           (selectedBitrate : Bitrate) (item : SearchApiItem) : Track :=
  let rawId := String_of_id (item_id item) in
  let trackId := Some (String_of_id (item_id item)) in
  let picId := if truthy (pic_id item) then pic_id item else None in
  let lyricId := if truthy (lyric_id item) then lyric_id item else trackId in
  let artistText :=
    match item_artist item with
    | Some (ArtistList l) => join l
    | Some (ArtistText a) => a
    | None => []
    end in
  {| descriptor :=
       {| id := source_text src ++ js "-" ++ rawId;
          name := orElse (item_name item) trimmedKeyword;
          artist := Some artistText;
          album := Some (orElse (item_album item) []);
          duration := Some [];
          source := src;
          keyword := Some trimmedKeyword;
          trackId := trackId;
          picId := picId;
          lyricId := lyricId;
          bitrate := Some selectedBitrate |};
     url := None;
     cover := if truthy picId then undefined else null;
     lyric := null;
     tLyric := null;
     fileSizeKb := null |}.

Fixpoint findIndex {A} (f : A -> bool) (l : list A) : option nat :=
  match l with
  | [] => None
  | x :: rest =>
      if f x then Some 0%nat
      else option_map S (findIndex f rest)
  end.

Fixpoint replaceAt {A} (n : nat) (x : A) (l : list A) : list A :=
  match n, l with
  | _, [] => []
  | O, _ :: rest => x :: rest
  | S k, y :: rest => y :: replaceAt k x rest
  end.

(** The keys of a [Track] object that its type marks optional. *)
Inductive TrackKey :=
| K_artist | K_album | K_duration | K_keyword | K_trackId | K_picId
| K_lyricId | K_bitrate | K_url | K_cover | K_lyric | K_tLyric | K_fileSizeKb.

(** [{ ...found, ...activeTrack }]: every own key of the active track
    wins, also one that holds [undefined]; a key the active track lacks
    keeps the value of [found].  A [Track] records what reading a key
    gives, and reading gives [undefined] for a key that holds it as for a
    key that is not there, so the own keys of the active track come as
    [ownKeys].  [id], [name] and [source] are there by the type of a
    track. *)
Definition mergeTracks (ownKeys : TrackKey -> bool) (found activeTrack : Track)
  : Track :=
  let f := descriptor found in
  let a := descriptor activeTrack in
  let pick {A} (key : TrackKey) (x y : option A) : option A :=
    match x with
    | Some _ => x
    | None => if ownKeys key then None else y
    end in
  let pickNullable {A} (key : TrackKey) (x y : nullable A) : nullable A :=
    match x with
    | undefined => if ownKeys key then undefined else y
    | _ => x
    end in
  {| descriptor :=
       {| id := id a; name := name a;
          artist := pick K_artist (artist a) (artist f);
          album := pick K_album (album a) (album f);
          duration := pick K_duration (duration a) (duration f);
          source := source a;
          keyword := pick K_keyword (keyword a) (keyword f);
          trackId := pick K_trackId (trackId a) (trackId f);
          picId := pick K_picId (picId a) (picId f);
          lyricId := pick K_lyricId (lyricId a) (lyricId f);
          bitrate := pick K_bitrate (bitrate a) (bitrate f) |};
     url := pick K_url (url activeTrack) (url found);
     cover := pickNullable K_cover (cover activeTrack) (cover found);
     lyric := pickNullable K_lyric (lyric activeTrack) (lyric found);
     tLyric := pickNullable K_tLyric (tLyric activeTrack) (tLyric found);
     fileSizeKb := pickNullable K_fileSizeKb (fileSizeKb activeTrack)
                                (fileSizeKb found) |}.

(** What a call of [performSearch] has captured when it reaches its
    [await]. *)
Record SearchPending := mkSearchPending {
  sp_requestId : Z;
  sp_source : MusicSource;
  sp_trimmedKeyword : jsstring;
  sp_page : Z;
  sp_activeTrack : option Track;
  sp_hasActiveSound : bool;
  sp_selectedBitrate : Bitrate
}.

Inductive SearchStep :=
| SearchFinished (s : PlayerState)
| SearchAwaiting (s : PlayerState) (pending : SearchPending) (params : Params).

(** [performSearch(source, keyword, page)] up to
    [await callMusicApi(params)]. *)
Definition performSearch (src : MusicSource) (keyword : jsstring) (page : Z)
           (s : PlayerState) : SearchStep :=
  let trimmedKeyword := trim keyword in
  if isEmpty trimmedKeyword then SearchFinished s
  else
    let activeTrack :=
      if (0 <=? currentSongIndex s)%Z
      then nth_error (musicList s) (Z.to_nat (currentSongIndex s))
      else None in
    let hasActiveSound := match soundRef s with Some _ => true | None => false end in
    let requestId := (searchRequestIdRef s + 1)%Z in
    let s1 := set_searchRequestIdRef requestId s in
    let s1 := if negb hasActiveSound then resetPlayer s1
              else set_autoPlayRef false s1 in
    let s1 := setIsSearching true s1 in
    let s1 := setErrorMessage None s1 in
    SearchAwaiting s1
      (mkSearchPending requestId src trimmedKeyword page activeTrack
                       hasActiveSound (selectedBitrate s))
      (searchParams src trimmedKeyword (String_of_Z page)).

(** [performSearch] after its [await] has settled as [outcome]: the rest
    of the [try] block or the [catch] block, then the [finally] block, on
    the state [s] the component is in by then.  [activeOwnKeys] are the
    own keys of the track object the call captured as [activeTrack]. *)
Definition performSearch_settled (activeOwnKeys : TrackKey -> bool)
           (p : SearchPending) (outcome : Outcome) (s : PlayerState)
  : PlayerState :=
  let requestId := sp_requestId p in
  let page := sp_page p in
  let s1 :=
    match outcome with
    | Resolved searchResults =>
        let list := match searchResults with
                    | SearchResults items => items
                    | _ => []
                    end in
        let mapped :=
          map (mapSearchItem (sp_source p) (sp_trimmedKeyword p)
                             (sp_selectedBitrate p)) list in
        if negb (searchRequestIdRef s =? requestId)%Z then s
        else
          let s := setAllTracks mapped s in
          let next :=
            match sp_hasActiveSound p, sp_activeTrack p with
            | true, Some activeTrack =>
                match findIndex
                        (fun item => jsstring_eqb (id (descriptor item))
                                                  (id (descriptor activeTrack)))
                        mapped with
                | Some existingIndex =>
                    (replaceAt existingIndex
                       (mergeTracks activeOwnKeys
                                    (nth existingIndex mapped activeTrack)
                                    activeTrack)
                       mapped,
                     Some (Z.of_nat existingIndex))
                | None => (activeTrack :: mapped, Some 0%Z)
                end
            | _, _ => (mapped, None)
            end in
          let s := setMusicList (fst next) s in
          let s := match snd next with
                   | Some nextIndex => setCurrentSongIndex nextIndex s
                   | None => s
                   end in
          let s := setShowingSearchResults true s in
          let s := setShowTranslation false s in
          let s := setLastSearchKeyword (Some (sp_trimmedKeyword p)) s in
          let s := setSearchPage page s in
          let s := setSearchPageInput (String_of_Z page) s in
          let s := setSearchHasMore
                     (Z.of_nat (length mapped) =? DEFAULT_SEARCH_COUNT)%Z s in
          setErrorMessage (if (length mapped =? 0)%nat
                           then Some (js "未找到匹配的歌曲") else None) s
    | Rejected message =>
        if negb (searchRequestIdRef s =? requestId)%Z then s
        else
          let s := setErrorMessage (Some message) s in
          let s := setShowingSearchResults true s in
          let s := setShowTranslation false s in
          let s := setLastSearchKeyword (Some (sp_trimmedKeyword p)) s in
          let s := setSearchPage page s in
          let s := setSearchPageInput (String_of_Z page) s in
          let s := setSearchHasMore false s in
          let s := setAllTracks [] s in
          if negb (sp_hasActiveSound p) then setMusicList [] s else s
    end in
  if (searchRequestIdRef s1 =? requestId)%Z
  then setIsSearching false s1
  else s1.

(* ================================================================== *)
(** ** The component when it mounts *)

Definition DEFAULT_SOURCE : MusicSource := netease.

Definition INITIAL_TRACKS : list Track := map createTrack LOCAL_TRACKS.

Definition INITIAL_SOURCE_TRACKS : list Track :=
  filter (fun track => MusicSource_eqb (source (descriptor track)) DEFAULT_SOURCE)
         INITIAL_TRACKS.

Definition initialNetwork : Network :=
  {| requestTimestampsRef := []; fetched := [] |}.

Definition initialState : PlayerState :=
  {| currentSongIndex := -1;
     isPlaying := false;
     progress := 0%Q;
     currentTime := 0%Q;
     playerDuration := 0%Q;
     localTracks := INITIAL_TRACKS;
     selectedBitrate := B320;
     allTracks := INITIAL_SOURCE_TRACKS;
     musicList := INITIAL_SOURCE_TRACKS;
     coverUrl := None;
     loadingTrackIndex := None;
     errorMessage := None;
     isSearching := false;
     showingSearchResults := false;
     showTranslation := false;
     searchPage := 1;
     searchHasMore := false;
     searchPageInput := js "1";
     lastSearchKeyword := None;
     soundRef := None;
     autoPlayRef := false;
     playbackModeRef := order;
     playRequestIdRef := 0;
     searchRequestIdRef := 0;
     network := initialNetwork |}.

(** A sequence of calls of [callMusicApi], each with the clock it reads,
    the behaviour of the service and its parameters. *)
Definition runCalls (calls : list (Z * (Params -> FetchResult) * Params))
           (net : Network) : Network :=
  fold_left (fun net call =>
               match call with
               | (now, response, params) =>
                   snd (callMusicApi now response params net)
               end)
            calls net.

(** A request registered no earlier than [RATE_LIMIT_WINDOW_MS] before
    [start]. *)
Definition recent (start : Z) (request : Z * Params) : bool :=
  (start - RATE_LIMIT_WINDOW_MS <=? fst request)%Z.

Definition inWindow (from : Z) (request : Z * Params) : bool :=
  (from <=? fst request)%Z && (fst request <=? from + RATE_LIMIT_WINDOW_MS)%Z.

(** The requests sent with a timestamp in the window that starts at
    [from] and lasts [RATE_LIMIT_WINDOW_MS], both ends included. *)
Definition sentInWindow (from : Z) (net : Network) : list (Z * Params) :=
  filter (inWindow from) (fetched net).

(** The limiter remembers the requests sent since [last] minus the window,
    and no window holds more than the limit. *)
Definition limiterInvariant (last : Z) (net : Network) : Prop :=
  requestTimestampsRef net = map fst (filter (recent last) (fetched net))
  /\ forall from, (length (sentInWindow from net) <= RATE_LIMIT_MAX_REQUESTS)%nat.

(* ================================================================== *)
(** ** The properties, in the words of the specification *)

(** The last part of C3 as the specification words it: whatever the
    calls, no window of [RATE_LIMIT_WINDOW_MS] holds more than
    [RATE_LIMIT_MAX_REQUESTS] requests sent. *)
Definition admitsWithinLimit
           (calls : list (Z * (Params -> FetchResult) * Params)) : Prop :=
  forall from,
    (length (sentInWindow from (runCalls calls initialNetwork))
     <= RATE_LIMIT_MAX_REQUESTS)%nat.

(** Calls whose clock goes back: 60 calls at 0, one at 300001, which
    forgets them, and 59 at 1. *)
Definition backwardClockCalls : list (Z * (Params -> FetchResult) * Params) :=
  repeat (0%Z, fun _ : Params => HttpNotOk, []) 60
  ++ [(300001%Z, fun _ : Params => HttpNotOk, [])]
  ++ repeat (1%Z, fun _ : Params => HttpNotOk, []) 59.

Section Specification.

Variable toLowerCase : jsstring -> jsstring.

(** Some normalized artist token of the item is one of the target's. *)
Definition sharesToken (itemTokens targetTokens : list jsstring) : bool :=
  existsb (fun token => existsb (jsstring_eqb token) targetTokens) itemTokens.

Definition sameSource (item : SearchApiItem) (target : Track) : bool :=
  match item_source item with
  | Some s => jsstring_eqb s (source_text (source (descriptor target)))
  | None => false
  end.

Definition targetTokens (target : Track) : list jsstring :=
  collectArtistTokens toLowerCase
    (option_map ArtistText (artist (descriptor target))).

(** The score as the specification words it: +4 for an equal normalized
    name, else +2 for a normalized name that contains the target's
    non-empty one; +4 for a shared artist token; +1 for the same source. *)
Definition claimedScore (target : Track) (item : SearchApiItem) : Z :=
  let targetName := normalizeText toLowerCase (Some (name (descriptor target))) in
  let itemName := normalizeText toLowerCase (item_name item) in
  ((if jsstring_eqb itemName targetName then 4
    else if negb (isEmpty targetName) && includes itemName targetName then 2
    else 0)
   + (if sharesToken (collectArtistTokens toLowerCase (item_artist item))
                     (targetTokens target) then 4 else 0)
   + (if sameSource item target then 1 else 0))%Z.

(** The same score with the name compared only when the target's
    normalized name is not empty. *)
Definition guardedScore (target : Track) (item : SearchApiItem) : Z :=
  let targetName := normalizeText toLowerCase (Some (name (descriptor target))) in
  let itemName := normalizeText toLowerCase (item_name item) in
  ((if isEmpty targetName then 0
    else if jsstring_eqb itemName targetName then 4
    else if includes itemName targetName then 2
    else 0)
   + (if sharesToken (collectArtistTokens toLowerCase (item_artist item))
                     (targetTokens target) then 4 else 0)
   + (if sameSource item target then 1 else 0))%Z.

(** [r] is the earliest element of [results] with the greatest score. *)
Definition firstOfMaximalScore (score : SearchApiItem -> Z)
           (results : list SearchApiItem) (r : SearchApiItem) : Prop :=
  exists i,
    nth_error results i = Some r
    /\ (forall j x, nth_error results j = Some x -> (score x <= score r)%Z)
    /\ (forall j x, (j < i)%nat -> nth_error results j = Some x ->
                    (score x < score r)%Z).

Definition selectsBestBy (score : Track -> SearchApiItem -> Z)
           (results : list SearchApiItem) (target : Track) : Prop :=
  exists r,
    selectBestSearchResult toLowerCase (Some results) target = Some r
    /\ firstOfMaximalScore (score target) results r.

(** The early return of [ensureTrackResolved]. *)
Definition alreadyResolved (track : Track) (desiredBitrate : Bitrate) : bool :=
  truthy (url track) && bitrateIs (bitrate (descriptor track)) desiredBitrate.

Definition isRejected (o : Outcome) : bool :=
  match o with Rejected _ => true | Resolved _ => false end.

(** The items of a search that settled with an array; none otherwise. *)
Definition searchItems (o : Outcome) : list SearchApiItem :=
  match o with
  | Resolved (SearchResults items) => items
  | _ => []
  end.

Definition searchOf (track : Track) : Params :=
  searchParams (source (descriptor track)) (searchKeyword track) (js "1").

(** The url the url endpoint gave for [trackId], if it settled with a
    response that has a non-empty [url]. *)
Definition urlObtained (api : Params -> Outcome) (track : Track)
           (desiredBitrate : Bitrate) (trackId : jsstring) : option jsstring :=
  match api (urlParams (source (descriptor track)) trackId desiredBitrate) with
  | Resolved v => playableUrl v
  | Rejected _ => None
  end.

(** The image url the pic endpoint gave for [picId], if there is a pic id
    and the call settled with a response whose [url] is a string that is
    not blank. *)
Definition coverObtained (api : Params -> Outcome) (src : MusicSource)
           (picId : option jsstring) : option jsstring :=
  match picId with
  | Some (c :: r) =>
      match api (picParams src (c :: r)) with
      | Resolved (PicData {| pic_url := Some u |}) =>
          if isEmpty (trim u) then None else Some u
      | _ => None
      end
  | _ => None
  end.

(** The response of the lyric endpoint for [lyricId], if there is a lyric
    id and the call settled with one. *)
Definition lyricResponse (api : Params -> Outcome) (src : MusicSource)
           (lyricId : option jsstring) : option LyricApiResponse :=
  match lyricId with
  | Some (c :: r) =>
      match api (lyricParams src (c :: r)) with
      | Resolved (LyricData resp) => Some resp
      | _ => None
      end
  | _ => None
  end.

(** A lyric field of that response that is a string and not blank. *)
Definition lyricObtained (field : LyricApiResponse -> nullable jsstring)
           (resp : option LyricApiResponse) : option jsstring :=
  match resp with
  | Some r =>
      match field r with
      | val l => if isEmpty (trim l) then None else Some l
      | _ => None
      end
  | None => None
  end.

(** The pic call was made and was rejected. *)
Definition coverFetchFailed (api : Params -> Outcome) (src : MusicSource)
           (picId : option jsstring) : Prop :=
  match picId with
  | Some (c :: r) => isRejected (api (picParams src (c :: r))) = true
  | _ => False
  end.

(** The lyric call was made and was rejected. *)
Definition lyricFetchFailed (api : Params -> Outcome) (track : Track)
           (lyricId : option jsstring) : Prop :=
  truthyN (lyric track) = false
  /\ match lyricId with
     | Some (c :: r) =>
         isRejected (api (lyricParams (source (descriptor track)) (c :: r))) = true
     | _ => False
     end.

(** The track id the url endpoint is asked for: the descriptor's, or the
    id of the best result of the search by keyword; none when there is
    neither. *)
Definition trackIdUsed (api : Params -> Outcome) (track : Track)
  : option jsstring :=
  let d := descriptor track in
  if truthy (trackId d) then trackId d
  else if isEmpty (searchKeyword track) then None
  else if isRejected (api (searchOf track)) then None
  else option_map (fun best => String_of_id (item_id best))
                  (selectBestSearchResult toLowerCase
                     (Some (searchItems (api (searchOf track)))) track).

(** The statement of the specification on what resolution returns for a
    descriptor: a url, a cover image and lyrics, each obtained from its
    endpoint. *)
Definition resolvesFully (api : Params -> Outcome) (d : LocalTrack)
           (desiredBitrate : Bitrate) : Prop :=
  forall r,
    settle api (ensureTrackResolved toLowerCase (createTrack d) desiredBitrate)
    = Ok r ->
    (exists tid u, trackId (descriptor r) = Some tid
                   /\ urlObtained api (createTrack d) desiredBitrate tid = Some u
                   /\ url r = Some (sanitizeUrl u))
    /\ (exists c, coverObtained api (source d) (picId (descriptor r)) = Some c
                  /\ cover r = val c)
    /\ (exists l, lyricObtained lyric_lyric
                    (lyricResponse api (source d) (lyricId (descriptor r))) = Some l
                  /\ lyric r = val l).

(** The statement of the specification on a failed cover fetch: the track
    is resolved with the cover it had before. *)
Definition keepsCoverOnFailure (api : Params -> Outcome) (track : Track)
           (desiredBitrate : Bitrate) : Prop :=
  forall r,
    settle api (ensureTrackResolved toLowerCase track desiredBitrate) = Ok r ->
    coverFetchFailed api (source (descriptor track)) (picId (descriptor r)) ->
    cover r = cover track.

End Specification.

(** What one line contributes: nothing when its text (the line without
    its time tags, trimmed) is empty; one entry at infinity when it has no
    time tag; otherwise one entry per time tag. *)
Definition lineText (line : jsstring) : jsstring :=
  trim (removeTimeTags 0 line).

Definition entriesOfLine (line : jsstring) : list LyricLine :=
  match lineText line with
  | [] => []
  | c :: r =>
      match matchAll 0 line with
      | [] => [mkLyricLine PositiveInfinity (c :: r)]
      | tags => map (fun tag => mkLyricLine (tagTime tag) (c :: r)) tags
      end
  end.

(** Milliseconds of a fraction of one to three digits, padded on the right
    with zeros. *)
Definition millisOfFraction (fraction : option jsstring) : N :=
  match fraction with
  | None => 0
  | Some f => (parseInt f * 10 ^ N.of_nat (3 - length f))%N
  end.

Definition timeLe (x y : LyricTime) : Prop :=
  match x, y with
  | Finite a, Finite b => (a <= b)%N
  | _, PositiveInfinity => True
  | PositiveInfinity, Finite _ => False
  end.

Definition notAfter (a b : LyricLine) : Prop := timeLe (time a) (time b).

Definition LyricLine_eqb (a b : LyricLine) : bool :=
  LyricTime_eqb (time a) (time b) && jsstring_eqb (text a) (text b).

(** A list without the repetitions of an entry next to itself. *)
Fixpoint withoutAdjacentRepeats (l : list LyricLine) : list LyricLine :=
  match l with
  | [] => []
  | x :: rest =>
      match rest with
      | y :: _ =>
          if LyricLine_eqb x y then withoutAdjacentRepeats rest
          else x :: withoutAdjacentRepeats rest
      | [] => [x]
      end
  end.

(* ================================================================== *)
(** ** Shapes and invariants the proofs use *)

(** A run of one to [n] decimal digits. *)
Definition digitRun (n : nat) (d : jsstring) : Prop :=
  (1 <= length d <= n)%nat /\ Forall (fun c => isDigit c = true) d.

(** *** The time tags of a line, as C2 words them *)

(** A time tag as it is written, [[m:ss]] or [[m:ss.fff]]: a bracket, the
    minutes, a colon, the seconds, a dot and the fraction when there is
    one, a bracket. *)
Definition tagText (tag : TimeTag) : jsstring :=
  91%N :: tag_minutes tag
       ++ 58%N :: tag_seconds tag
       ++ match tag_fraction tag with
          | Some f => 46%N :: f
          | None => []
          end
       ++ [93%N].

(** One or two digits of minutes, one or two of seconds, one to three of
    a fraction; [tag_length] counts the code units of the tag. *)
Definition wellFormedTag (tag : TimeTag) : Prop :=
  digitRun 2 (tag_minutes tag)
  /\ digitRun 2 (tag_seconds tag)
  /\ match tag_fraction tag with
     | Some f => digitRun 3 f
     | None => True
     end
  /\ tag_length tag = length (tagText tag).

(** A time tag is written at the start of [s]. *)
Definition startsWithTag (s : jsstring) : Prop :=
  exists tag rest, wellFormedTag tag /\ s = tagText tag ++ rest.

(** [tagsOn line tags stripped]: reading [line] from the left, [tags] are
    the time tags written on it, each taken where it starts, the reading
    going on after its closing bracket, and [stripped] is the line without
    them. *)
Inductive tagsOn : jsstring -> list TimeTag -> jsstring -> Prop :=
| tagsOn_end : tagsOn [] [] []
| tagsOn_tag (tag : TimeTag) (line : jsstring) (tags : list TimeTag)
             (stripped : jsstring) :
    wellFormedTag tag ->
    tagsOn line tags stripped ->
    tagsOn (tagText tag ++ line) (tag :: tags) stripped
| tagsOn_other (c : N) (line : jsstring) (tags : list TimeTag)
               (stripped : jsstring) :
    ~ startsWithTag (c :: line) ->
    tagsOn line tags stripped ->
    tagsOn (c :: line) tags (c :: stripped).

(** The time of a tag in milliseconds: minutes times 60 plus seconds, and
    the fraction padded on the right with zeros to three digits. *)
Definition tagMillis (tag : TimeTag) : N :=
  ((parseInt (tag_minutes tag) * 60 + parseInt (tag_seconds tag)) * 1000
   + millisOfFraction (tag_fraction tag))%N.

(** The entries of a line with the time tags [tags] and, without them,
    the text [stripped]: none when the trimmed text is empty, one at
    infinity when there is no tag, one per tag otherwise. *)
Definition entriesFor (tags : list TimeTag) (stripped : jsstring)
  : list LyricLine :=
  match trim stripped with
  | [] => []
  | c :: r =>
      match tags with
      | [] => [mkLyricLine PositiveInfinity (c :: r)]
      | _ => map (fun tag => mkLyricLine (Finite (tagMillis tag)) (c :: r)) tags
      end
  end.

(** *** The lines of a lyric and the trimmed text, as C2 words them *)

(** [brokenInto s lines]: [lines] are the stretches of [s] between its
    line breaks, from the left, a line break being a carriage return with
    a line feed after it, or a line feed alone. *)
Inductive brokenInto : jsstring -> list jsstring -> Prop :=
| brokenInto_last (line : jsstring) :
    ~ In 10%N line ->
    brokenInto line [line]
| brokenInto_LF (line rest : jsstring) (lines : list jsstring) :
    ~ In 10%N line ->
    (forall p, line <> p ++ [13%N]) ->
    brokenInto rest lines ->
    brokenInto (line ++ 10%N :: rest) (line :: lines)
| brokenInto_CRLF (line rest : jsstring) (lines : list jsstring) :
    ~ In 10%N line ->
    brokenInto rest lines ->
    brokenInto (line ++ 13%N :: 10%N :: rest) (line :: lines).

(** [trimmedOf s t]: [t] is [s] without the white space at its two
    ends. *)
Definition trimmedOf (s t : jsstring) : Prop :=
  exists before after,
    s = before ++ t ++ after
    /\ Forall (fun c => isWhiteSpace c = true) before
    /\ Forall (fun c => isWhiteSpace c = true) after
    /\ match t with
       | [] => True
       | c :: r => isWhiteSpace c = false /\ isWhiteSpace (last r c) = false
       end.

(** The entries kept after [prev]. *)
Fixpoint keptAfter (prev : LyricLine) (l : list LyricLine) : list LyricLine :=
  match l with
  | [] => []
  | x :: rest =>
      if LyricLine_eqb prev x then keptAfter prev rest
      else x :: keptAfter x rest
  end.

(** What the three variables of the loop hold after the items of [seen]. *)
Definition bestAmong (score : SearchApiItem -> Z) (seen : list SearchApiItem)
           (st : BestSoFar) : Prop :=
  match bestScore st with
  | None => seen = []
  | Some b =>
      b = score (best st)
      /\ nth_error seen (bestIndex st) = Some (best st)
      /\ (forall j x, nth_error seen j = Some x -> (score x <= b)%Z)
      /\ (forall j x, (j < bestIndex st)%nat -> nth_error seen j = Some x ->
                      (score x < b)%Z)
  end.

Section Settlement.

Variable toLowerCase : jsstring -> jsstring.
Variable api : Params -> Outcome.

(** The lyric and the translation after the lyric call, if one is made. *)
Definition lyricsAfter (track : Track) (lyricId : option jsstring)
  : nullable jsstring * nullable jsstring :=
  let resp := lyricResponse api (source (descriptor track)) lyricId in
  if truthyN (lyric track)
  then (orNull (lyric track), orNull (tLyric track))
  else (match lyricObtained lyric_lyric resp with
        | Some l => val l
        | None => orNull (lyric track)
        end,
        match lyricObtained tlyric resp with
        | Some l => val l
        | None => orNull (tLyric track)
        end).

(** What [identify] settles as. *)
Definition identified (track : Track) : Result Identified :=
  let d := descriptor track in
  match trackId d with
  | Some (c :: r) =>
      Ok (mkIdentified (c :: r) (picId d) (lyricId d) (name d) (album d) (artist d))
  | _ =>
      if isEmpty (searchKeyword track) then Err (js "未配置歌曲关键词")
      else
        match api (searchOf track) with
        | Rejected e => Err e
        | Resolved _ =>
            match selectBestSearchResult toLowerCase
                    (Some (searchItems (api (searchOf track)))) track with
            | None => Err (js "未找到对应歌曲")
            | Some best => Ok (adoptBest track best)
            end
        end
  end.

(** The track [ensureTrackResolved] builds from the ids and the url. *)
Definition resolvedWith (track : Track) (desiredBitrate : Bitrate)
           (ids : Identified) (urlData : ApiValue) (u : jsstring) : Track :=
  let d := descriptor track in
  let lyrics := lyricsAfter track (i_lyricId ids) in
  {| descriptor :=
       {| id := id d; name := resolvedName ids; artist := resolvedArtist ids;
          album := resolvedAlbum ids; duration := duration d; source := source d;
          keyword := keyword d; trackId := Some (i_trackId ids);
          picId := i_picId ids; lyricId := i_lyricId ids;
          bitrate := Some desiredBitrate |};
     url := Some (sanitizeUrl u);
     cover := match coverObtained api (source d) (i_picId ids) with
              | Some c => val c
              | None => orNull (cover track)
              end;
     lyric := fst lyrics;
     tLyric := snd lyrics;
     fileSizeKb := match urlData with
                   | UrlData {| size := Some n |} => val n
                   | _ => orNull (fileSizeKb track)
                   end |}.

End Settlement.

(* ================================================================== *)
(** ** Inputs of the examples *)

(** A target named with punctuation only and two results: one without a
    name, one named x from the target's source. *)
Definition punctuationTarget : Track :=
  createTrack (mkLocalTrack (js "local-1") (js "!!!") None None None netease
                            None None None None None).

Definition namelessItem : SearchApiItem :=
  mkItem (IdNumber 1) None None None None None None.

Definition sameSourceItem : SearchApiItem :=
  mkItem (IdNumber 2) (Some (js "x")) None None None None (Some (js "netease")).

Definition typesOf (p : Params) : jsstring :=
  match p with
  | (_, t) :: _ => t
  | [] => []
  end.

(** A service that answers the url call and rejects every other call. *)
Definition urlOnlyApi (p : Params) : Outcome :=
  if jsstring_eqb (typesOf p) (js "url")
  then Resolved (UrlData (mkUrlResponse
                            (Some (js "http://m.example/1.mp3?a=1&amp;b=2"))
                            None None))
  else Rejected (js "音乐服务暂时不可用").

(** A service that answers the url, pic and lyric calls. *)
Definition answeringApi (p : Params) : Outcome :=
  if jsstring_eqb (typesOf p) (js "url")
  then Resolved (UrlData (mkUrlResponse (Some (js "http://m.example/1.mp3"))
                                        None None))
  else if jsstring_eqb (typesOf p) (js "pic")
  then Resolved (PicData (mkPicResponse (Some (js "http://img.example/1.jpg"))))
  else if jsstring_eqb (typesOf p) (js "lyric")
  then Resolved (LyricData (mkLyricResponse (val (js "[00:01.50]la")) null))
  else Rejected (js "音乐服务暂时不可用").

Definition exampleDescriptor : LocalTrack :=
  {| id := js "netease-26060065";
     name := js "Counting Stars";
     artist := Some (js "OneRepublic");
     album := None;
     duration := None;
     source := netease;
     keyword := None;
     trackId := Some (js "26060065");
     picId := Some (js "109951170517214706");
     lyricId := Some (js "26060065");
     bitrate := Some B320 |}.

(** A descriptor with no track id and nothing to search by. *)
Definition blankDescriptor : LocalTrack :=
  {| id := js "local-0"; name := []; artist := None; album := None;
     duration := None; source := kuwo; keyword := None; trackId := None;
     picId := None; lyricId := None; bitrate := None |}.

Definition resolvedExample : Track :=
  match settle answeringApi
          (ensureTrackResolved asciiLower (createTrack exampleDescriptor) B320) with
  | Ok r => r
  | Err _ => createTrack exampleDescriptor
  end.

(* ================================================================== *)
(** ** More of the component *)

(** The tracks a program passes to [updateTrackInStates] in the run where
    each call settles as [api] says, in order. *)
Fixpoint updated {A} (api : Params -> Outcome) (m : Prog A) : list Track :=
  match m with
  | Ret _ | Throw _ => []
  | Await p k => updated api (k (api p))
  | UpdateTrackInStates t k => t :: updated api k
  end.

(** [currentSong] *)
Definition currentSong (s : PlayerState) : option Track :=
  if (0 <=? currentSongIndex s)%Z
  then nth_error (musicList s) (Z.to_nat (currentSongIndex s))
  else None.

(** The effect that follows [selectedBitrate]: [None] when it returns
    without calling [playSong]. *)
Definition bitrateEffect (s : PlayerState) : option PlayStep :=
  if (bitrate_value (selectedBitrate s) <=? 0)%Z then None
  else if (currentSongIndex s <? 0)%Z then None
  else
    match loadingTrackIndex s with
    | Some _ => None
    | None =>
        match nth_error (musicList s) (Z.to_nat (currentSongIndex s)) with
        | None => None
        | Some track =>
            if bitrateIs (bitrate (descriptor track)) (selectedBitrate s)
               && truthy (url track)
            then None
            else Some (playSong (currentSongIndex s) (isPlaying s) s)
        end
    end.

(** *** The lyric panel *)

Definition displayLyricLines (originalLyricLines translationLyricLines : list LyricLine)
           (showTranslation : bool) : list LyricLine :=
  let hasTranslation := (0 <? length translationLyricLines)%nat in
  let hasOriginal := (0 <? length originalLyricLines)%nat in
  if showTranslation && hasTranslation then translationLyricLines
  else if hasOriginal then originalLyricLines
  else if hasTranslation then translationLyricLines
  else [].

Definition isFiniteTime (t : LyricTime) : bool :=
  match t with Finite _ => true | PositiveInfinity => false end.

(** The loop of [activeLyricIndex] from position [i] on, [index] being the
    variable it assigns.  [due ms] is the test
    [entry.time <= currentTime + 0.25] on an entry of [ms] milliseconds;
    when it fails the loop breaks, or, for a [currentTime] that compares
    with nothing, goes on without assigning, which returns the same. *)
Fixpoint scanLyricLines (due : N -> bool) (lines : list LyricLine) (i index : Z)
  : Z :=
  match lines with
  | [] => index
  | entry :: rest =>
      match time entry with
      | PositiveInfinity => scanLyricLines due rest (i + 1)%Z index
      | Finite ms =>
          if due ms then scanLyricLines due rest (i + 1)%Z i
          else index
      end
  end.

Definition activeLyricIndex (due : N -> bool) (displayLines : list LyricLine) : Z :=
  if (length displayLines =? 0)%nat then (-1)%Z
  else
    let index := scanLyricLines due displayLines 0%Z (-1)%Z in
    if (index =? -1)%Z && (0 <? length displayLines)%nat then
      match findIndex (fun entry => isFiniteTime (time entry)) displayLines with
      | None => 0%Z
      | Some firstFinite => Z.of_nat firstFinite
      end
    else index.

(** [indices.add(i)] on a [Set] kept in insertion order. *)
Definition addIndex (i : Z) (indices : list Z) : list Z :=
  if existsb (Z.eqb i) indices then indices else indices ++ [i].

Fixpoint insertIndex (x : Z) (l : list Z) : list Z :=
  match l with
  | [] => [x]
  | y :: l' => if (x <=? y)%Z then x :: l else y :: insertIndex x l'
  end.

(** [Array.from(indices).sort((a, b) => a - b)] *)
Definition sortIndices (l : list Z) : list Z := fold_right insertIndex [] l.

(** [previewLyricLines]: each index with [displayLyricLines[index]]. *)
Definition previewLyricLines (displayLines : list LyricLine) (activeIndex : Z)
  : list (Z * option LyricLine) :=
  if (length displayLines =? 0)%nat then []
  else
    let n := Z.of_nat (length displayLines) in
    let baseIndex :=
      if (0 <=? activeIndex)%Z && (activeIndex <? n)%Z then activeIndex else 0%Z in
    let indices := [] in
    let indices :=
      match nth_error displayLines (Z.to_nat baseIndex) with
      | Some _ => addIndex baseIndex indices
      | None => indices
      end in
    let indices := if (0 <? baseIndex)%Z then addIndex (baseIndex - 1)%Z indices
                   else indices in
    let indices := if (baseIndex + 1 <? n)%Z then addIndex (baseIndex + 1)%Z indices
                   else indices in
    let indices := if (length indices =? 0)%nat then addIndex 0%Z indices
                   else indices in
    map (fun index => (index, nth_error displayLines (Z.to_nat index)))
        (sortIndices indices).

(** *** The search box, the source buttons and the pager *)

(** [handleSearch], with the [searchTerm] and [selectedSource] of the
    render it belongs to. *)
Definition handleSearch (searchTerm : jsstring) (selectedSource : MusicSource)
           (s : PlayerState) : SearchStep :=
  let keyword := trim searchTerm in
  if isEmpty keyword then
    let s1 := set_searchRequestIdRef (searchRequestIdRef s + 1)%Z s in
    let s1 := setIsSearching false s1 in
    let filtered :=
      filter (fun track => MusicSource_eqb (source (descriptor track)) selectedSource)
             (localTracks s) in
    let s1 := setAllTracks filtered s1 in
    let s1 := setMusicList filtered s1 in
    let s1 := setShowingSearchResults false s1 in
    let s1 := setShowTranslation false s1 in
    let s1 := setErrorMessage None s1 in
    let s1 := setSearchPage 1%Z s1 in
    let s1 := setSearchPageInput (js "1") s1 in
    let s1 := setSearchHasMore false s1 in
    let s1 := setLastSearchKeyword None s1 in
    SearchFinished (resetPlayer s1)
  else
    performSearch selectedSource keyword 1%Z (setSearchPageInput (js "1") s).

(** [handleSourceChange(source)]: the selected source after it and what it
    did to the state. *)
Definition handleSourceChange (src : MusicSource) (searchTerm : jsstring)
           (selectedSource : MusicSource) (s : PlayerState)
  : MusicSource * SearchStep :=
  if MusicSource_eqb src selectedSource then (selectedSource, SearchFinished s)
  else if negb (isEmpty (trim searchTerm)) then
    (src, performSearch src (trim searchTerm) 1%Z (setSearchPageInput (js "1") s))
  else
    let s1 := set_searchRequestIdRef (searchRequestIdRef s + 1)%Z s in
    let s1 := setIsSearching false s1 in
    let filtered :=
      filter (fun track => MusicSource_eqb (source (descriptor track)) src)
             (localTracks s) in
    let s1 := setAllTracks filtered s1 in
    let s1 := setMusicList filtered s1 in
    let s1 := setShowingSearchResults false s1 in
    let s1 := setShowTranslation false s1 in
    let s1 := setErrorMessage None s1 in
    let s1 := setSearchPage 1%Z s1 in
    let s1 := setSearchPageInput (js "1") s1 in
    let s1 := setSearchHasMore false s1 in
    let s1 := setLastSearchKeyword None s1 in
    (src, SearchFinished (resetPlayer s1)).

Definition handleSearchPagePrev (selectedSource : MusicSource) (s : PlayerState)
  : SearchStep :=
  match lastSearchKeyword s with
  | Some (c :: r) =>
      if (searchPage s <=? 1)%Z then SearchFinished s
      else performSearch selectedSource (c :: r) (Z.max 1 (searchPage s - 1)) s
  | _ => SearchFinished s
  end.

Definition handleSearchPageNext (selectedSource : MusicSource) (s : PlayerState)
  : SearchStep :=
  match lastSearchKeyword s with
  | Some (c :: r) =>
      if negb (searchHasMore s) then SearchFinished s
      else performSearch selectedSource (c :: r) (searchPage s + 1)%Z s
  | _ => SearchFinished s
  end.

(** *** The track information dialog *)

Record InfoModal := mkInfoModal {
  infoModalVisible : bool;
  infoModalTrack : option Track;
  infoModalLoading : bool;
  infoModalError : option jsstring;
  infoRequestIdRef : Z
}.

Definition handleCloseInfoModal (m : InfoModal) : InfoModal :=
  {| infoModalVisible := false;
     infoModalTrack := None;
     infoModalLoading := false;
     infoModalError := None;
     infoRequestIdRef := infoRequestIdRef m |}.

(** The track [handleShowTrackInfo] asks [ensureTrackResolved] for, and
    the bitrate it asks for. *)
Definition infoBitrate (track : Track) (selectedBitrate : Bitrate) : Bitrate :=
  orElse (bitrate (descriptor track)) selectedBitrate.

Definition infoTrack (track : Track) (selectedBitrate : Bitrate) : Track :=
  let d := descriptor track in
  {| descriptor :=
       {| id := id d; name := name d; artist := artist d; album := album d;
          duration := duration d; source := source d; keyword := keyword d;
          trackId := trackId d; picId := picId d; lyricId := lyricId d;
          bitrate := Some (infoBitrate track selectedBitrate) |};
     url := url track;
     cover := cover track;
     lyric := lyric track;
     tLyric := tLyric track;
     fileSizeKb := fileSizeKb track |}.

(** [handleShowTrackInfo(track)] up to its [await]: the dialog and the
    request id it captured. *)
Definition handleShowTrackInfo (track : Track) (m : InfoModal) : InfoModal * Z :=
  let requestId := (infoRequestIdRef m + 1)%Z in
  ({| infoModalVisible := true;
      infoModalTrack := Some track;
      infoModalLoading := true;
      infoModalError := None;
      infoRequestIdRef := requestId |},
   requestId).

(** [handleShowTrackInfo] after [await ensureTrackResolved(...)] has
    settled as [resolution], on the dialog [m] it finds by then. *)
Definition handleShowTrackInfo_settled (requestId : Z) (resolution : Result Track)
           (m : InfoModal) : InfoModal :=
  let m1 :=
    match resolution with
    | Ok resolved =>
        if negb (infoRequestIdRef m =? requestId)%Z then m
        else {| infoModalVisible := infoModalVisible m;
                infoModalTrack := Some resolved;
                infoModalLoading := infoModalLoading m;
                infoModalError := infoModalError m;
                infoRequestIdRef := infoRequestIdRef m |}
    | Err message =>
        if negb (infoRequestIdRef m =? requestId)%Z then m
        else {| infoModalVisible := infoModalVisible m;
                infoModalTrack := infoModalTrack m;
                infoModalLoading := infoModalLoading m;
                infoModalError := Some message;
                infoRequestIdRef := infoRequestIdRef m |}
    end in
  if (infoRequestIdRef m1 =? requestId)%Z
  then {| infoModalVisible := infoModalVisible m1;
          infoModalTrack := infoModalTrack m1;
          infoModalLoading := false;
          infoModalError := infoModalError m1;
          infoRequestIdRef := infoRequestIdRef m1 |}
  else m1.

(** [text.split(re).join(sep)] undone for line feeds: the lines with a line
    feed between them. *)
Definition joinLines (lines : list jsstring) : jsstring :=
  match lines with
  | [] => []
  | first :: rest => first ++ flat_map (fun line => 10%N :: line) rest
  end.

(** *** What holds of a program however its calls settle *)

(** [always P calls updates m]: however each [await callMusicApi(p)]
    settles, [P] holds of the number of calls made, the tracks passed to
    [updateTrackInStates] and the result, [calls] and [updates] being
    those before [m]. *)
Fixpoint always {A} (P : nat -> list Track -> Result A -> Prop) (calls : nat)
         (updates : list Track) (m : Prog A) : Prop :=
  match m with
  | Ret a => P calls updates (Ok a)
  | Throw e => P calls updates (Err e)
  | Await _ k => forall o, always P (S calls) updates (k o)
  | UpdateTrackInStates t k => always P calls (updates ++ [t]) k
  end.

(** Calls of [updateTrackInStates], one after the other. *)
Definition applyUpdates (updates : list Track) (s : PlayerState) : PlayerState :=
  fold_left (fun s t => updateTrackInStates t s) updates s.

(** The kinds of request [ensureTrackResolved] makes, in the order it
    makes them. *)
Definition requestKinds (search urlCall pic lyricCall : bool) : list jsstring :=
  (if search then [js "search"] else [])
  ++ (if urlCall then [js "url"] else [])
  ++ (if pic then [js "pic"] else [])
  ++ (if lyricCall then [js "lyric"] else []).

(** The cells of the state other than the track lists and the network. *)
Definition sameControls (s s' : PlayerState) : Prop :=
  currentSongIndex s' = currentSongIndex s
  /\ isPlaying s' = isPlaying s
  /\ progress s' = progress s
  /\ currentTime s' = currentTime s
  /\ playerDuration s' = playerDuration s
  /\ selectedBitrate s' = selectedBitrate s
  /\ coverUrl s' = coverUrl s
  /\ loadingTrackIndex s' = loadingTrackIndex s
  /\ errorMessage s' = errorMessage s
  /\ isSearching s' = isSearching s
  /\ showingSearchResults s' = showingSearchResults s
  /\ showTranslation s' = showTranslation s
  /\ searchPage s' = searchPage s
  /\ searchHasMore s' = searchHasMore s
  /\ searchPageInput s' = searchPageInput s
  /\ lastSearchKeyword s' = lastSearchKeyword s
  /\ soundRef s' = soundRef s
  /\ autoPlayRef s' = autoPlayRef s
  /\ playbackModeRef s' = playbackModeRef s
  /\ playRequestIdRef s' = playRequestIdRef s
  /\ searchRequestIdRef s' = searchRequestIdRef s.

Definition idsOf (tracks : list Track) : list jsstring :=
  map (fun track => id (descriptor track)) tracks.

(** What holds of a run of [ensureTrackResolved(track, desiredBitrate)]:
    at most four calls; no [updateTrackInStates] when it throws or returns
    at once, one, of the track returned, otherwise; a returned track keeps
    the id, source, duration and keyword, has the bitrate asked for and a
    url that is not empty. *)
Definition resolutionPost (track : Track) (desiredBitrate : Bitrate)
           (calls : nat) (updates : list Track) (res : Result Track) : Prop :=
  (calls <= 4)%nat
  /\ match res with
     | Err _ => updates = []
     | Ok r =>
         updates = (if alreadyResolved track desiredBitrate then [] else [r])
         /\ id (descriptor r) = id (descriptor track)
         /\ source (descriptor r) = source (descriptor track)
         /\ duration (descriptor r) = duration (descriptor track)
         /\ keyword (descriptor r) = keyword (descriptor track)
         /\ bitrate (descriptor r) = Some desiredBitrate
         /\ truthy (url r) = true
     end.

(** *** A handler from its call to its end *)

(** [playSong(index, autoplay)] from its call to its end when nothing else
    touches the component while it waits: [ensureTrackResolved] runs on
    the state [playSong] left, its calls of [callMusicApi] being the
    [n]-th and the following ones. *)
Definition playSong_alone (toLowerCase : jsstring -> jsstring) (env : Env)
           (index : Z) (autoplay : bool) (n : nat) (s : PlayerState)
  : PlayerState :=
  match playSong index autoplay s with
  | PlayFinished s' => s'
  | PlayAwaiting s1 requestId baseTrack =>
      let run :=
        exec env (ensureTrackResolved toLowerCase baseTrack (selectedBitrate s))
             n s1 in
      playSong_settled requestId index autoplay (fst (fst run)) (snd run)
  end.

(** [performSearch(source, keyword, page)] from its call to its end when
    nothing else touches the component while it waits, its one call of
    [callMusicApi] being the [n]-th.  [activeOwnKeys] are the own keys of
    the track object that is current when it is called. *)
Definition performSearch_alone (env : Env) (activeOwnKeys : TrackKey -> bool)
           (src : MusicSource) (keyword : jsstring) (page : Z) (n : nat)
           (s : PlayerState) : PlayerState :=
  match performSearch src keyword page s with
  | SearchFinished s' => s'
  | SearchAwaiting s1 pending params =>
      let (outcome, net) :=
        callMusicApi (clock env n) (remote env n) params (network s1) in
      performSearch_settled activeOwnKeys pending outcome (set_network net s1)
  end.

(** *** Words for the lyric panel *)

(** Line [i] of [lines] has the finite time of [ms] milliseconds. *)
Definition finiteAt (lines : list LyricLine) (i : nat) (ms : N) : Prop :=
  exists line, nth_error lines i = Some line /\ time line = Finite ms.

(** No line of [lines] at a position from [a] on and before [b] has a
    finite time. *)
Definition noneFiniteBetween (lines : list LyricLine) (a b : nat) : Prop :=
  forall k ms, (a <= k < b)%nat -> ~ finiteAt lines k ms.

(* ================================================================== *)
(** * Theorems *)

Unset Implicit Arguments.

(** ** Strings *)

Lemma jsstring_eqb_eq (a b : jsstring) : jsstring_eqb a b = true <-> a = b.
Proof.
  revert b; induction a as [|x a IH]; intros [|y b]; simpl;
    try (split; [discriminate | discriminate]); try tauto.
  rewrite andb_true_iff, N.eqb_eq, IH.
  split; [intros [-> ->]; reflexivity | intros H; inversion H; auto].
Qed.

Lemma jsstring_eqb_refl (a : jsstring) : jsstring_eqb a a = true.
Proof. apply jsstring_eqb_eq; reflexivity. Qed.

Lemma isEmpty_true (s : jsstring) : isEmpty s = true <-> s = [].
Proof. destruct s; simpl; split; congruence. Qed.

Lemma isEmpty_false (s : jsstring) : isEmpty s = false <-> s <> [].
Proof. destruct s; simpl; split; congruence. Qed.

(** ** The route *)

(** C7. Whatever the request (method, headers, body) and whatever the
    response object held before, the handler leaves the response with
    status 200 and the catalog [LOCAL_TRACKS] as its body; the model of the
    handler is a total function, so it always answers. *)
Theorem handler_serves_catalog :
  forall (req : NextApiRequest) (res : NextApiResponse),
    statusCode (handler req res) = 200%Z
    /\ sentBody (handler req res) = Some LOCAL_TRACKS
    /\ forall req' : NextApiRequest, handler req' res = handler req res.
Proof.
  intros req res. repeat split.
Qed.

(** ** createTrack *)

(** C10. [createTrack] keeps every field of the descriptor, leaves [url]
    undefined, sets [lyric], [tLyric] and [fileSizeKb] to null, and sets
    [cover] to undefined when the descriptor has a pic id (a [picId] that
    is present and not empty, the test the code makes) and to null
    otherwise. *)
Theorem createTrack_fields :
  forall d : LocalTrack,
    let t := createTrack d in
    (id (descriptor t) = id d
     /\ name (descriptor t) = name d
     /\ artist (descriptor t) = artist d
     /\ album (descriptor t) = album d
     /\ duration (descriptor t) = duration d
     /\ source (descriptor t) = source d
     /\ keyword (descriptor t) = keyword d
     /\ trackId (descriptor t) = trackId d
     /\ picId (descriptor t) = picId d
     /\ lyricId (descriptor t) = lyricId d
     /\ bitrate (descriptor t) = bitrate d)
    /\ url t = None
    /\ lyric t = null
    /\ tLyric t = null
    /\ fileSizeKb t = null
    /\ (cover t = undefined <-> truthy (picId d) = true)
    /\ (cover t = null <-> truthy (picId d) = false).
Proof.
  intros d t. subst t. unfold createTrack; simpl.
  repeat split; try reflexivity;
    destruct (truthy (picId d)); intros; try reflexivity; try discriminate.
Qed.

Lemma createTrack_fields_witness :
  cover (createTrack (mkLocalTrack (js "a") (js "b") None None None kuwo None
                                   None (Some (js "7")) None None)) = undefined
  /\ cover (createTrack (mkLocalTrack (js "a") (js "b") None None None kuwo None
                                      None (Some []) None None)) = null.
Proof.
  split.
  - apply (createTrack_fields
             (mkLocalTrack (js "a") (js "b") None None None kuwo None
                           None (Some (js "7")) None None)).
    reflexivity.
  - apply (createTrack_fields
             (mkLocalTrack (js "a") (js "b") None None None kuwo None
                           None (Some []) None None)).
    reflexivity.
Defined.

(** ** playNext and playPrevious *)

(** C9. In [order] mode: on an empty list both do nothing; with no song
    selected both call [playSong(0)]; with a selected song [playNext] calls
    [playSong] on the next index, 0 after the last, and [playPrevious] on
    the previous index, the last before the first. *)
Theorem order_mode_navigation :
  forall (draws : list Z) (s : PlayerState),
    playbackModeRef s = order ->
    let n := Z.of_nat (length (musicList s)) in
    let i := currentSongIndex s in
    (musicList s = [] ->
       playNext draws s = Some (PlayFinished s)
       /\ playPrevious draws s = Some (PlayFinished s))
    /\ (musicList s <> [] -> (i < 0)%Z ->
          playNext draws s = Some (playSong 0 true s)
          /\ playPrevious draws s = Some (playSong 0 true s))
    /\ (musicList s <> [] -> (0 <= i < n)%Z ->
          playNext draws s
          = Some (playSong (if (i =? n - 1)%Z then 0 else i + 1)%Z true s)
          /\ playPrevious draws s
             = Some (playSong (if (i =? 0)%Z then n - 1 else i - 1)%Z true s)).
Proof.
  intros draws s Hmode n i.
  unfold playNext, playPrevious, nextChoice, previousChoice.
  rewrite Hmode. fold i.
  split; [|split].
  - intros ->. simpl. split; reflexivity.
  - intros Hne Hi.
    assert (Hlen : (length (musicList s) =? 0)%nat = false)
      by (destruct (musicList s); [congruence | reflexivity]).
    rewrite Hlen.
    assert (H : (i <? 0)%Z = true) by (apply Z.ltb_lt; exact Hi).
    rewrite H. split; reflexivity.
  - intros Hne Hi. subst n.
    assert (Hlen : (length (musicList s) =? 0)%nat = false)
      by (destruct (musicList s); [congruence | reflexivity]).
    rewrite Hlen.
    assert (H : (i <? 0)%Z = false) by (apply Z.ltb_ge; lia).
    rewrite H. cbn [playChoice].
    split; f_equal; f_equal.
    + destruct (Z.eqb_spec i (Z.of_nat (length (musicList s)) - 1));
        destruct (Z.leb_spec (Z.of_nat (length (musicList s)) - 1) i);
        try reflexivity; lia.
    + destruct (Z.eqb_spec i 0); destruct (Z.leb_spec i 0);
        try reflexivity; lia.
Qed.

Lemma order_mode_navigation_witness :
  playNext [] (setCurrentSongIndex 3 initialState)
  = Some (playSong 0 true (setCurrentSongIndex 3 initialState))
  /\ playPrevious [] (setCurrentSongIndex 3 initialState)
     = Some (playSong 2 true (setCurrentSongIndex 3 initialState)).
Proof.
  apply (order_mode_navigation [] (setCurrentSongIndex 3 initialState)
                               eq_refl).
  - discriminate.
  - vm_compute. split; [discriminate | reflexivity].
Defined.

(** ** The early return of resolution *)

(** C8. For a track whose url is set (present and not empty) and whose
    bitrate is the desired one, [ensureTrackResolved] is the program that
    returns the track: it awaits no call of [callMusicApi], whatever the
    service would answer, and run on the component it returns the same
    track and leaves the whole state, with the timestamps of the rate
    limiter and the requests sent, as it was. *)
Theorem resolved_track_is_returned :
  forall (toLowerCase : jsstring -> jsstring) (track : Track)
         (desiredBitrate : Bitrate),
    truthy (url track) = true ->
    bitrate (descriptor track) = Some desiredBitrate ->
    ensureTrackResolved toLowerCase track desiredBitrate = Ret track
    /\ (forall api,
          settle api (ensureTrackResolved toLowerCase track desiredBitrate)
          = Ok track
          /\ requested api (ensureTrackResolved toLowerCase track desiredBitrate)
             = [])
    /\ (forall env n s,
          exec env (ensureTrackResolved toLowerCase track desiredBitrate) n s
          = (Ok track, n, s)).
Proof.
  intros toLowerCase track desiredBitrate Hurl Hbr.
  assert (E : ensureTrackResolved toLowerCase track desiredBitrate = Ret track).
  { unfold ensureTrackResolved. rewrite Hurl, Hbr. simpl.
    unfold Bitrate_eqb. rewrite Z.eqb_refl. reflexivity. }
  rewrite E. repeat split; reflexivity.
Qed.

Lemma resolved_track_is_returned_witness :
  let track := mkTrack (mkLocalTrack (js "kuwo-1") (js "n") None None None kuwo
                                     None None None None (Some B192))
                       (Some (js "http://a/b.mp3")) null null null null in
  ensureTrackResolved asciiLower track B192 = Ret track.
Proof.
  intro track.
  apply (resolved_track_is_returned asciiLower track B192); reflexivity.
Defined.

(** ** Stale requests *)

Lemma playRequestId_after_reset (s : PlayerState) :
  playRequestIdRef (resetPlayer s) = (playRequestIdRef s + 1)%Z.
Proof. destruct s. unfold resetPlayer, unloadSound. simpl. destruct soundRef0; reflexivity. Qed.

Lemma playRequestId_when_awaiting (index : Z) (autoplay : bool)
      (s s' : PlayerState) (requestId : Z) (baseTrack : Track) :
  playSong index autoplay s = PlayAwaiting s' requestId baseTrack ->
  requestId = (playRequestIdRef s + 1)%Z /\ playRequestIdRef s' = requestId.
Proof.
  unfold playSong.
  destruct (_ || _); [discriminate|].
  destruct (option_Z_eqb _ _); [discriminate|].
  destruct (nth_error _ _); [|discriminate].
  destruct (truthy _); [discriminate|].
  intros H; inversion H; subst. destruct s; split; reflexivity.
Qed.

Lemma searchRequestId_when_awaiting (src : MusicSource) (keyword : jsstring)
      (page : Z) (s s' : PlayerState) (pending : SearchPending) (params : Params) :
  performSearch src keyword page s = SearchAwaiting s' pending params ->
  sp_requestId pending = (searchRequestIdRef s + 1)%Z
  /\ searchRequestIdRef s' = sp_requestId pending.
Proof.
  unfold performSearch.
  destruct (isEmpty (trim keyword)); [discriminate|].
  intros H; inversion H; subst; clear H. cbn [sp_requestId].
  split; [reflexivity|].
  destruct s. unfold resetPlayer, unloadSound. simpl.
  destruct soundRef0; reflexivity.
Qed.

Lemma playSong_settled_stale (requestId index : Z) (autoplay : bool)
      (resolution : Result Track) (s : PlayerState) :
  playRequestIdRef s <> requestId ->
  playSong_settled requestId index autoplay resolution s = s.
Proof.
  intros H. apply Z.eqb_neq in H.
  unfold playSong_settled. destruct resolution; rewrite H; simpl; rewrite H;
    reflexivity.
Qed.

Lemma performSearch_settled_stale (activeOwnKeys : TrackKey -> bool)
      (pending : SearchPending) (outcome : Outcome) (s : PlayerState) :
  searchRequestIdRef s <> sp_requestId pending ->
  performSearch_settled activeOwnKeys pending outcome s = s.
Proof.
  intros H. apply Z.eqb_neq in H.
  unfold performSearch_settled. destruct outcome; rewrite H; simpl; rewrite H;
    reflexivity.
Qed.

(** A [playSong] that is still waiting when [resetPlayer] runs, or when a
    newer [playSong] reaches its own [await], finds another request id when
    it resumes in the state they leave. *)
Lemma playSong_stale_after_reset (index : Z) (autoplay : bool)
      (s s1 : PlayerState) (requestId : Z) (baseTrack : Track)
      (resolution : Result Track) :
  playSong index autoplay s = PlayAwaiting s1 requestId baseTrack ->
  playSong_settled requestId index autoplay resolution (resetPlayer s1)
  = resetPlayer s1.
Proof.
  intros H. apply playRequestId_when_awaiting in H. destruct H as [_ H].
  apply playSong_settled_stale. rewrite playRequestId_after_reset. lia.
Qed.

Lemma playSong_stale_after_newer (index index' : Z) (autoplay autoplay' : bool)
      (s s1 s2 : PlayerState) (requestId requestId' : Z)
      (baseTrack baseTrack' : Track) (resolution : Result Track) :
  playSong index autoplay s = PlayAwaiting s1 requestId baseTrack ->
  playSong index' autoplay' s1 = PlayAwaiting s2 requestId' baseTrack' ->
  playSong_settled requestId index autoplay resolution s2 = s2.
Proof.
  intros H H'. apply playRequestId_when_awaiting in H, H'.
  apply playSong_settled_stale. lia.
Qed.

Lemma performSearch_stale_after_newer (src src' : MusicSource)
      (keyword keyword' : jsstring) (page page' : Z) (s s1 s2 : PlayerState)
      (pending pending' : SearchPending) (params params' : Params)
      (activeOwnKeys : TrackKey -> bool) (outcome : Outcome) :
  performSearch src keyword page s = SearchAwaiting s1 pending params ->
  performSearch src' keyword' page' s1 = SearchAwaiting s2 pending' params' ->
  performSearch_settled activeOwnKeys pending outcome s2 = s2.
Proof.
  intros H H'. apply searchRequestId_when_awaiting in H, H'.
  apply performSearch_settled_stale. lia.
Qed.

(** C4. When [playSong] resumes after its [await] in a state whose
    [playRequestIdRef] is not the id it captured, it leaves every cell of
    the state as it finds it, whether the resolution succeeded or threw: no
    current index, cover, progress, error message or loading index is set.
    When [performSearch] resumes in a state whose [searchRequestIdRef] is
    not the id it captured, it likewise leaves every cell as it finds it:
    no track list, current index, error message, pagination cell or
    searching flag is set. *)
Theorem stale_requests_change_nothing :
  forall (requestId index : Z) (autoplay : bool) (resolution : Result Track)
         (activeOwnKeys : TrackKey -> bool) (pending : SearchPending)
         (outcome : Outcome) (s : PlayerState),
    (playRequestIdRef s <> requestId ->
     playSong_settled requestId index autoplay resolution s = s)
    /\ (searchRequestIdRef s <> sp_requestId pending ->
        performSearch_settled activeOwnKeys pending outcome s = s).
Proof.
  intros requestId index autoplay resolution activeOwnKeys pending outcome s.
  split.
  - apply playSong_settled_stale.
  - apply performSearch_settled_stale.
Qed.

Lemma stale_requests_change_nothing_witness :
  playSong_settled 0 2 true (Err (js "x")) (resetPlayer initialState)
  = resetPlayer initialState
  /\ performSearch_settled
       (fun _ => true) (mkSearchPending 7 kuwo (js "k") 1 None false B320)
       (Resolved (SearchResults [])) initialState
     = initialState.
Proof.
  destruct (stale_requests_change_nothing
              0 2 true (Err (js "x")) (fun _ => true)
              (mkSearchPending 7 kuwo (js "k") 1 None false B320)
              (Resolved (SearchResults [])) (resetPlayer initialState))
    as [H1 _].
  destruct (stale_requests_change_nothing
              0 2 true (Err (js "x")) (fun _ => true)
              (mkSearchPending 7 kuwo (js "k") 1 None false B320)
              (Resolved (SearchResults [])) initialState)
    as [_ H2].
  split.
  - apply H1. vm_compute. discriminate.
  - apply H2. vm_compute. discriminate.
Defined.

(** ** The rate limiter *)

Section RateLimiter.

Local Open Scope Z_scope.

Lemma filter_length_le {A} (p q : A -> bool) (l : list A) :
  (forall x, p x = true -> q x = true) ->
  (length (filter p l) <= length (filter q l))%nat.
Proof.
  intros Hpq. induction l as [|x l IH]; simpl; [lia|].
  destruct (p x) eqn:Hp.
  - rewrite (Hpq x Hp). simpl. lia.
  - destruct (q x); simpl; lia.
Qed.

Lemma filter_map_fst (start : Z) (l : list (Z * Params)) :
  filter (fun timestamp => start - RATE_LIMIT_WINDOW_MS <=? timestamp)
         (map fst l)
  = map fst (filter (recent start) l).
Proof.
  induction l as [|x l IH]; simpl; [reflexivity|].
  unfold recent at 1. destruct (_ <=? fst x); simpl; rewrite IH; reflexivity.
Qed.

Lemma filter_recent_twice (last now : Z) (l : list (Z * Params)) :
  last <= now ->
  filter (recent now) (filter (recent last) l) = filter (recent now) l.
Proof.
  intros Hle. induction l as [|x l IH]; simpl; [reflexivity|].
  destruct (recent last x) eqn:Hl; simpl; rewrite IH.
  - reflexivity.
  - destruct (recent now x) eqn:Hn; [|reflexivity].
    unfold recent in *. apply Z.leb_le in Hn. apply Z.leb_gt in Hl. lia.
Qed.

Lemma callMusicApi_keeps_invariant (last now : Z)
      (response : Params -> FetchResult) (params : Params) (net : Network) :
  last <= now ->
  limiterInvariant last net ->
  limiterInvariant now (snd (callMusicApi now response params net)).
Proof.
  intros Hle [Hts Hwin].
  assert (Hkept :
            filter (fun timestamp => now - RATE_LIMIT_WINDOW_MS <=? timestamp)
                   (requestTimestampsRef net)
            = map fst (filter (recent now) (fetched net))).
  { rewrite Hts, filter_map_fst, filter_recent_twice by exact Hle.
    reflexivity. }
  unfold callMusicApi, registerRequest. rewrite Hkept.
  destruct (RATE_LIMIT_MAX_REQUESTS <=? length _)%nat eqn:Hfull.
  - split; simpl; [reflexivity | exact Hwin].
  - apply Nat.leb_gt in Hfull. rewrite length_map in Hfull.
    assert (Hnet :
              limiterInvariant now
                (mkNetwork (map fst (filter (recent now) (fetched net)) ++ [now])
                           (fetched net ++ [(now, params)]))).
    { split; simpl.
      - assert (Hnow : recent now (now, params) = true)
          by (apply Z.leb_le; unfold RATE_LIMIT_WINDOW_MS; simpl; lia).
        rewrite filter_app, map_app. simpl. rewrite Hnow. reflexivity.
      - intros from. unfold sentInWindow. simpl.
        rewrite filter_app, length_app. simpl.
        destruct (inWindow from (now, params)) eqn:Hin; simpl.
        + assert (Hsub : (length (filter (inWindow from) (fetched net))
                          <= length (filter (recent now) (fetched net)))%nat).
          { apply filter_length_le. intros x Hx.
            unfold inWindow, recent in *. simpl in Hin.
            apply andb_true_iff in Hx. destruct Hx as [Hx1 Hx2].
            apply andb_true_iff in Hin. destruct Hin as [Hi1 Hi2].
            apply Z.leb_le in Hx1, Hi2. apply Z.leb_le. lia. }
          unfold RATE_LIMIT_MAX_REQUESTS in *. lia.
        + specialize (Hwin from). unfold sentInWindow in Hwin. lia. }
    destruct (response params); exact Hnet.
Qed.

Lemma runCalls_keeps_invariant
      (calls : list (Z * (Params -> FetchResult) * Params)) :
  forall (last : Z) (net : Network),
    Sorted Z.le (last :: map (fun call => fst (fst call)) calls) ->
    limiterInvariant last net ->
    exists last', limiterInvariant last' (runCalls calls net).
Proof.
  induction calls as [|[[now response] params] calls IH]; intros last net Hs Hinv.
  - exists last. exact Hinv.
  - simpl in Hs. inversion Hs as [|? ? Hs' Hhd]; subst.
    inversion Hhd; subst.
    apply (IH now); [exact Hs'|].
    apply callMusicApi_keeps_invariant with (last := last); assumption.
Qed.

End RateLimiter.

(** C3. [registerRequest] throws exactly when at least 60 of the recorded
    timestamps are not older than 300000 ms, and otherwise records the
    current time after the ones it kept; [callMusicApi] sends its request
    only when [registerRequest] did not throw, and rejects without sending
    otherwise; so in a run of calls that starts with no timestamp recorded
    and reads a clock that does not go back, no window of 300000 ms holds
    more than 60 requests sent. *)
Theorem rate_limiter_admits_60_per_window :
  forall (now : Z) (timestamps : list Z) (response : Params -> FetchResult)
         (params : Params) (net : Network)
         (calls : list (Z * (Params -> FetchResult) * Params)) (from : Z),
    let kept := filter (fun t => (now - 300000 <=? t)%Z) timestamps in
    (snd (registerRequest now timestamps) <> None <-> (60 <= length kept)%nat)
    /\ (snd (registerRequest now timestamps) = None ->
        fst (registerRequest now timestamps) = kept ++ [now])
    /\ (snd (registerRequest now (requestTimestampsRef net)) <> None ->
        isRejected (fst (callMusicApi now response params net)) = true
        /\ fetched (snd (callMusicApi now response params net)) = fetched net)
    /\ (snd (registerRequest now (requestTimestampsRef net)) = None ->
        fetched (snd (callMusicApi now response params net))
        = fetched net ++ [(now, params)]
        /\ requestTimestampsRef (snd (callMusicApi now response params net))
           = fst (registerRequest now (requestTimestampsRef net)))
    /\ (Sorted Z.le (map (fun call => fst (fst call)) calls) ->
        (length (sentInWindow from (runCalls calls initialNetwork)) <= 60)%nat).
Proof.
  intros now timestamps response params net calls from kept.
  split; [|split; [|split; [|split]]].
  - unfold registerRequest. fold kept.
    change (now - RATE_LIMIT_WINDOW_MS)%Z with (now - 300000)%Z. fold kept.
    destruct (RATE_LIMIT_MAX_REQUESTS <=? length kept)%nat eqn:E; simpl.
    + apply Nat.leb_le in E. split; [intros _; exact E | intros _; discriminate].
    + apply Nat.leb_gt in E. unfold RATE_LIMIT_MAX_REQUESTS in E.
      split; [congruence | lia].
  - unfold registerRequest.
    change (now - RATE_LIMIT_WINDOW_MS)%Z with (now - 300000)%Z. fold kept.
    destruct (RATE_LIMIT_MAX_REQUESTS <=? length kept)%nat; simpl;
      [discriminate | reflexivity].
  - unfold callMusicApi.
    destruct (registerRequest now (requestTimestampsRef net)) as [k [e|]];
      simpl; [intros _; split; reflexivity | congruence].
  - unfold callMusicApi.
    destruct (registerRequest now (requestTimestampsRef net)) as [k [e|]];
      simpl; [discriminate|].
    intros _. destruct (response params); split; reflexivity.
  - intros Hsorted.
    destruct calls as [|[[first response0] params0] rest].
    + simpl. lia.
    + destruct (runCalls_keeps_invariant ((first, response0, params0) :: rest)
                                         first initialNetwork)
        as [last' [_ Hwin]].
      * constructor; [exact Hsorted | constructor; simpl; lia].
      * split; [reflexivity | intros w; simpl; unfold RATE_LIMIT_MAX_REQUESTS; lia].
      * exact (Hwin from).
Qed.

Lemma rate_limiter_admits_60_per_window_witness :
  (length (sentInWindow 0
             (runCalls (repeat (5%Z, fun _ : Params => HttpNotOk, []) 61)
                       initialNetwork)) <= 60)%nat.
Proof.
  apply (rate_limiter_admits_60_per_window
           0%Z [] (fun _ => HttpNotOk) [] initialNetwork
           (repeat (5%Z, fun _ : Params => HttpNotOk, []) 61) 0%Z).
  simpl. repeat constructor; lia.
Defined.

(** C3, as the specification words it, fails when the clock goes back:
    60 requests stamped 0 are sent, the call at 300001 forgets them, and
    59 more requests stamped 1 are sent, so the window from 0 to 300000
    holds 119 requests. *)
Lemma backward_clock_counterexample :
  length (sentInWindow 0 (runCalls backwardClockCalls initialNetwork))
  = 119%nat
  /\ ~ admitsWithinLimit backwardClockCalls.
Proof.
  assert (H : length (sentInWindow 0
                        (runCalls backwardClockCalls initialNetwork))
              = 119%nat) by (vm_compute; reflexivity).
  split; [exact H|].
  intros Hlimit. specialize (Hlimit 0%Z). rewrite H in Hlimit.
  unfold RATE_LIMIT_MAX_REQUESTS in Hlimit. lia.
Qed.

Example limit_is_reached :
  length (sentInWindow 0
            (runCalls (repeat (5%Z, fun _ : Params => HttpNotOk, []) 61)
                      initialNetwork)) = 60%nat.
Proof. vm_compute. reflexivity. Qed.

(** ** The best search result *)

Example normalizeText_example :
  normalizeText asciiLower (Some (js "Hello, World!  (Live) &amp; [x]"))
  = js "hello,worldlive&x".
Proof. vm_compute. reflexivity. Qed.

Example collectArtistTokens_example :
  collectArtistTokens asciiLower
    (Some (ArtistText (js "Tielle, SawanoHiroyuki[nZk] feat. mizuki")))
  = [js "tielle"; js "sawanohiroyukinzk"; js "mizuki"].
Proof. vm_compute. reflexivity. Qed.

Example split_on_the_letter_x :
  split artistSeparatorLen (js "Alex with.X")
  = [js "Ale"; js " "; js "."; []].
Proof. vm_compute. reflexivity. Qed.

Section BestResult.

Variable toLowerCase : jsstring -> jsstring.
Variable target : Track.

Let targetName := normalizeText toLowerCase (Some (name (descriptor target))).
Let targetArtists := targetTokens toLowerCase target.
Let score := itemScore toLowerCase target targetName targetArtists.

Lemma source_text_not_empty (src : MusicSource) (s : jsstring) :
  jsstring_eqb s (source_text src) = true -> s <> [].
Proof. intros H ->. destruct src; discriminate H. Qed.

Lemma existsb_none {A} (l : list A) : existsb (fun _ => false) l = false.
Proof. induction l; simpl; auto. Qed.

(** The score the loop computes is the guarded score. *)
Lemma itemScore_is_guardedScore (item : SearchApiItem) :
  score item = guardedScore toLowerCase target item.
Proof.
  unfold score, itemScore, guardedScore.
  fold targetName. fold targetArtists.
  f_equal; [f_equal|].
  - destruct (isEmpty targetName); simpl; [reflexivity|].
    destruct (jsstring_eqb _ _); reflexivity.
  - unfold sharesToken.
    destruct targetArtists as [|a ta]; simpl.
    + rewrite existsb_none. reflexivity.
    + destruct (collectArtistTokens toLowerCase (item_artist item));
        reflexivity.
  - unfold sameSource. destruct (item_source item) as [[|c r]|]; try reflexivity.
    destruct (jsstring_eqb [] _) eqn:E; [|reflexivity].
    apply source_text_not_empty in E. congruence.
Qed.

Lemma considerItem_bestAmong (seen : list SearchApiItem) (item : SearchApiItem)
      (st : BestSoFar) :
  bestAmong score seen st ->
  bestAmong score (seen ++ [item]) (considerItem (score item) item (length seen) st).
Proof.
  unfold bestAmong, considerItem.
  destruct (bestScore st) as [b|] eqn:Hb.
  - intros (Hsc & Hnth & Hmax & Hfirst).
    assert (Hlt : (bestIndex st < length seen)%nat)
      by (apply nth_error_Some; congruence).
    assert (Hidx : (length seen <? bestIndex st)%nat = false)
      by (apply Nat.ltb_ge; lia).
    rewrite Hidx, andb_false_r, orb_false_r.
    destruct (Z.ltb_spec b (score item)) as [Hbetter|Hworse]; simpl.
    + repeat split.
      * rewrite nth_error_app2, Nat.sub_diag by lia. reflexivity.
      * intros j x Hj.
        destruct (Nat.lt_ge_cases j (length seen)) as [Hin|Hout].
        -- rewrite nth_error_app1 in Hj by exact Hin.
           specialize (Hmax j x Hj). lia.
        -- rewrite nth_error_app2 in Hj by exact Hout.
           destruct (j - length seen)%nat as [|k]; simpl in Hj.
           ++ inversion Hj; subst. lia.
           ++ destruct k; discriminate.
      * intros j x Hj Hx. rewrite nth_error_app1 in Hx by exact Hj.
        specialize (Hmax j x Hx). lia.
    + rewrite Hb. repeat split.
      * exact Hsc.
      * rewrite nth_error_app1 by exact Hlt. exact Hnth.
      * intros j x Hj.
        destruct (Nat.lt_ge_cases j (length seen)) as [Hin|Hout].
        -- rewrite nth_error_app1 in Hj by exact Hin. exact (Hmax j x Hj).
        -- rewrite nth_error_app2 in Hj by exact Hout.
           destruct (j - length seen)%nat as [|k]; simpl in Hj.
           ++ inversion Hj; subst. lia.
           ++ destruct k; discriminate.
      * intros j x Hj Hx. rewrite nth_error_app1 in Hx by lia.
        exact (Hfirst j x Hj Hx).
  - intros ->. simpl. repeat split.
    + intros [|[|j]] x Hj; simpl in Hj; try discriminate.
      inversion Hj; subst. lia.
    + intros j x Hj. lia.
Qed.

Lemma forEachResult_bestAmong (items : list SearchApiItem) :
  forall (seen : list SearchApiItem) (st : BestSoFar),
    bestAmong score seen st ->
    bestAmong score (seen ++ items)
              (forEachResult toLowerCase target targetName targetArtists
                             items (length seen) st).
Proof.
  induction items as [|item items IH]; intros seen st Hst; simpl.
  - rewrite app_nil_r. exact Hst.
  - specialize (IH (seen ++ [item]) _ (considerItem_bestAmong seen item st Hst)).
    rewrite length_app, Nat.add_1_r, <- app_assoc in IH. exact IH.
Qed.

Lemma selectBest_is_first_of_maximal (first : SearchApiItem)
      (rest : list SearchApiItem) :
  selectsBestBy toLowerCase (guardedScore toLowerCase) (first :: rest) target.
Proof.
  unfold selectsBestBy, selectBestSearchResult.
  eexists. split; [reflexivity|].
  pose proof (forEachResult_bestAmong (first :: rest) [] (mkBest first None 0)
                                      eq_refl) as H.
  cbn [app length] in H. fold targetName. fold targetArtists.
  unfold targetTokens in targetArtists. fold targetArtists.
  unfold bestAmong in H.
  destruct (bestScore _) as [b|]; [|discriminate H].
  destruct H as (Hsc & Hnth & Hmax & Hfirst).
  exists (bestIndex
            (forEachResult toLowerCase target targetName targetArtists
                           (first :: rest) 0 (mkBest first None 0))).
  split; [exact Hnth|].
  split.
  - intros j x Hx. rewrite <- !itemScore_is_guardedScore.
    rewrite <- Hsc. exact (Hmax j x Hx).
  - intros j x Hj Hx. rewrite <- !itemScore_is_guardedScore.
    rewrite <- Hsc. exact (Hfirst j x Hj Hx).
Qed.

End BestResult.

(** C1, as the code has it. For a null or empty list
    [selectBestSearchResult] returns null. For a non-empty list it returns
    an element of the list whose score is the greatest, the earliest one
    among those of greatest score, where the score is: +4 if the target's
    normalized name is not empty and the item's normalized name equals it,
    else +2 if the target's normalized name is not empty and the item's
    contains it; +4 if one of the item's normalized artist tokens is one of
    the target's; +1 if the item's source is the target's. *)
Theorem selectBestSearchResult_first_of_maximal_score :
  forall (toLowerCase : jsstring -> jsstring) (target : Track)
         (first : SearchApiItem) (rest : list SearchApiItem),
    selectBestSearchResult toLowerCase None target = None
    /\ selectBestSearchResult toLowerCase (Some []) target = None
    /\ selectsBestBy toLowerCase (guardedScore toLowerCase) (first :: rest) target.
Proof.
  intros toLowerCase target first rest.
  split; [reflexivity|]. split; [reflexivity|].
  apply selectBest_is_first_of_maximal.
Qed.

(** C1, as the specification words it, fails: the normalized name of the
    target is empty and equals that of the nameless item, which the
    worded score rates 4; the code rates it 0 and returns the other item,
    rated 1. *)
Lemma claimed_score_counterexample :
  selectBestSearchResult asciiLower (Some [namelessItem; sameSourceItem])
                         punctuationTarget
  = Some sameSourceItem
  /\ claimedScore asciiLower punctuationTarget namelessItem = 4%Z
  /\ claimedScore asciiLower punctuationTarget sameSourceItem = 1%Z
  /\ ~ selectsBestBy asciiLower (claimedScore asciiLower)
                    [namelessItem; sameSourceItem] punctuationTarget.
Proof.
  split; [vm_compute; reflexivity|].
  split; [vm_compute; reflexivity|].
  split; [vm_compute; reflexivity|].
  intros (r & Hsel & i & _ & Hmax & _).
  assert (Hc : selectBestSearchResult asciiLower
                 (Some [namelessItem; sameSourceItem]) punctuationTarget
               = Some sameSourceItem) by (vm_compute; reflexivity).
  rewrite Hc in Hsel. inversion Hsel; subst r.
  specialize (Hmax 0%nat namelessItem eq_refl).
  vm_compute in Hmax. apply Hmax. reflexivity.
Qed.

(** ** Lyric lines *)

Lemma LyricTime_eqb_eq (a b : LyricTime) : LyricTime_eqb a b = true <-> a = b.
Proof.
  destruct a, b; simpl; try (split; congruence).
  rewrite N.eqb_eq. split; congruence.
Qed.

Lemma LyricLine_eqb_eq (a b : LyricLine) : LyricLine_eqb a b = true <-> a = b.
Proof.
  unfold LyricLine_eqb. rewrite andb_true_iff, LyricTime_eqb_eq, jsstring_eqb_eq.
  destruct a, b; simpl. split; [intros [-> ->]; reflexivity|].
  intros H; inversion H; auto.
Qed.

Lemma timeLe_refl (x : LyricTime) : timeLe x x.
Proof. destruct x; simpl; [lia | exact I]. Qed.

Lemma timeLe_trans (x y z : LyricTime) : timeLe x y -> timeLe y z -> timeLe x z.
Proof. destruct x, y, z; simpl; try tauto; lia. Qed.

Lemma compareTime_not_Gt (a b : LyricLine) :
  compareTime a b <> Gt <-> notAfter a b.
Proof.
  unfold compareTime, notAfter. destruct (time a), (time b); simpl.
  - rewrite N.compare_le_iff. tauto.
  - split; [auto | discriminate].
  - split; [congruence | tauto].
  - split; [auto | discriminate].
Qed.

Lemma compareTime_Gt (a b : LyricLine) :
  compareTime a b = Gt -> notAfter b a.
Proof.
  unfold compareTime, notAfter. destruct (time a), (time b); simpl;
    try discriminate; try tauto.
  rewrite N.compare_gt_iff. lia.
Qed.

(** *** What a line pushes *)

Lemma flat_map_nothing {A B} (l : list A) :
  flat_map (fun _ : A => @nil B) l = [].
Proof. induction l; simpl; auto. Qed.

Lemma flat_map_one {A B} (f : A -> B) (l : list A) :
  flat_map (fun x => [f x]) l = map f l.
Proof. induction l as [|x l IH]; simpl; [|rewrite IH]; reflexivity. Qed.

Lemma pushLine_entriesOfLine (line : jsstring) :
  pushLine line = entriesOfLine line.
Proof.
  unfold pushLine, entriesOfLine, lineText.
  destruct (trim (removeTimeTags 0 line)) as [|c r];
    destruct (matchAll 0 line) as [|t ts]; try reflexivity.
  - apply (flat_map_nothing (t :: ts)).
Qed.

Lemma flat_map_pushLine (lines : list jsstring) :
  flat_map pushLine lines = flat_map entriesOfLine lines.
Proof.
  induction lines as [|l lines IH]; simpl;
    [|rewrite IH, pushLine_entriesOfLine]; reflexivity.
Qed.

Lemma entriesOfLine_text (line : jsstring) (e : LyricLine) :
  In e (entriesOfLine line) -> text e <> [].
Proof.
  unfold entriesOfLine. destruct (lineText line) as [|c r]; [intros []|].
  destruct (matchAll 0 line) as [|t ts].
  - intros [<-|[]]. discriminate.
  - intros H. apply in_map_iff in H. destruct H as (tag & <- & _). discriminate.
Qed.

(** *** The sort *)

Lemma insertLine_permutation (x : LyricLine) (l : list LyricLine) :
  Permutation (insertLine x l) (x :: l).
Proof.
  induction l as [|y l IH]; simpl; [apply Permutation_refl|].
  destruct (compareTime x y); try apply Permutation_refl.
  eapply perm_trans; [apply perm_skip, IH | apply perm_swap].
Qed.

Lemma sortLines_permutation (l : list LyricLine) : Permutation (sortLines l) l.
Proof.
  induction l as [|x l IH]; simpl; [constructor|].
  eapply perm_trans; [apply insertLine_permutation | apply perm_skip, IH].
Qed.

Lemma insertLine_sorted (x : LyricLine) (l : list LyricLine) :
  StronglySorted notAfter l -> StronglySorted notAfter (insertLine x l).
Proof.
  induction l as [|y l IH]; intros Hs; simpl.
  - constructor; constructor.
  - inversion Hs as [|? ? Hl Hy]; subst.
    destruct (compareTime x y) eqn:Hc.
    + assert (Hxy : notAfter x y) by (apply compareTime_not_Gt; congruence).
      constructor; [exact Hs|]. constructor; [exact Hxy|].
      eapply Forall_impl; [|exact Hy]. intros z Hz.
      exact (timeLe_trans _ _ _ Hxy Hz).
    + assert (Hxy : notAfter x y) by (apply compareTime_not_Gt; congruence).
      constructor; [exact Hs|]. constructor; [exact Hxy|].
      eapply Forall_impl; [|exact Hy]. intros z Hz.
      exact (timeLe_trans _ _ _ Hxy Hz).
    + constructor; [apply IH; exact Hl|].
      apply Forall_forall. intros z Hz.
      apply (Permutation_in _ (insertLine_permutation x l)) in Hz.
      destruct Hz as [<-|Hz].
      * apply compareTime_Gt; exact Hc.
      * rewrite Forall_forall in Hy. apply Hy; exact Hz.
Qed.

Lemma sortLines_sorted (l : list LyricLine) :
  StronglySorted notAfter (sortLines l).
Proof.
  induction l as [|x l IH]; simpl; [constructor | apply insertLine_sorted, IH].
Qed.

(** *** The reduction *)

Lemma reduce_from (l : list LyricLine) :
  forall (acc : list LyricLine) (prev : LyricLine),
    fold_left dedupStep l (acc ++ [prev]) = acc ++ prev :: keptAfter prev l.
Proof.
  induction l as [|x l IH]; intros acc prev; simpl; [reflexivity|].
  unfold dedupStep at 2.
  destruct (acc ++ [prev]) as [|h tl] eqn:E; [destruct acc; discriminate|].
  rewrite <- E, last_last.
  unfold LyricLine_eqb.
  destruct (LyricTime_eqb (time prev) (time x) && jsstring_eqb (text prev) (text x)).
  - apply IH.
  - rewrite (IH (acc ++ [prev]) x), <- app_assoc. reflexivity.
Qed.

Lemma withoutAdjacentRepeats_cons2 (x y : LyricLine) (l : list LyricLine) :
  withoutAdjacentRepeats (x :: y :: l)
  = if LyricLine_eqb x y then withoutAdjacentRepeats (y :: l)
    else x :: withoutAdjacentRepeats (y :: l).
Proof. reflexivity. Qed.

Lemma withoutAdjacentRepeats_keptAfter (l : list LyricLine) :
  forall x, withoutAdjacentRepeats (x :: l) = x :: keptAfter x l.
Proof.
  induction l as [|y l IH]; intros x; [reflexivity|].
  rewrite withoutAdjacentRepeats_cons2, IH. cbn [keptAfter].
  destruct (LyricLine_eqb x y) eqn:E; [|reflexivity].
  apply LyricLine_eqb_eq in E. subst y. reflexivity.
Qed.

Lemma reduce_is_withoutAdjacentRepeats (l : list LyricLine) :
  fold_left dedupStep l [] = withoutAdjacentRepeats l.
Proof.
  destruct l as [|x l]; [reflexivity|].
  change (fold_left dedupStep (x :: l) []) with (fold_left dedupStep l ([] ++ [x])).
  rewrite reduce_from, withoutAdjacentRepeats_keptAfter. reflexivity.
Qed.

Lemma keptAfter_In (l : list LyricLine) :
  forall prev e, In e (prev :: keptAfter prev l) <-> In e (prev :: l).
Proof.
  induction l as [|x l IH]; intros prev e; simpl; [tauto|].
  destruct (LyricLine_eqb prev x) eqn:E.
  - apply LyricLine_eqb_eq in E. subst x.
    specialize (IH prev e). simpl in IH. tauto.
  - specialize (IH x e). simpl in *. tauto.
Qed.

Lemma keptAfter_sorted (l : list LyricLine) :
  forall prev, StronglySorted notAfter (prev :: l) ->
               StronglySorted notAfter (prev :: keptAfter prev l).
Proof.
  induction l as [|x l IH]; intros prev Hs; simpl; [exact Hs|].
  inversion Hs as [|? ? Hl Hp]; subst.
  inversion Hl as [|? ? Hl' Hx]; subst.
  inversion Hp as [|? ? Hpx Hpl]; subst.
  destruct (LyricLine_eqb prev x) eqn:E.
  - apply IH. constructor; assumption.
  - constructor.
    + apply IH. exact Hl.
    + apply Forall_forall. intros z Hz.
      apply (keptAfter_In l x z) in Hz.
      rewrite Forall_forall in Hp. apply Hp. simpl in *. tauto.
Qed.

Lemma keptAfter_adjacent (l : list LyricLine) :
  forall prev i a b,
    nth_error (prev :: keptAfter prev l) i = Some a ->
    nth_error (prev :: keptAfter prev l) (S i) = Some b ->
    a <> b.
Proof.
  induction l as [|x l IH]; intros prev i a b Ha Hb.
  - destruct i; discriminate.
  - simpl in Ha, Hb. destruct (LyricLine_eqb prev x) eqn:E.
    + exact (IH prev i a b Ha Hb).
    + destruct i as [|i].
      * simpl in Ha, Hb. inversion Ha; inversion Hb; subst.
        intros ->. rewrite (proj2 (LyricLine_eqb_eq b b) eq_refl) in E.
        discriminate.
      * exact (IH x i a b Ha Hb).
Qed.

(** *** Time tags *)

Lemma takeDigits_length (n : nat) :
  forall s, (length (fst (takeDigits n s)) <= n)%nat.
Proof.
  induction n as [|n IH]; intros s; simpl; [destruct s; simpl; lia|].
  destruct s as [|c s]; simpl; [lia|].
  destruct (isDigit c); simpl; [|lia].
  specialize (IH s). destruct (takeDigits n s). simpl in *. lia.
Qed.

Lemma takeDigits_digits (n : nat) :
  forall s, Forall (fun c => isDigit c = true) (fst (takeDigits n s)).
Proof.
  induction n as [|n IH]; intros s; simpl; [destruct s; constructor|].
  destruct s as [|c s]; simpl; [constructor|].
  destruct (isDigit c) eqn:E; simpl; [|constructor].
  specialize (IH s). destruct (takeDigits n s). simpl in *.
  constructor; assumption.
Qed.

Lemma takeDigits_run (n : nat) (s : jsstring) (c : N) (d r : jsstring) :
  takeDigits n s = (c :: d, r) -> digitRun n (c :: d).
Proof.
  intros H. pose proof (takeDigits_length n s) as Hl.
  pose proof (takeDigits_digits n s) as Hd.
  rewrite H in Hl, Hd. simpl in *. split; [simpl; lia | exact Hd].
Qed.

(** A match has one or two digits of minutes, one or two of seconds and,
    when it has a fraction, one to three digits of it. *)
Lemma matchTimeTag_shape (s : jsstring) (t : TimeTag) :
  matchTimeTag s = Some t ->
  digitRun 2 (tag_minutes t)
  /\ digitRun 2 (tag_seconds t)
  /\ match tag_fraction t with
     | Some f => digitRun 3 f
     | None => True
     end.
Proof.
  unfold matchTimeTag.
  destruct s as [|c0 s1]; [discriminate|].
  destruct (negb (c0 =? 91)%N); [discriminate|].
  destruct (takeDigits 2 s1) as [m s2] eqn:Em.
  destruct m as [|m0 m]; [discriminate|].
  destruct s2 as [|c1 s3]; [discriminate|].
  destruct (negb (c1 =? 58)%N); [discriminate|].
  destruct (takeDigits 2 s3) as [sec s4] eqn:Es.
  destruct sec as [|sec0 sec]; [discriminate|].
  destruct s4 as [|c2 s5]; [discriminate|].
  apply takeDigits_run in Em. apply takeDigits_run in Es.
  destruct (c2 =? 93)%N.
  - intros H; inversion H; subst; simpl. auto.
  - destruct (c2 =? 46)%N; [|discriminate].
    destruct (takeDigits 3 s5) as [f s6] eqn:Ef.
    destruct f as [|f0 f]; [discriminate|].
    destruct s6 as [|c3 s7]; [discriminate|].
    destruct (c3 =? 93)%N; [|discriminate].
    apply takeDigits_run in Ef.
    intros H; inversion H; subst; simpl. auto.
Qed.

Lemma matchAll_matches (s : jsstring) :
  forall skip t, In t (matchAll skip s) -> exists s', matchTimeTag s' = Some t.
Proof.
  induction s as [|c s IH]; intros skip t; cbn [matchAll]; [intros []|].
  destruct skip as [|k]; [|apply IH].
  destruct (matchTimeTag (c :: s)) as [t'|] eqn:E; [|apply IH].
  intros [<-|H]; [exists (c :: s); exact E | exact (IH _ _ H)].
Qed.

Lemma parseInt_padEnd3 (f : jsstring) :
  (1 <= length f <= 3)%nat ->
  parseInt (padEnd3 f) = (parseInt f * 10 ^ N.of_nat (3 - length f))%N.
Proof.
  intros H.
  destruct f as [|a [|b [|c [|d f]]]]; simpl in H; try lia;
    unfold padEnd3, parseInt; simpl; lia.
Qed.

Lemma tagTime_formula (s : jsstring) (t : TimeTag) :
  matchTimeTag s = Some t ->
  tagTime t
  = Finite ((parseInt (tag_minutes t) * 60 + parseInt (tag_seconds t)) * 1000
            + millisOfFraction (tag_fraction t))%N.
Proof.
  intros H. apply matchTimeTag_shape in H. destruct H as (_ & _ & Hf).
  unfold tagTime, millisOfFraction.
  destruct (tag_fraction t) as [f|].
  - destruct Hf as [Hlen _]. rewrite (parseInt_padEnd3 f Hlen). reflexivity.
  - reflexivity.
Qed.

(** *** The expression accepts the tags it is written for *)

Lemma takeDigits_exact (n : nat) :
  forall (d r : jsstring),
    Forall (fun c => isDigit c = true) d ->
    (length d <= n)%nat ->
    (length d = n \/ match r with c :: _ => isDigit c = false | [] => True end) ->
    takeDigits n (d ++ r) = (d, r).
Proof.
  induction n as [|n IH]; intros d r Hd Hlen Hstop.
  - destruct d; [|simpl in Hlen; lia]. simpl. destruct r; reflexivity.
  - destruct d as [|c d]; simpl.
    + destruct r as [|c r]; [reflexivity|].
      destruct Hstop as [Hstop|Hstop]; [discriminate|]. rewrite Hstop. reflexivity.
    + inversion Hd as [|? ? Hc Hd']; subst. rewrite Hc.
      rewrite (IH d r Hd'); [reflexivity | simpl in Hlen; lia |].
      destruct Hstop as [Hstop|Hstop]; [left; simpl in Hstop; lia | right; exact Hstop].
Qed.

(** [[m:ss]] followed by anything is matched, with these groups. *)
Lemma matchTimeTag_accepts_plain (m sec rest : jsstring) :
  digitRun 2 m -> digitRun 2 sec ->
  matchTimeTag (91%N :: m ++ 58%N :: sec ++ 93%N :: rest)
  = Some (mkTimeTag m sec None (3 + length m + length sec)).
Proof.
  intros [Hm Hmd] [Hs Hsd]. unfold matchTimeTag. cbn [N.eqb negb Pos.eqb].
  rewrite (takeDigits_exact 2 m _ Hmd) by (try lia; right; reflexivity).
  destruct m as [|m0 m]; [simpl in Hm; lia|].
  cbn [N.eqb negb Pos.eqb].
  rewrite (takeDigits_exact 2 sec _ Hsd) by (try lia; right; reflexivity).
  destruct sec as [|s0 sec]; [simpl in Hs; lia|].
  reflexivity.
Qed.

(** [[m:ss.fff]] followed by anything is matched, with these groups. *)
Lemma matchTimeTag_accepts_fraction (m sec f rest : jsstring) :
  digitRun 2 m -> digitRun 2 sec -> digitRun 3 f ->
  matchTimeTag (91%N :: m ++ 58%N :: sec ++ 46%N :: f ++ 93%N :: rest)
  = Some (mkTimeTag m sec (Some f) (4 + length m + length sec + length f)).
Proof.
  intros [Hm Hmd] [Hs Hsd] [Hf Hfd]. unfold matchTimeTag.
  cbn [N.eqb negb Pos.eqb].
  rewrite (takeDigits_exact 2 m _ Hmd) by (try lia; right; reflexivity).
  destruct m as [|m0 m]; [simpl in Hm; lia|].
  cbn [N.eqb negb Pos.eqb].
  rewrite (takeDigits_exact 2 sec _ Hsd) by (try lia; right; reflexivity).
  destruct sec as [|s0 sec]; [simpl in Hs; lia|].
  cbn [N.eqb negb Pos.eqb].
  rewrite (takeDigits_exact 3 f _ Hfd) by (try lia; right; reflexivity).
  destruct f as [|f0 f]; [simpl in Hf; lia|].
  reflexivity.
Qed.

(** *** The matches are the tags written on the line *)

Ltac count_length :=
  repeat (progress (cbn [length]; rewrite ?length_app)); lia.

Ltac flatten_app :=
  repeat (progress (cbn [app]; rewrite <- ?app_assoc)); reflexivity.

Lemma takeDigits_app (n : nat) :
  forall s d r, takeDigits n s = (d, r) -> s = d ++ r.
Proof.
  induction n as [|n IH]; intros s d r H; cbn [takeDigits] in H.
  - destruct s; inversion H; reflexivity.
  - destruct s as [|c s]; [inversion H; reflexivity|].
    destruct (isDigit c); [|inversion H; reflexivity].
    destruct (takeDigits n s) as [d' r'] eqn:E. inversion H; subst.
    rewrite (IH s d' r E). reflexivity.
Qed.

(** What is matched is a well-formed tag, written at the start. *)
Lemma matchTimeTag_written (s : jsstring) (tag : TimeTag) :
  matchTimeTag s = Some tag ->
  wellFormedTag tag /\ exists rest, s = tagText tag ++ rest.
Proof.
  intros H. pose proof (matchTimeTag_shape s tag H) as (Hm & Hs & Hf).
  revert H. unfold matchTimeTag.
  destruct s as [|c0 s1]; [discriminate|].
  destruct (N.eqb_spec c0 91) as [->|]; [|discriminate]. cbn [negb].
  destruct (takeDigits 2 s1) as [m s2] eqn:Em.
  apply takeDigits_app in Em. subst s1.
  destruct m as [|m0 m]; [discriminate|].
  destruct s2 as [|c1 s3]; [discriminate|].
  destruct (N.eqb_spec c1 58) as [->|]; [|discriminate]. cbn [negb].
  destruct (takeDigits 2 s3) as [sec s4] eqn:Es.
  apply takeDigits_app in Es. subst s3.
  destruct sec as [|sec0 sec]; [discriminate|].
  destruct s4 as [|c2 s5]; [discriminate|].
  destruct (N.eqb_spec c2 93) as [->|].
  - intros H; inversion H; subst tag; clear H.
    split.
    + split; [exact Hm|]. split; [exact Hs|]. split; [exact I|].
      unfold tagText. cbn [tag_minutes tag_seconds tag_fraction tag_length].
      count_length.
    + exists s5. unfold tagText.
      cbn [tag_minutes tag_seconds tag_fraction].
      flatten_app.
  - destruct (N.eqb_spec c2 46) as [->|]; [|discriminate].
    destruct (takeDigits 3 s5) as [f s6] eqn:Ef.
    apply takeDigits_app in Ef. subst s5.
    destruct f as [|f0 f]; [discriminate|].
    destruct s6 as [|c3 s7]; [discriminate|].
    destruct (N.eqb_spec c3 93) as [->|]; [|discriminate].
    intros H; inversion H; subst tag; clear H.
    split.
    + split; [exact Hm|]. split; [exact Hs|]. split; [exact Hf|].
      unfold tagText. cbn [tag_minutes tag_seconds tag_fraction tag_length].
      count_length.
    + exists s7. unfold tagText.
      cbn [tag_minutes tag_seconds tag_fraction].
      flatten_app.
Qed.

(** A well-formed tag written at the start is matched, whatever follows. *)
Lemma matchTimeTag_recognises (tag : TimeTag) (rest : jsstring) :
  wellFormedTag tag -> matchTimeTag (tagText tag ++ rest) = Some tag.
Proof.
  destruct tag as [m sec fraction len].
  unfold wellFormedTag, tagText.
  cbn [tag_minutes tag_seconds tag_fraction tag_length].
  intros (Hm & Hs & Hf & Hlen). subst len.
  destruct fraction as [f|].
  - replace ((91%N :: m ++ 58%N :: sec ++ (46%N :: f) ++ [93%N]) ++ rest)
      with (91%N :: m ++ 58%N :: sec ++ 46%N :: f ++ 93%N :: rest)
      by flatten_app.
    rewrite (matchTimeTag_accepts_fraction m sec f rest Hm Hs Hf).
    f_equal. f_equal. count_length.
  - replace ((91%N :: m ++ 58%N :: sec ++ [] ++ [93%N]) ++ rest)
      with (91%N :: m ++ 58%N :: sec ++ 93%N :: rest)
      by flatten_app.
    rewrite (matchTimeTag_accepts_plain m sec rest Hm Hs).
    f_equal. f_equal. count_length.
Qed.

Lemma matchAll_after (p l : jsstring) :
  matchAll (length p) (p ++ l) = matchAll 0 l.
Proof. induction p as [|c p IH]; [reflexivity | exact IH]. Qed.

Lemma removeTimeTags_after (p l : jsstring) :
  removeTimeTags (length p) (p ++ l) = removeTimeTags 0 l.
Proof. induction p as [|c p IH]; [reflexivity | exact IH]. Qed.

Lemma tagText_cons (tag : TimeTag) :
  exists tail, tagText tag = 91%N :: tail.
Proof. unfold tagText. eexists. reflexivity. Qed.

(** The scan at a tag: the tag, and the scan of what follows it. *)
Lemma scan_at_tag (tag : TimeTag) (line : jsstring) :
  wellFormedTag tag ->
  matchAll 0 (tagText tag ++ line) = tag :: matchAll 0 line
  /\ removeTimeTags 0 (tagText tag ++ line) = removeTimeTags 0 line.
Proof.
  intros Hw. pose proof (matchTimeTag_recognises tag line Hw) as Hm.
  destruct Hw as (_ & _ & _ & Hlen).
  destruct (tagText_cons tag) as [tail Ht]. rewrite Ht in Hm, Hlen |- *.
  cbn [app matchAll removeTimeTags]. cbn [app] in Hm. rewrite Hm, Hlen.
  cbn [length]. rewrite Nat.sub_1_r. cbn [Nat.pred].
  rewrite matchAll_after, removeTimeTags_after. split; reflexivity.
Qed.

(** The scan where no tag is written: the code unit is kept. *)
Lemma scan_at_other (c : N) (line : jsstring) :
  ~ startsWithTag (c :: line) ->
  matchAll 0 (c :: line) = matchAll 0 line
  /\ removeTimeTags 0 (c :: line) = c :: removeTimeTags 0 line.
Proof.
  intros Hno. cbn [matchAll removeTimeTags].
  destruct (matchTimeTag (c :: line)) as [tag|] eqn:E; [|split; reflexivity].
  exfalso. apply Hno.
  destruct (matchTimeTag_written _ _ E) as (Hw & rest & Hr).
  exists tag, rest. split; assumption.
Qed.

(** The matches and the line without them are the tags written on the
    line and the text around them, and nothing else is. *)
Lemma tagsOn_scan (line : jsstring) :
  tagsOn line (matchAll 0 line) (removeTimeTags 0 line).
Proof.
  remember (length line) as n eqn:Hn. revert line Hn.
  induction n as [n IH] using lt_wf_ind. intros line Hn.
  destruct line as [|c line]; [constructor|].
  destruct (matchTimeTag (c :: line)) as [tag|] eqn:E.
  - destruct (matchTimeTag_written _ _ E) as (Hw & rest & Hr).
    rewrite Hr. destruct (scan_at_tag tag rest Hw) as [Ha Hb].
    rewrite Ha, Hb. apply tagsOn_tag; [exact Hw|].
    apply (IH (length rest)); [|reflexivity].
    subst n. rewrite Hr. destruct (tagText_cons tag) as [tail Ht].
    rewrite Ht. cbn [app length]. rewrite length_app. lia.
  - assert (Hno : ~ startsWithTag (c :: line)).
    { intros (tag & rest & Hw & Hr).
      rewrite Hr, (matchTimeTag_recognises tag rest Hw) in E. discriminate. }
    destruct (scan_at_other c line Hno) as [Ha Hb]. rewrite Ha, Hb.
    apply tagsOn_other; [exact Hno|].
    apply (IH (length line)); [subst n; cbn [length]; lia | reflexivity].
Qed.

Lemma tagsOn_unique (line : jsstring) (tags : list TimeTag) (stripped : jsstring) :
  tagsOn line tags stripped ->
  tags = matchAll 0 line /\ stripped = removeTimeTags 0 line.
Proof.
  induction 1 as [|tag line tags stripped Hw _ [IHt IHs]
                  |c line tags stripped Hno _ [IHt IHs]].
  - split; reflexivity.
  - destruct (scan_at_tag tag line Hw) as [Ha Hb]. rewrite Ha, Hb.
    subst. split; reflexivity.
  - destruct (scan_at_other c line Hno) as [Ha Hb]. rewrite Ha, Hb.
    subst. split; reflexivity.
Qed.

Lemma entriesOfLine_entriesFor (line : jsstring) :
  entriesOfLine line = entriesFor (matchAll 0 line) (removeTimeTags 0 line).
Proof.
  unfold entriesOfLine, entriesFor, lineText.
  destruct (trim (removeTimeTags 0 line)) as [|c r]; [reflexivity|].
  destruct (matchAll 0 line) as [|tag tags] eqn:E; [reflexivity|].
  apply map_ext_in. intros t Ht. rewrite <- E in Ht.
  destruct (matchAll_matches line 0 t Ht) as [s' Hs'].
  rewrite (tagTime_formula s' t Hs'). reflexivity.
Qed.

(** *** The lines are those of the lyric, and the text is trimmed *)

Lemma trimStart_head (s : jsstring) (c : N) (r : jsstring) :
  trimStart s = c :: r -> isWhiteSpace c = false.
Proof.
  induction s as [|x s IH]; simpl; [discriminate|].
  destruct (isWhiteSpace x) eqn:E; [exact IH|].
  intros H; inversion H; subst. exact E.
Qed.

Lemma trimStart_suffix (s : jsstring) : exists p, s = p ++ trimStart s.
Proof.
  induction s as [|x s [p Hp]]; simpl; [exists []; reflexivity|].
  destruct (isWhiteSpace x).
  - exists (x :: p). simpl. rewrite <- Hp. reflexivity.
  - exists []. reflexivity.
Qed.

Lemma trimStart_In (s : jsstring) (x : N) : In x (trimStart s) -> In x s.
Proof.
  destruct (trimStart_suffix s) as [p Hp]. intros H. rewrite Hp.
  apply in_or_app. right. exact H.
Qed.

Lemma trim_In (s : jsstring) (x : N) : In x (trim s) -> In x s.
Proof.
  unfold trim, trimEnd. intros H. apply in_rev in H.
  apply trimStart_In in H. apply in_rev in H. apply trimStart_In in H. exact H.
Qed.

(** A trimmed string that is not empty starts and ends with a code unit
    that is not white space. *)
Lemma trim_ends (s : jsstring) (c : N) (r : jsstring) :
  trim s = c :: r ->
  isWhiteSpace c = false /\ isWhiteSpace (last r c) = false.
Proof.
  unfold trim, trimEnd. intros H.
  destruct (trimStart (rev (trimStart s))) as [|c' u] eqn:Eu;
    [discriminate H|].
  pose proof (trimStart_head _ _ _ Eu) as Hc'.
  destruct (trimStart_suffix (rev (trimStart s))) as [p Hp].
  rewrite Eu in Hp.
  assert (Ht : trimStart s = (c :: r) ++ rev p).
  { rewrite <- H, <- rev_app_distr, <- Hp, rev_involutive. reflexivity. }
  split.
  - apply (trimStart_head s c (r ++ rev p)). exact Ht.
  - simpl in H.
    assert (Hlast : last (c :: r) c = c').
    { rewrite <- H. apply last_last. }
    destruct r as [|x r]; simpl in Hlast |- *.
    + subst c'. exact Hc'.
    + rewrite Hlast. exact Hc'.
Qed.

Lemma lineBreakLen_none (c : N) (s : jsstring) :
  c <> 10%N -> (c <> 13%N \/ match s with 10%N :: _ => False | _ => True end) ->
  lineBreakLen (c :: s) = 0%nat.
Proof.
  intros H10 H13. unfold lineBreakLen.
  destruct c as [|p]; [reflexivity|].
  do 4 (destruct p as [p|p|]; try reflexivity); try congruence.
  destruct s as [|c' s']; [reflexivity|].
  destruct H13 as [H13|H13]; [congruence|].
  destruct c' as [|p]; [reflexivity|].
  do 4 (destruct p as [p|p|]; try reflexivity); contradiction.
Qed.

Lemma splitBy_at (matchLen : jsstring -> nat) (cur : jsstring) (c : N)
      (s : jsstring) :
  splitBy matchLen 0 cur (c :: s)
  = match matchLen (c :: s) with
    | O => splitBy matchLen 0 (c :: cur) s
    | S k => rev cur :: splitBy matchLen k [] s
    end.
Proof. reflexivity. Qed.

Lemma splitBy_skip (matchLen : jsstring -> nat) (k : nat) (cur : jsstring)
      (c : N) (s : jsstring) :
  splitBy matchLen (S k) cur (c :: s) = splitBy matchLen k cur s.
Proof. reflexivity. Qed.

Lemma trimStart_white (s : jsstring) :
  exists before,
    s = before ++ trimStart s
    /\ Forall (fun c => isWhiteSpace c = true) before.
Proof.
  induction s as [|x s (p & Hp & Hw)]; cbn [trimStart].
  - exists []. split; [reflexivity | constructor].
  - destruct (isWhiteSpace x) eqn:E.
    + exists (x :: p). split; [cbn [app]; rewrite <- Hp; reflexivity|].
      constructor; assumption.
    + exists []. split; [reflexivity | constructor].
Qed.

Lemma trim_trimmedOf (s : jsstring) : trimmedOf s (trim s).
Proof.
  destruct (trimStart_white s) as (p & Hp & Hpw).
  destruct (trimStart_white (rev (trimStart s))) as (q & Hq & Hqw).
  exists p, (rev q). split; [|split; [exact Hpw|split]].
  - rewrite Hp at 1. f_equal. unfold trim, trimEnd.
    rewrite <- rev_app_distr, <- Hq, rev_involutive. reflexivity.
  - apply Forall_rev. exact Hqw.
  - destruct (trim s) as [|c r] eqn:E; [exact I|].
    exact (trim_ends s c r E).
Qed.

Lemma no_line_feed_app (a b : jsstring) :
  ~ In 10%N a -> ~ In 10%N b -> ~ In 10%N (a ++ b).
Proof.
  intros Ha Hb H. apply in_app_or in H. destruct H; [apply Ha | apply Hb];
    assumption.
Qed.

(** The lines [splitBy] gives from a position on, [cur] being the part of
    the current line already passed, which does not end with a carriage
    return when a line feed comes next. *)
Lemma brokenInto_splitBy (n : nat) :
  forall s cur,
    (length s <= n)%nat ->
    ~ In 10%N cur ->
    (forall cur' s', cur = 13%N :: cur' -> s <> 10%N :: s') ->
    brokenInto (rev cur ++ s) (splitBy lineBreakLen 0 cur s).
Proof.
  induction n as [|n IH]; intros s cur Hlen Hcur Hcr.
  - destruct s; [|cbn [length] in Hlen; lia].
    cbn [splitBy]. rewrite app_nil_r. apply brokenInto_last.
    rewrite <- in_rev. exact Hcur.
  - destruct s as [|c s].
    { cbn [splitBy]. rewrite app_nil_r. apply brokenInto_last.
      rewrite <- in_rev. exact Hcur. }
    cbn [length] in Hlen. rewrite splitBy_at.
    destruct (N.eq_dec c 10) as [->|Hc10].
    + cbn [lineBreakLen].
      apply brokenInto_LF.
      * rewrite <- in_rev. exact Hcur.
      * intros p Hp. apply (f_equal (@rev N)) in Hp.
        rewrite rev_involutive, rev_app_distr in Hp. cbn [rev app] in Hp.
        exact (Hcr (rev p) s Hp eq_refl).
      * apply (IH s []); [lia | intros H; exact H
                         | intros cur' s' H; discriminate H].
    + destruct (N.eq_dec c 13) as [->|Hc13].
      * destruct s as [|c' s'].
        -- cbn [lineBreakLen splitBy].
           replace (rev cur ++ [13%N]) with (rev (13%N :: cur)) by reflexivity.
           apply brokenInto_last. rewrite <- in_rev.
           intros [H|H]; [discriminate | exact (Hcur H)].
        -- cbn [length] in Hlen.
           destruct (N.eq_dec c' 10) as [->|Hc'].
           ++ cbn [lineBreakLen]. rewrite splitBy_skip.
              apply brokenInto_CRLF; [rewrite <- in_rev; exact Hcur|].
              apply (IH s' []); [lia | intros H; exact H
                                | intros cur' s0 H; discriminate H].
           ++ assert (Hnone : lineBreakLen (13%N :: c' :: s') = 0%nat).
              { apply lineBreakLen_none; [discriminate|]. right.
                destruct c' as [|p]; [exact I|].
                do 4 (destruct p as [p|p|]; try exact I). congruence. }
              rewrite Hnone.
              replace (rev cur ++ 13%N :: c' :: s')
                with (rev (13%N :: cur) ++ c' :: s')
                by (cbn [rev]; rewrite <- app_assoc; reflexivity).
              apply IH.
              ** cbn [length]. lia.
              ** intros [H|H]; [discriminate | exact (Hcur H)].
              ** intros cur' s0 _ H. inversion H. congruence.
      * assert (Hnone : lineBreakLen (c :: s) = 0%nat)
          by (apply lineBreakLen_none; [exact Hc10 | left; exact Hc13]).
        rewrite Hnone.
        replace (rev cur ++ c :: s) with (rev (c :: cur) ++ s)
          by (cbn [rev]; rewrite <- app_assoc; reflexivity).
        apply IH.
        -- lia.
        -- intros [H|H]; [congruence | exact (Hcur H)].
        -- intros cur' s' H. inversion H. congruence.
Qed.

Lemma brokenInto_split (lyric : jsstring) :
  brokenInto lyric (split lineBreakLen lyric).
Proof.
  apply (brokenInto_splitBy (length lyric) lyric []);
    [lia | intros H; exact H | intros cur' s' H; discriminate H].
Qed.

Example parseLyricLines_example :
  parseLyricLines
    (val (js "[00:01.5]hello" ++ [13%N; 10%N]
          ++ js "[00:00][01:02.123456] x" ++ [10%N]
          ++ js "plain" ++ [10%N]
          ++ js "[0:1.05] [00:01.50]hello" ++ [10%N]
          ++ js "[00:01.5]hello" ++ [10%N]
          ++ js "   " ++ [10%N]
          ++ js "[00:03]"))
  = [ mkLyricLine (Finite 0) (js "[01:02.123456] x");
      mkLyricLine (Finite 1050) (js "hello");
      mkLyricLine (Finite 1500) (js "hello");
      mkLyricLine PositiveInfinity (js "plain") ].
Proof. vm_compute. reflexivity. Qed.

(** *** The result *)

(** C2. [parseLyricLines] gives the empty list for undefined, null and
    the empty string. For a string it gives the entries its lines
    contribute (for a line whose text, the line without its time tags and
    trimmed, is not empty: one entry per time tag, or one entry at infinity
    when the line has no time tag; nothing for a line whose text is
    empty), put in non-decreasing order of time, with an entry that
    repeats the one before it removed. So the result is sorted by time,
    no entry equals the next one, the result has the same entries as the
    lines contribute, and no entry has an empty text. A time tag has one
    or two digits of minutes and of seconds and at most three of
    fraction, and its time, in milliseconds, is
    (minutes * 60 + seconds) * 1000 + the fraction padded to three
    digits. Every line can be read from the left into the time tags
    written on it, [[m:ss]] or [[m:ss.fff]], and the text around them, and
    however it is so read, what the line contributes is the entries for
    these tags and this text: every tag written on the line is taken, and
    nothing else is. The lines are the stretches of the lyric between its
    line breaks, and the trimmed text is the text without the white space
    at its two ends. *)
Theorem parseLyricLines_sorted_entries :
  forall lyric : jsstring,
    let out := parseLyricLines (val lyric) in
    let contributed := flat_map entriesOfLine (split lineBreakLen lyric) in
    parseLyricLines undefined = []
    /\ parseLyricLines null = []
    /\ parseLyricLines (val []) = []
    /\ (exists sorted,
          Permutation sorted contributed
          /\ StronglySorted notAfter sorted
          /\ out = withoutAdjacentRepeats sorted)
    /\ StronglySorted notAfter out
    /\ (forall i a b, nth_error out i = Some a -> nth_error out (S i) = Some b ->
                      a <> b)
    /\ (forall e, In e out <-> In e contributed)
    /\ (forall e, In e out -> text e <> [])
    /\ (forall line tag,
          In tag (matchAll 0 line) ->
          digitRun 2 (tag_minutes tag)
          /\ digitRun 2 (tag_seconds tag)
          /\ match tag_fraction tag with
             | Some f => digitRun 3 f
             | None => True
             end
          /\ tagTime tag
             = Finite ((parseInt (tag_minutes tag) * 60
                        + parseInt (tag_seconds tag)) * 1000
                       + millisOfFraction (tag_fraction tag))%N)
    /\ (forall line, exists tags stripped, tagsOn line tags stripped)
    /\ (forall line tags stripped,
          tagsOn line tags stripped ->
          entriesOfLine line = entriesFor tags stripped)
    /\ brokenInto lyric (split lineBreakLen lyric)
    /\ (forall s, trimmedOf s (trim s)).
Proof.
  intros lyric out contributed.
  assert (Hout : out = withoutAdjacentRepeats (sortLines contributed)).
  { subst out contributed. unfold parseLyricLines.
    destruct lyric as [|c r]; [reflexivity|].
    rewrite reduce_is_withoutAdjacentRepeats, flat_map_pushLine. reflexivity. }
  assert (Hin : forall e, In e out <-> In e contributed).
  { intros e. rewrite Hout.
    destruct (sortLines contributed) as [|x l] eqn:E.
    - simpl. split; [intros []|]. intros H.
      apply (Permutation_in _ (Permutation_sym (sortLines_permutation contributed)))
        in H.
      rewrite E in H. exact H.
    - rewrite withoutAdjacentRepeats_keptAfter, keptAfter_In, <- E.
      split; apply Permutation_in;
        [apply sortLines_permutation
        | apply Permutation_sym, sortLines_permutation]. }
  split; [reflexivity|]. split; [reflexivity|]. split; [reflexivity|].
  split.
  { exists (sortLines contributed).
    split; [apply sortLines_permutation|].
    split; [apply sortLines_sorted | exact Hout]. }
  split.
  { rewrite Hout. pose proof (sortLines_sorted contributed) as Hs.
    destruct (sortLines contributed) as [|x l]; [constructor|].
    rewrite withoutAdjacentRepeats_keptAfter. apply keptAfter_sorted, Hs. }
  split.
  { rewrite Hout. intros i a b.
    destruct (sortLines contributed) as [|x l]; [destruct i; discriminate|].
    rewrite withoutAdjacentRepeats_keptAfter. apply keptAfter_adjacent. }
  split; [exact Hin|].
  split.
  { intros e He. apply Hin in He. subst contributed.
    apply in_flat_map in He. destruct He as (line & _ & He).
    exact (entriesOfLine_text line e He). }
  split.
  { intros line tag Htag.
    apply matchAll_matches in Htag. destruct Htag as [s' Hs'].
    pose proof (matchTimeTag_shape s' tag Hs') as (Hm & Hsec & Hf).
    repeat split; try assumption; try apply Hm; try apply Hsec.
    exact (tagTime_formula s' tag Hs'). }
  split.
  { intros line. exists (matchAll 0 line), (removeTimeTags 0 line).
    apply tagsOn_scan. }
  split.
  { intros line tags stripped Hread.
    destruct (tagsOn_unique line tags stripped Hread) as [-> ->].
    apply entriesOfLine_entriesFor. }
  split; [apply brokenInto_split | exact trim_trimmedOf].
Qed.

(** ** Resolution *)

Lemma settle_bind {A B} (api : Params -> Outcome) (m : Prog A) (f : A -> Prog B) :
  settle api (bind m f)
  = match settle api m with
    | Ok a => settle api (f a)
    | Err e => Err e
    end.
Proof.
  induction m as [a|e|p k IH|t k IH]; simpl; auto.
Qed.

Lemma settle_tryCatch {A} (api : Params -> Outcome) (m : Prog A)
      (h : Error -> Prog A) :
  settle api (tryCatch m h)
  = match settle api m with
    | Ok a => Ok a
    | Err e => settle api (h e)
    end.
Proof.
  induction m as [a|e|p k IH|t k IH]; simpl; auto.
Qed.

Lemma settle_awaitApi (api : Params -> Outcome) (p : Params) :
  settle api (awaitApi p)
  = match api p with
    | Resolved v => Ok v
    | Rejected e => Err e
    end.
Proof. unfold awaitApi. simpl. destruct (api p); reflexivity. Qed.

(** A run on the component returns what [settle] says, for an [api] that
    tells how each call of that run settles. *)
Lemma exec_follows_api {A} (env : Env) (api : Params -> Outcome) (m : Prog A) :
  (forall k net p,
      fst (callMusicApi (clock env k) (remote env k) p net) = api p) ->
  forall n s, fst (fst (exec env m n s)) = settle api m.
Proof.
  intros Hapi. induction m as [a|e|p k IH|t k IH]; intros n s; simpl;
    try reflexivity.
  - specialize (Hapi n (network s) p).
    destruct (callMusicApi (clock env n) (remote env n) p (network s))
      as [o net]. simpl in Hapi. subst o. apply IH.
  - apply IH.
Qed.

Section ResolutionFacts.

Variable toLowerCase : jsstring -> jsstring.
Variable api : Params -> Outcome.

Lemma settle_fetchCover (src : MusicSource) (picId : option jsstring)
      (prev : nullable jsstring) :
  settle api (fetchCover src picId prev)
  = Ok (match coverObtained api src picId with
        | Some c => val c
        | None => prev
        end).
Proof.
  unfold fetchCover, coverObtained.
  destruct picId as [[|c r]|]; try reflexivity.
  rewrite settle_tryCatch, settle_bind, settle_awaitApi.
  destruct (api (picParams src (c :: r))) as [e|v]; [reflexivity|].
  destruct v as [| |[[u|]]| |]; simpl; try reflexivity.
  destruct (isEmpty (trim u)); reflexivity.
Qed.

Lemma truthyN_orNull (x : nullable jsstring) : truthyN (orNull x) = truthyN x.
Proof. destruct x; reflexivity. Qed.

Lemma settle_fetchLyric (track : Track) (lyricId : option jsstring) :
  settle api (fetchLyric (source (descriptor track)) lyricId
                         (orNull (lyric track)) (orNull (tLyric track)))
  = Ok (lyricsAfter api track lyricId).
Proof.
  unfold fetchLyric, lyricsAfter, lyricResponse, lyricObtained.
  rewrite truthyN_orNull.
  destruct lyricId as [[|c r]|];
    try (destruct (truthyN (lyric track)); reflexivity).
  destruct (truthyN (lyric track)); [reflexivity|].
  rewrite settle_tryCatch, settle_bind, settle_awaitApi.
  destruct (api (lyricParams (source (descriptor track)) (c :: r))) as [e|v];
    [reflexivity|].
  destruct v as [| | |[l tl]|]; simpl; try reflexivity.
  destruct l as [| |l], tl as [| |tl]; simpl; try reflexivity;
    repeat match goal with
           | |- context [isEmpty ?x] => destruct (isEmpty x)
           end; reflexivity.
Qed.

Lemma settle_identify (track : Track) :
  settle api (identify toLowerCase track) = identified toLowerCase api track.
Proof.
  unfold identify, identified, searchOf.
  destruct (trackId (descriptor track)) as [[|c r]|]; try reflexivity;
    (destruct (isEmpty (searchKeyword track)); [reflexivity|];
     rewrite settle_bind, settle_awaitApi; unfold searchItems;
     destruct (api _) as [e|v]; [reflexivity|];
     destruct v; try reflexivity;
     match goal with
     | |- context [selectBestSearchResult ?f ?l ?t] =>
         destruct (selectBestSearchResult f l t)
     end; reflexivity).
Qed.

(** What [ensureTrackResolved] settles as. *)
Lemma settle_ensureTrackResolved (track : Track) (desiredBitrate : Bitrate) :
  settle api (ensureTrackResolved toLowerCase track desiredBitrate)
  = if alreadyResolved track desiredBitrate then Ok track
    else
      match identified toLowerCase api track with
      | Err e => Err e
      | Ok ids =>
          match api (urlParams (source (descriptor track)) (i_trackId ids)
                               desiredBitrate) with
          | Rejected e => Err e
          | Resolved urlData =>
              match playableUrl urlData with
              | None => Err (js "未获取到播放链接")
              | Some u => Ok (resolvedWith api track desiredBitrate ids urlData u)
              end
          end
      end.
Proof.
  unfold ensureTrackResolved, alreadyResolved.
  destruct (truthy (url track) && _); [reflexivity|].
  rewrite settle_bind, settle_identify.
  destruct (identified toLowerCase api track) as [ids|e]; [|reflexivity].
  rewrite settle_bind, settle_awaitApi.
  destruct (api _) as [e|urlData]; [reflexivity|].
  destruct (playableUrl urlData) as [u|]; [|reflexivity].
  rewrite settle_bind, settle_fetchCover, settle_bind, settle_fetchLyric.
  reflexivity.
Qed.

End ResolutionFacts.

Section ResolutionCases.

Variable toLowerCase : jsstring -> jsstring.
Variable api : Params -> Outcome.

Lemma truthy_true (o : option jsstring) :
  truthy o = true <-> exists c r, o = Some (c :: r).
Proof.
  destruct o as [[|c r]|]; simpl; split; try discriminate;
    try (intros (c' & r' & H); discriminate).
  - eauto.
  - reflexivity.
Qed.

Lemma selectBest_none (items : list SearchApiItem) (track : Track) :
  selectBestSearchResult toLowerCase (Some items) track = None <-> items = [].
Proof. destruct items; simpl; split; congruence. Qed.

Lemma searched_Err (track : Track) :
  (exists e,
      (if isEmpty (searchKeyword track)
       then Err (js "未配置歌曲关键词")
       else
         match api (searchOf track) with
         | Rejected e => Err e
         | Resolved _ =>
             match selectBestSearchResult toLowerCase
                     (Some (searchItems (api (searchOf track)))) track with
             | None => Err (js "未找到对应歌曲")
             | Some best => Ok (adoptBest track best)
             end
         end) = Err e)
  <-> (searchKeyword track = []
       \/ (searchKeyword track <> []
           /\ (isRejected (api (searchOf track)) = true
               \/ searchItems (api (searchOf track)) = []))).
Proof.
  destruct (searchKeyword track) as [|k ks] eqn:Ek; cbn [isEmpty].
  - split; [intros _; left; reflexivity | intros _; eexists; reflexivity].
  - destruct (api (searchOf track)) as [e|v] eqn:Ea; cbn [isRejected].
    + split; [|intros _; eexists; reflexivity].
      intros _. right. split; [discriminate | left; reflexivity].
    + destruct (selectBestSearchResult toLowerCase
                  (Some (searchItems (Resolved v))) track) as [b|] eqn:Eb.
      * split; [intros [e H]; discriminate|].
        intros [H|[_ [H|H]]]; try discriminate.
        apply (selectBest_none _ track) in H. congruence.
      * split; [|intros _; eexists; reflexivity].
        intros _. right. split; [discriminate|]. right.
        apply (selectBest_none _ track). exact Eb.
Qed.

Lemma identified_Err (track : Track) :
  (exists e, identified toLowerCase api track = Err e)
  <-> truthy (trackId (descriptor track)) = false
      /\ (searchKeyword track = []
          \/ (searchKeyword track <> []
              /\ (isRejected (api (searchOf track)) = true
                  \/ searchItems (api (searchOf track)) = []))).
Proof.
  pose proof (searched_Err track) as Hs.
  unfold identified.
  destruct (trackId (descriptor track)) as [[|c r]|]; cbn [truthy].
  - rewrite Hs. tauto.
  - split; [intros [e H]; discriminate | intros [H _]; discriminate].
  - rewrite Hs. tauto.
Qed.

Lemma identified_Ok (track : Track) (ids : Identified) :
  identified toLowerCase api track = Ok ids ->
  trackIdUsed toLowerCase api track = Some (i_trackId ids).
Proof.
  unfold identified, trackIdUsed.
  destruct (trackId (descriptor track)) as [[|c r]|]; cbn [truthy];
    try (intros H; inversion H; reflexivity);
    (destruct (isEmpty (searchKeyword track)); [discriminate|];
     destruct (api (searchOf track)) as [e|v]; [discriminate|];
     cbn [isRejected];
     match goal with
     | |- context [selectBestSearchResult ?f ?l ?t] =>
         destruct (selectBestSearchResult f l t)
     end; [|discriminate];
     intros H; inversion H; reflexivity).
Qed.

Lemma trackIdUsed_Some (track : Track) (tid : jsstring) :
  trackIdUsed toLowerCase api track = Some tid ->
  exists ids, identified toLowerCase api track = Ok ids /\ i_trackId ids = tid.
Proof.
  unfold identified, trackIdUsed.
  destruct (trackId (descriptor track)) as [[|c r]|]; cbn [truthy];
    try (intros H; inversion H; eexists; split; reflexivity);
    (destruct (isEmpty (searchKeyword track)); [discriminate|];
     destruct (api (searchOf track)) as [e|v]; [discriminate|];
     cbn [isRejected];
     match goal with
     | |- context [selectBestSearchResult ?f ?l ?t] =>
         destruct (selectBestSearchResult f l t)
     end; [|discriminate];
     intros H; inversion H; eexists; split; reflexivity).
Qed.

(** A run that returns went through the identification and the url
    call. *)
Lemma returned_track (track : Track) (desiredBitrate : Bitrate) (r : Track) :
  alreadyResolved track desiredBitrate = false ->
  settle api (ensureTrackResolved toLowerCase track desiredBitrate) = Ok r ->
  exists ids urlData u,
    identified toLowerCase api track = Ok ids
    /\ api (urlParams (source (descriptor track)) (i_trackId ids) desiredBitrate)
       = Resolved urlData
    /\ playableUrl urlData = Some u
    /\ r = resolvedWith api track desiredBitrate ids urlData u.
Proof.
  intros Hnot. rewrite settle_ensureTrackResolved, Hnot.
  destruct (identified toLowerCase api track) as [ids|e]; [|discriminate].
  destruct (api _) as [e|urlData] eqn:Ea; [discriminate|].
  destruct (playableUrl urlData) as [u|] eqn:Eu; [|discriminate].
  intros H; inversion H. exists ids, urlData, u. auto.
Qed.

End ResolutionCases.

(** C5, as the code has it. When [ensureTrackResolved] returns for a
    track that is not already resolved, the returned track's url is the
    sanitized url the url endpoint gave for its track id (the
    descriptor's, or the best result's of the search by keyword); its
    cover is the image url the pic endpoint gave for its pic id when there
    is a pic id and the call settled with a url that is not blank, and
    otherwise the cover the track had (null in place of undefined); when
    the track had no lyric, its lyric and tLyric are the strings the lyric
    endpoint gave for its lyric id, each when there is a lyric id and the
    call settled with a string that is not blank, and otherwise what the
    track had (null in place of undefined); when the track had a lyric, no
    lyric is fetched. *)
Theorem ensureTrackResolved_returns :
  forall (toLowerCase : jsstring -> jsstring) (api : Params -> Outcome)
         (track : Track) (desiredBitrate : Bitrate) (r : Track),
    alreadyResolved track desiredBitrate = false ->
    settle api (ensureTrackResolved toLowerCase track desiredBitrate) = Ok r ->
    let src := source (descriptor track) in
    let resp := lyricResponse api src (lyricId (descriptor r)) in
    (exists tid u,
        trackIdUsed toLowerCase api track = Some tid
        /\ trackId (descriptor r) = Some tid
        /\ urlObtained api track desiredBitrate tid = Some u
        /\ url r = Some (sanitizeUrl u))
    /\ cover r = match coverObtained api src (picId (descriptor r)) with
                 | Some c => val c
                 | None => orNull (cover track)
                 end
    /\ lyric r = (if truthyN (lyric track) then orNull (lyric track)
                  else match lyricObtained lyric_lyric resp with
                       | Some l => val l
                       | None => orNull (lyric track)
                       end)
    /\ tLyric r = (if truthyN (lyric track) then orNull (tLyric track)
                   else match lyricObtained tlyric resp with
                        | Some l => val l
                        | None => orNull (tLyric track)
                        end).
Proof.
  intros toLowerCase api track desiredBitrate r Hnot Hrun src resp.
  destruct (returned_track toLowerCase api track desiredBitrate r Hnot Hrun)
    as (ids & urlData & u & Hids & Hurl & Hu & ->).
  subst resp src. unfold resolvedWith; cbn [descriptor url cover lyric tLyric
                                             trackId picId lyricId].
  split; [|split; [reflexivity|]].
  - exists (i_trackId ids), u.
    split; [apply identified_Ok; exact Hids|].
    split; [reflexivity|]. split; [|reflexivity].
    unfold urlObtained. rewrite Hurl. exact Hu.
  - unfold lyricsAfter. destruct (truthyN (lyric track)); split; reflexivity.
Qed.

(** C6, as the code has it. For a track that is not already resolved,
    [ensureTrackResolved] throws exactly when: the track has no track id
    (none, or an empty one) and its search keyword is empty; or it has no
    track id and the search is rejected or gives no item; or the url call
    for the track id used is rejected or its response has no url (none,
    or an empty one). A rejected cover call or lyric call does not make it
    throw: the track returned then has the cover, or the lyric and tLyric,
    it had before, null in place of undefined. *)
Theorem ensureTrackResolved_throws_exactly :
  forall (toLowerCase : jsstring -> jsstring) (api : Params -> Outcome)
         (track : Track) (desiredBitrate : Bitrate),
    alreadyResolved track desiredBitrate = false ->
    let d := descriptor track in
    let run := settle api (ensureTrackResolved toLowerCase track desiredBitrate) in
    ((exists e, run = Err e) <->
     (truthy (trackId d) = false /\ searchKeyword track = [])
     \/ (truthy (trackId d) = false /\ searchKeyword track <> []
         /\ (isRejected (api (searchOf track)) = true
             \/ searchItems (api (searchOf track)) = []))
     \/ (exists tid,
            trackIdUsed toLowerCase api track = Some tid
            /\ urlObtained api track desiredBitrate tid = None))
    /\ (forall r,
          run = Ok r ->
          (coverFetchFailed api (source d) (picId (descriptor r)) ->
           cover r = orNull (cover track))
          /\ (lyricFetchFailed api track (lyricId (descriptor r)) ->
              lyric r = orNull (lyric track)
              /\ tLyric r = orNull (tLyric track))).
Proof.
  intros toLowerCase api track desiredBitrate Hnot d run. split.
  - subst run. rewrite settle_ensureTrackResolved, Hnot.
    pose proof (identified_Err toLowerCase api track) as HErr.
    pose proof (identified_Ok toLowerCase api track) as HOk.
    split.
    + intros [e He]. revert He.
      destruct (identified toLowerCase api track) as [ids|e'] eqn:Ei; intros He.
      * right; right. exists (i_trackId ids).
        split; [apply HOk; reflexivity|].
        unfold urlObtained. subst d. revert He.
        destruct (api (urlParams (source (descriptor track)) (i_trackId ids)
                                 desiredBitrate))
          as [e''|urlData]; [reflexivity|].
        destruct (playableUrl urlData); [discriminate | reflexivity].
      * destruct (proj1 HErr (ex_intro _ e' eq_refl)) as [Ht [Hk|[Hk Hs]]];
          [left | right; left]; auto.
    + intros [[Ht Hk]|[(Ht & Hk & Hs)|(tid & Htid & Hurl)]].
      * destruct (proj2 HErr (conj Ht (or_introl Hk))) as [e ->].
        eexists; reflexivity.
      * destruct (proj2 HErr (conj Ht (or_intror (conj Hk Hs)))) as [e ->].
        eexists; reflexivity.
      * destruct (trackIdUsed_Some toLowerCase api track tid Htid)
          as (ids & -> & <-).
        unfold urlObtained in Hurl. subst d.
        destruct (api (urlParams (source (descriptor track)) (i_trackId ids)
                                 desiredBitrate))
          as [e|urlData]; [eexists; reflexivity|].
        rewrite Hurl. eexists; reflexivity.
  - intros r Hrun.
    destruct (returned_track toLowerCase api track desiredBitrate r Hnot Hrun)
      as (ids & urlData & u & Hids & Hurl & Hu & ->).
    unfold resolvedWith; cbn [descriptor cover lyric tLyric picId lyricId].
    split.
    + unfold coverFetchFailed, coverObtained. subst d.
      destruct (i_picId ids) as [[|c p]|]; try tauto.
      destruct (api (picParams (source (descriptor track)) (c :: p))) as [e|v];
        [reflexivity | discriminate].
    + unfold lyricFetchFailed, lyricsAfter, lyricResponse.
      intros [Hl Hrej]. rewrite Hl.
      destruct (i_lyricId ids) as [[|c p]|]; try tauto.
      destruct (api (lyricParams (source (descriptor track)) (c :: p))) as [e|v];
        [split; reflexivity | discriminate].
Qed.

(** ** Resolution on examples *)

Lemma resolvedExample_returned :
  settle answeringApi
         (ensureTrackResolved asciiLower (createTrack exampleDescriptor) B320)
  = Ok resolvedExample.
Proof. vm_compute. reflexivity. Qed.

Lemma ensureTrackResolved_returns_witness :
  cover resolvedExample
  = match coverObtained answeringApi netease (picId (descriptor resolvedExample)) with
    | Some c => val c
    | None => orNull (cover (createTrack exampleDescriptor))
    end.
Proof.
  exact (proj1 (proj2 (ensureTrackResolved_returns
                         asciiLower answeringApi (createTrack exampleDescriptor)
                         B320 resolvedExample eq_refl
                         resolvedExample_returned))).
Defined.

Example resolvedExample_fields :
  url resolvedExample = Some (js "http://m.example/1.mp3")
  /\ cover resolvedExample = val (js "http://img.example/1.jpg")
  /\ lyric resolvedExample = val (js "[00:01.50]la")
  /\ tLyric resolvedExample = null.
Proof. vm_compute. repeat split. Qed.

(** C5, as the specification words it, fails: when the pic call and the
    lyric call are rejected, the track is returned with a null cover and a
    null lyric. *)
Lemma resolvesFully_counterexample :
  (exists r,
      settle urlOnlyApi
             (ensureTrackResolved asciiLower (createTrack exampleDescriptor) B320)
      = Ok r
      /\ url r = Some (js "http://m.example/1.mp3?a=1&b=2")
      /\ cover r = null
      /\ lyric r = null)
  /\ ~ resolvesFully asciiLower urlOnlyApi exampleDescriptor B320.
Proof.
  split.
  - eexists. split; [vm_compute; reflexivity|]. vm_compute. repeat split.
  - unfold resolvesFully. intros H.
    remember (settle urlOnlyApi
                (ensureTrackResolved asciiLower (createTrack exampleDescriptor)
                                     B320)) as run eqn:E.
    vm_compute in E. subst run.
    destruct (H _ eq_refl) as (_ & (c & _ & Hc) & _).
    vm_compute in Hc. discriminate Hc.
Qed.

Lemma ensureTrackResolved_throws_exactly_witness :
  exists e,
    settle urlOnlyApi
           (ensureTrackResolved asciiLower (createTrack blankDescriptor) B320)
    = Err e.
Proof.
  apply (proj1 (ensureTrackResolved_throws_exactly
                  asciiLower urlOnlyApi (createTrack blankDescriptor) B320
                  eq_refl)).
  left. split; reflexivity.
Defined.

(** C6, as the specification words it, fails in its last part: a track
    whose cover is undefined is returned with a null cover when the pic
    call is rejected, not with the cover it had. *)
Lemma keepsCover_counterexample :
  cover (createTrack exampleDescriptor) = undefined
  /\ (exists r,
         settle urlOnlyApi
                (ensureTrackResolved asciiLower (createTrack exampleDescriptor)
                                     B320)
         = Ok r
         /\ coverFetchFailed urlOnlyApi netease (picId (descriptor r))
         /\ cover r = null)
  /\ ~ keepsCoverOnFailure asciiLower urlOnlyApi (createTrack exampleDescriptor)
                           B320.
Proof.
  split; [reflexivity|]. split.
  - eexists. split; [vm_compute; reflexivity|]. vm_compute. split; reflexivity.
  - unfold keepsCoverOnFailure. intros H.
    remember (settle urlOnlyApi
                (ensureTrackResolved asciiLower (createTrack exampleDescriptor)
                                     B320)) as run eqn:E.
    vm_compute in E. subst run.
    specialize (H _ eq_refl).
    assert (Hc : null = @undefined jsstring); [|discriminate Hc].
    apply H. vm_compute. reflexivity.
Qed.

(* ================================================================== *)
(** * More properties of the code *)

(** ** sanitizeUrl *)

Lemma replaceAmp_length (s : jsstring) :
  forall skip, (length (replaceAmp skip s) <= length s)%nat.
Proof.
  induction s as [|c s IH]; intros skip; [simpl; lia|].
  cbn [replaceAmp].
  destruct skip as [|k]; [|specialize (IH k); cbn [length]; lia].
  destruct (startsWith amp_entity (c :: s)); cbn [length].
  - specialize (IH 4%nat). lia.
  - specialize (IH 0%nat). lia.
Qed.

Lemma replaceAmp_without_entity (s : jsstring) :
  includes s amp_entity = false -> replaceAmp 0 s = s.
Proof.
  induction s as [|c s IH]; intros H; [reflexivity|].
  cbn [includes] in H. apply orb_false_iff in H. destruct H as [Hhead Htail].
  cbn [replaceAmp]. rewrite Hhead, (IH Htail). reflexivity.
Qed.

Lemma replaceAmp_at_entity (a b : jsstring) :
  ~ In 38%N a ->
  replaceAmp 0 (a ++ amp_entity ++ b) = a ++ 38%N :: replaceAmp 0 b.
Proof.
  induction a as [|c a IH]; intros Hno.
  - reflexivity.
  - assert (Hc : (38 =? c)%N = false)
      by (apply N.eqb_neq; intros Heq; apply Hno; left; symmetry; exact Heq).
    change ((c :: a) ++ amp_entity ++ b) with (c :: (a ++ amp_entity ++ b)).
    cbn [replaceAmp].
    assert (Hs : startsWith amp_entity (c :: a ++ amp_entity ++ b) = false)
      by (change amp_entity with (38%N :: js "amp;"); cbn [startsWith];
          rewrite Hc; reflexivity).
    rewrite Hs, IH by (intros Hin; apply Hno; right; exact Hin).
    reflexivity.
Qed.

(** X1. [sanitizeUrl] turns the first [&amp;] after a stretch without
    ampersand into one ampersand and goes on after it; it leaves a url
    without [&amp;] as it is, never makes a url longer, and never makes a
    url that is not empty into the empty string. *)
Theorem sanitizeUrl_replaces_entities :
  forall (a b : jsstring),
    (~ In 38%N a ->
     sanitizeUrl (a ++ js "&amp;" ++ b) = a ++ js "&" ++ sanitizeUrl b)
    /\ (includes a (js "&amp;") = false -> sanitizeUrl a = a)
    /\ (length (sanitizeUrl a) <= length a)%nat
    /\ (a <> [] -> sanitizeUrl a <> []).
Proof.
  intros a b. unfold sanitizeUrl. repeat split.
  - apply replaceAmp_at_entity.
  - apply replaceAmp_without_entity.
  - apply replaceAmp_length.
  - destruct a as [|c a]; [congruence|]. intros _. cbn [replaceAmp].
    destruct (startsWith amp_entity (c :: a)); discriminate.
Qed.

Lemma sanitizeUrl_replaces_entities_witness :
  sanitizeUrl (js "http://h/p?a=1" ++ js "&amp;" ++ js "b=2&amp;c=3")
  = js "http://h/p?a=1" ++ js "&" ++ sanitizeUrl (js "b=2&amp;c=3").
Proof.
  apply (proj1 (sanitizeUrl_replaces_entities (js "http://h/p?a=1")
                                              (js "b=2&amp;c=3"))).
  vm_compute. intuition discriminate.
Defined.

(** ** Artist tokens *)

(** X2. Every token [collectArtistTokens] returns is a non-empty string
    with no white space and none of the punctuation [normalizeText]
    removes, whatever the artist field holds and whatever the
    lower-casing does. *)
Theorem collectArtistTokens_tokens_are_clean :
  forall (toLowerCase : jsstring -> jsstring) (artist : option ArtistField)
         (token : jsstring),
    In token (collectArtistTokens toLowerCase artist) ->
    token <> []
    /\ Forall (fun c => isNormalizeStripped c = false) token.
Proof.
  intros toLowerCase artist token Hin.
  assert (H : In token
                (filter (fun token => negb (isEmpty token))
                   (map (fun token => normalizeText toLowerCase (Some token))
                      (flat_map (fun item => split artistSeparatorLen item)
                         match artist with
                         | Some (ArtistList l) => l
                         | Some (ArtistText s) => [s]
                         | None => []
                         end)))).
  { unfold collectArtistTokens in Hin.
    destruct artist as [[l|[|c r]]|]; try exact Hin; destruct Hin. }
  apply filter_In in H. destruct H as [H Hne].
  split.
  - destruct token; [discriminate | discriminate].
  - apply in_map_iff in H. destruct H as (raw & <- & _).
    unfold normalizeText. destruct raw as [|c r]; [constructor|].
    apply Forall_forall. intros u Hu. apply filter_In in Hu.
    destruct Hu as [_ Hu]. apply negb_true_iff in Hu. exact Hu.
Qed.

Lemma collectArtistTokens_tokens_are_clean_witness :
  js "sawanohiroyukinzk" <> []
  /\ Forall (fun c => isNormalizeStripped c = false) (js "sawanohiroyukinzk").
Proof.
  apply (collectArtistTokens_tokens_are_clean
           asciiLower
           (Some (ArtistText (js "Tielle, SawanoHiroyuki[nZk]")))).
  vm_compute. right. left. reflexivity.
Defined.

(** ** The lines of a lyric *)

Lemma splitBy_not_nil (matchLen : jsstring -> nat) (s : jsstring) :
  forall skip cur, splitBy matchLen skip cur s <> [].
Proof.
  induction s as [|c s IH]; intros skip cur; cbn [splitBy]; [discriminate|].
  destruct skip; [|apply IH].
  destruct (matchLen (c :: s)); [apply IH | discriminate].
Qed.

Lemma flat_map_joinLines (lines : list jsstring) :
  lines <> [] ->
  flat_map (fun line => 10%N :: line) lines = 10%N :: joinLines lines.
Proof. destruct lines as [|l ls]; [congruence | reflexivity]. Qed.

(** What [split] gives from a position on, [cur] being the part of the
    current line already passed. *)
Lemma lines_from (s : jsstring) :
  forall cur,
    ~ In 10%N cur ->
    Forall (fun line => ~ In 10%N line) (splitBy lineBreakLen 0 cur s)
    /\ length (splitBy lineBreakLen 0 cur s) = S (count_occ N.eq_dec s 10%N)
    /\ (~ In 13%N s -> joinLines (splitBy lineBreakLen 0 cur s) = rev cur ++ s).
Proof.
  induction s as [|c s IH]; intros cur Hcur.
  - cbn [splitBy count_occ length joinLines flat_map].
    split; [|split].
    + constructor; [|constructor]. rewrite <- in_rev. exact Hcur.
    + reflexivity.
    + intros _. reflexivity.
  - rewrite splitBy_at.
    destruct (N.eq_dec c 10) as [->|Hc10].
    + (* a line feed ends the line *)
      destruct (IH [] (fun H => H)) as (Hall & Hlen & Hjoin).
      cbn [lineBreakLen]. split; [|split].
      * constructor; [rewrite <- in_rev; exact Hcur | exact Hall].
      * cbn [length count_occ]. destruct (N.eq_dec 10 10); [|congruence].
        rewrite Hlen. reflexivity.
      * intros H13. cbn [joinLines].
        rewrite flat_map_joinLines by apply splitBy_not_nil.
        rewrite Hjoin by (intros H; apply H13; right; exact H).
        reflexivity.
    + destruct (N.eq_dec c 13) as [->|Hc13].
      * (* a carriage return: with a line feed after it, both end the line *)
        destruct s as [|c' s'].
        -- cbn [splitBy lineBreakLen count_occ length].
           destruct (N.eq_dec 13 10); [discriminate|].
           split; [|split].
           ++ constructor; [|constructor]. rewrite <- in_rev.
              intros [H|H]; [discriminate | exact (Hcur H)].
           ++ reflexivity.
           ++ intros H13. exfalso. apply H13. left. reflexivity.
        -- destruct (N.eq_dec c' 10) as [->|Hc'].
           ++ destruct (IH [] (fun H => H)) as (Hall & Hlen & _).
              rewrite splitBy_at in Hall, Hlen.
              cbn [lineBreakLen] in Hall, Hlen.
              cbn [lineBreakLen]. rewrite splitBy_skip. split; [|split].
              ** inversion Hall; subst.
                 constructor; [rewrite <- in_rev; exact Hcur | assumption].
              ** cbn [length count_occ] in Hlen |- *.
                 destruct (N.eq_dec 13 10); [discriminate|].
                 exact Hlen.
              ** intros H13. exfalso. apply H13. left. reflexivity.
           ++ assert (Hnone : lineBreakLen (13%N :: c' :: s') = 0%nat).
              { apply lineBreakLen_none; [discriminate|]. right.
                destruct c' as [|p]; [exact I|].
                do 4 (destruct p as [p|p|]; try exact I). congruence. }
              destruct (IH (13%N :: cur)) as (Hall & Hlen & _).
              { intros [H|H]; [discriminate | exact (Hcur H)]. }
              rewrite Hnone. split; [|split].
              ** exact Hall.
              ** rewrite Hlen. cbn [count_occ].
                 destruct (N.eq_dec 13 10); [discriminate | reflexivity].
              ** intros H13. exfalso. apply H13. left. reflexivity.
      * assert (Hnone : lineBreakLen (c :: s) = 0%nat)
          by (apply lineBreakLen_none; [exact Hc10 | left; exact Hc13]).
        destruct (IH (c :: cur)) as (Hall & Hlen & Hjoin).
        { intros [H|H]; [congruence | exact (Hcur H)]. }
        rewrite Hnone. split; [|split].
        -- exact Hall.
        -- rewrite Hlen. cbn [count_occ].
           destruct (N.eq_dec c 10); [congruence | reflexivity].
        -- intros H13. rewrite Hjoin by (intros H; apply H13; right; exact H).
           cbn [rev]. rewrite <- app_assoc. reflexivity.
Qed.

(** X3. The lines [parseLyricLines] works on: no line holds a line feed,
    there is one line more than there are line feeds in the lyric (so at
    least one), and for a lyric without carriage return the lines with a
    line feed between them are the lyric. *)
Theorem lyric_lines_partition_the_lyric :
  forall lyric : jsstring,
    let lines := split lineBreakLen lyric in
    Forall (fun line => ~ In 10%N line) lines
    /\ length lines = S (count_occ N.eq_dec lyric 10%N)
    /\ (~ In 13%N lyric -> joinLines lines = lyric).
Proof.
  intros lyric. exact (lines_from lyric [] (fun H => H)).
Qed.

Lemma lyric_lines_partition_the_lyric_witness :
  joinLines (split lineBreakLen (js "[00:01]a" ++ [10%N] ++ js "[00:02]b"))
  = js "[00:01]a" ++ [10%N] ++ js "[00:02]b".
Proof.
  apply (lyric_lines_partition_the_lyric
           (js "[00:01]a" ++ [10%N] ++ js "[00:02]b")).
  vm_compute. intuition discriminate.
Defined.

(** ** The entries of a lyric *)

Lemma parseLyricLines_entries (lyric : jsstring) (e : LyricLine) :
  In e (parseLyricLines (val lyric))
  <-> In e (flat_map entriesOfLine (split lineBreakLen lyric)).
Proof.
  assert (Hout : parseLyricLines (val lyric)
                 = withoutAdjacentRepeats
                     (sortLines (flat_map entriesOfLine (split lineBreakLen lyric)))).
  { unfold parseLyricLines. destruct lyric as [|c r]; [reflexivity|].
    rewrite reduce_is_withoutAdjacentRepeats, flat_map_pushLine. reflexivity. }
  rewrite Hout.
  set (contributed := flat_map entriesOfLine (split lineBreakLen lyric)).
  destruct (sortLines contributed) as [|x l] eqn:E.
  - simpl. split; [intros []|]. intros H.
    apply (Permutation_in _ (Permutation_sym (sortLines_permutation contributed)))
      in H.
    rewrite E in H. exact H.
  - rewrite withoutAdjacentRepeats_keptAfter, keptAfter_In, <- E.
    split; apply Permutation_in;
      [apply sortLines_permutation
      | apply Permutation_sym, sortLines_permutation].
Qed.

(** An entry comes from a line: its text is the text of the line, and its
    time is infinite or the time of a tag of the line. *)
Lemma entry_origin (lyric : jsstring) (e : LyricLine) :
  In e (parseLyricLines (val lyric)) ->
  exists line,
    In line (split lineBreakLen lyric)
    /\ text e = lineText line
    /\ text e <> []
    /\ (time e = PositiveInfinity
        \/ exists tag s', matchTimeTag s' = Some tag /\ time e = tagTime tag).
Proof.
  intros H. apply parseLyricLines_entries in H. apply in_flat_map in H.
  destruct H as (line & Hline & He). exists line. split; [exact Hline|].
  unfold entriesOfLine in He.
  destruct (lineText line) as [|c r] eqn:Et; [destruct He|].
  destruct (matchAll 0 line) as [|t ts] eqn:Em.
  - destruct He as [<-|[]]. simpl. repeat split; [discriminate | left; reflexivity].
  - apply in_map_iff in He. destruct He as (tag & <- & Htag). simpl.
    repeat split; [discriminate|]. right.
    rewrite <- Em in Htag. apply matchAll_matches in Htag.
    destruct Htag as [s' Hs']. exists tag, s'. split; [exact Hs' | reflexivity].
Qed.

Lemma isDigit_bounds (c : N) : isDigit c = true -> (48 <= c <= 57)%N.
Proof.
  unfold isDigit. intros H. apply andb_true_iff in H.
  destruct H as [H1 H2]. apply N.leb_le in H1, H2. lia.
Qed.

Lemma parseInt_two_digits (d : jsstring) : digitRun 2 d -> (parseInt d <= 99)%N.
Proof.
  intros [Hlen Hd].
  destruct d as [|a [|b [|c d]]]; simpl in Hlen; try lia.
  - inversion Hd as [|? ? Ha _]; subst. apply isDigit_bounds in Ha.
    unfold parseInt; simpl. lia.
  - inversion Hd as [|? ? Ha Hd']; subst. inversion Hd' as [|? ? Hb _]; subst.
    apply isDigit_bounds in Ha, Hb. unfold parseInt; simpl. lia.
Qed.

Lemma millisOfFraction_bound (fraction : option jsstring) :
  match fraction with Some f => digitRun 3 f | None => True end ->
  (millisOfFraction fraction <= 999)%N.
Proof.
  destruct fraction as [f|]; [|intros _; simpl; lia].
  intros [Hlen Hd]. unfold millisOfFraction.
  destruct f as [|a [|b [|c [|d f]]]]; simpl in Hlen; try lia.
  - inversion Hd as [|? ? Ha _]; subst. apply isDigit_bounds in Ha.
    unfold parseInt; simpl. lia.
  - inversion Hd as [|? ? Ha Hd']; subst. inversion Hd' as [|? ? Hb _]; subst.
    apply isDigit_bounds in Ha, Hb. unfold parseInt; simpl. lia.
  - inversion Hd as [|? ? Ha Hd']; subst. inversion Hd' as [|? ? Hb Hd'']; subst.
    inversion Hd'' as [|? ? Hc _]; subst.
    apply isDigit_bounds in Ha, Hb, Hc. unfold parseInt; simpl. lia.
Qed.

(** X4. A time tag gives at most 99 minutes, 99 seconds and 999
    milliseconds: every entry of [parseLyricLines] with a finite time has
    a time of at most 6039999 milliseconds (6039.999 s). *)
Theorem lyric_times_are_bounded :
  forall (lyric : jsstring) (e : LyricLine),
    In e (parseLyricLines (val lyric)) ->
    match time e with
    | Finite ms => (ms <= 6039999)%N
    | PositiveInfinity => True
    end.
Proof.
  intros lyric e He.
  destruct (entry_origin lyric e He) as (line & _ & _ & _ & [Hinf|Htag]).
  - rewrite Hinf. exact I.
  - destruct Htag as (tag & s' & Hs' & ->).
    rewrite (tagTime_formula s' tag Hs').
    destruct (matchTimeTag_shape s' tag Hs') as (Hm & Hs & Hf).
    pose proof (parseInt_two_digits _ Hm).
    pose proof (parseInt_two_digits _ Hs).
    pose proof (millisOfFraction_bound _ Hf).
    lia.
Qed.

Lemma lyric_times_are_bounded_witness :
  match time (mkLyricLine (Finite 5999990) (js "la")) with
  | Finite ms => (ms <= 6039999)%N
  | PositiveInfinity => True
  end.
Proof.
  apply (lyric_times_are_bounded (js "[99:59.99]la")).
  vm_compute. left. reflexivity.
Defined.

(** *** The text of an entry *)

Lemma removeTimeTags_In (s : jsstring) (x : N) :
  forall skip, In x (removeTimeTags skip s) -> In x s.
Proof.
  induction s as [|c s IH]; intros skip; cbn [removeTimeTags]; [intros []|].
  destruct skip as [|k]; [|intros H; right; exact (IH _ H)].
  destruct (matchTimeTag (c :: s)); [intros H; right; exact (IH _ H)|].
  intros [H|H]; [left; exact H | right; exact (IH _ H)].
Qed.

(** X5. The text of every entry of [parseLyricLines] is trimmed and on one
    line: it is not empty, its first and its last code unit are not white
    space, and it holds no line feed. *)
Theorem lyric_texts_are_trimmed :
  forall (lyric : jsstring) (e : LyricLine),
    In e (parseLyricLines (val lyric)) ->
    exists c r,
      text e = c :: r
      /\ isWhiteSpace c = false
      /\ isWhiteSpace (last r c) = false
      /\ ~ In 10%N (text e).
Proof.
  intros lyric e He.
  destruct (entry_origin lyric e He) as (line & Hline & Htext & Hne & _).
  destruct (text e) as [|c r] eqn:Et; [congruence|].
  exists c, r. split; [reflexivity|].
  unfold lineText in Htext. symmetry in Htext.
  destruct (trim_ends _ _ _ Htext) as [Hc Hl].
  split; [exact Hc|]. split; [exact Hl|].
  intros H10. rewrite <- Htext in H10.
  apply trim_In, removeTimeTags_In in H10.
  destruct (lines_from lyric [] (fun H => H)) as [Hall _].
  rewrite Forall_forall in Hall. exact (Hall line Hline H10).
Qed.

Lemma lyric_texts_are_trimmed_witness :
  exists c r,
    text (mkLyricLine (Finite 1500) (js "la la")) = c :: r
    /\ isWhiteSpace c = false
    /\ isWhiteSpace (last r c) = false
    /\ ~ In 10%N (text (mkLyricLine (Finite 1500) (js "la la"))).
Proof.
  apply (lyric_texts_are_trimmed (js "[00:01.5]  la la  ")).
  vm_compute. left. reflexivity.
Defined.

(** ** The rate limiter, whatever the clock does *)

Lemma registerRequest_length (now : Z) (timestamps : list Z) :
  (length timestamps <= RATE_LIMIT_MAX_REQUESTS)%nat ->
  (length (fst (registerRequest now timestamps)) <= RATE_LIMIT_MAX_REQUESTS)%nat.
Proof.
  intros H. unfold registerRequest.
  pose proof (filter_length_le
                (fun timestamp => (now - RATE_LIMIT_WINDOW_MS <=? timestamp)%Z)
                (fun _ => true) timestamps (fun _ _ => eq_refl)) as Hk.
  rewrite (forallb_filter_id (fun _ : Z => true) timestamps) in Hk
    by (apply forallb_forall; reflexivity).
  destruct (RATE_LIMIT_MAX_REQUESTS <=? length _)%nat eqn:E; simpl.
  - lia.
  - apply Nat.leb_gt in E. rewrite length_app. simpl. lia.
Qed.

Lemma callMusicApi_timestamps (now : Z) (response : Params -> FetchResult)
      (params : Params) (net : Network) :
  requestTimestampsRef (snd (callMusicApi now response params net))
  = fst (registerRequest now (requestTimestampsRef net)).
Proof.
  unfold callMusicApi.
  destruct (registerRequest now (requestTimestampsRef net)) as [k [e|]];
    [reflexivity|].
  destruct (response params); reflexivity.
Qed.

Lemma runCalls_length (calls : list (Z * (Params -> FetchResult) * Params)) :
  forall net,
    (length (requestTimestampsRef net) <= RATE_LIMIT_MAX_REQUESTS)%nat ->
    (length (requestTimestampsRef (runCalls calls net))
     <= RATE_LIMIT_MAX_REQUESTS)%nat.
Proof.
  induction calls as [|[[now response] params] calls IH]; intros net H;
    [exact H|].
  apply IH. rewrite callMusicApi_timestamps. apply registerRequest_length, H.
Qed.

(** X6. The list of the rate limiter never holds more than 60 timestamps,
    after any calls of [callMusicApi] from the mount on and whatever the
    clock reads at each of them. *)
Theorem recorded_timestamps_stay_within_limit :
  forall calls : list (Z * (Params -> FetchResult) * Params),
    (length (requestTimestampsRef (runCalls calls initialNetwork)) <= 60)%nat.
Proof.
  intros calls. apply (runCalls_length calls initialNetwork).
  simpl. unfold RATE_LIMIT_MAX_REQUESTS. lia.
Qed.

(** X7. However many timestamps the limiter holds, a call made more than
    300000 ms after every one of them is admitted: its request is sent,
    its timestamp is the only one left, and it resolves with the body the
    service answers. *)
Theorem limiter_admits_after_the_window :
  forall (now : Z) (response : Params -> FetchResult) (params : Params)
         (net : Network),
    Forall (fun timestamp => (timestamp + 300000 < now)%Z)
           (requestTimestampsRef net) ->
    requestTimestampsRef (snd (callMusicApi now response params net)) = [now]
    /\ fetched (snd (callMusicApi now response params net))
       = fetched net ++ [(now, params)]
    /\ (forall v, response params = JsonBody v ->
                  fst (callMusicApi now response params net) = Resolved v).
Proof.
  intros now response params net Hold.
  assert (Hkept : filter (fun timestamp => (now - RATE_LIMIT_WINDOW_MS <=? timestamp)%Z)
                         (requestTimestampsRef net) = []).
  { induction (requestTimestampsRef net) as [|t ts IH]; [reflexivity|].
    inversion Hold as [|? ? Ht Hts]; subst. simpl.
    replace (now - RATE_LIMIT_WINDOW_MS <=? t)%Z with false
      by (symmetry; apply Z.leb_gt; unfold RATE_LIMIT_WINDOW_MS; lia).
    exact (IH Hts). }
  unfold callMusicApi, registerRequest. rewrite Hkept. simpl.
  destruct (response params); simpl; repeat split; try discriminate.
  intros v' H; inversion H; reflexivity.
Qed.

Lemma limiter_admits_after_the_window_witness :
  requestTimestampsRef
    (snd (callMusicApi 300001%Z (fun _ => HttpNotOk) []
            (mkNetwork (repeat 0%Z 60) [])))
  = [300001%Z].
Proof.
  apply (limiter_admits_after_the_window
           300001%Z (fun _ => HttpNotOk) [] (mkNetwork (repeat 0%Z 60) [])).
  simpl. repeat constructor.
Defined.

(** ** The index handed to playSong *)

Lemma shuffleCandidate_Play (draws : list Z) (current index : Z) :
  shuffleCandidate draws current = Play index ->
  index <> current /\ In index draws.
Proof.
  induction draws as [|d draws IH]; simpl; [discriminate|].
  destruct (Z.eqb_spec d current) as [->|Hd].
  - intros H. destruct (IH H). auto.
  - intros H; inversion H; subst. auto.
Qed.

Lemma shuffleCandidate_StillDrawing (draws : list Z) (current : Z) :
  shuffleCandidate draws current = StillDrawing
  <-> Forall (fun d => d = current) draws.
Proof.
  induction draws as [|d draws IH]; simpl; [split; auto|].
  destruct (Z.eqb_spec d current) as [->|Hd].
  - rewrite IH. split; [intros H; constructor; auto|].
    intros H; inversion H; assumption.
  - split; [discriminate|]. intros H; inversion H; contradiction.
Qed.

Lemma shuffleCandidate_not_NoPlay (draws : list Z) (current : Z) :
  shuffleCandidate draws current <> NoPlay.
Proof.
  induction draws as [|d draws IH]; simpl; [discriminate|].
  destruct (d =? current)%Z; [exact IH | discriminate].
Qed.

(** X8. In shuffle mode, with a song selected and at least two songs,
    [playNext] and [playPrevious] decide alike: they never choose the
    current song, the index they choose is one of the random draws, and
    their loop is still drawing exactly when every draw so far was the
    current index. *)
Theorem shuffle_never_repeats_the_current_song :
  forall (draws : list Z) (s : PlayerState),
    playbackModeRef s = shuffle ->
    (0 <= currentSongIndex s)%Z ->
    (2 <= length (musicList s))%nat ->
    previousChoice draws s = nextChoice draws s
    /\ (forall index,
          nextChoice draws s = Play index ->
          index <> currentSongIndex s /\ In index draws)
    /\ nextChoice draws s <> NoPlay
    /\ (nextChoice draws s = StillDrawing
        <-> Forall (fun d => d = currentSongIndex s) draws).
Proof.
  intros draws s Hmode Hcur Hlen.
  assert (E : nextChoice draws s = shuffleCandidate draws (currentSongIndex s)).
  { unfold nextChoice. rewrite Hmode.
    destruct (Nat.eqb_spec (length (musicList s)) 0); [lia|].
    destruct (Z.ltb_spec (currentSongIndex s) 0); [lia|].
    destruct (Nat.eqb_spec (length (musicList s)) 1); [lia|]. reflexivity. }
  assert (E' : previousChoice draws s
               = shuffleCandidate draws (currentSongIndex s)).
  { unfold previousChoice. rewrite Hmode.
    destruct (Nat.eqb_spec (length (musicList s)) 0); [lia|].
    destruct (Z.ltb_spec (currentSongIndex s) 0); [lia|].
    destruct (Nat.eqb_spec (length (musicList s)) 1); [lia|]. reflexivity. }
  rewrite E, E'. repeat split.
  - apply (shuffleCandidate_Play draws _ _ H).
  - apply (shuffleCandidate_Play draws _ _ H).
  - apply shuffleCandidate_not_NoPlay.
  - apply shuffleCandidate_StillDrawing.
  - apply shuffleCandidate_StillDrawing.
Qed.

Lemma shuffle_never_repeats_the_current_song_witness :
  nextChoice [0; 0; 2; 1]%Z
             (set_playbackModeRef shuffle (setCurrentSongIndex 0 initialState))
  <> NoPlay.
Proof.
  apply (shuffle_never_repeats_the_current_song
           [0; 0; 2; 1]%Z
           (set_playbackModeRef shuffle (setCurrentSongIndex 0 initialState))
           eq_refl).
  - vm_compute. discriminate.
  - vm_compute. lia.
Defined.

(** X9. In order mode and in single mode, with a non-empty list and a
    current index below the length of the list (a selected song, or
    none), the index [playNext] and [playPrevious] hand to [playSong] is
    an index of the list, so the bounds test of [playSong] lets it
    through; single mode chooses as order mode does. *)
Theorem navigation_stays_in_the_list :
  forall (draws : list Z) (s : PlayerState),
    playbackModeRef s <> shuffle ->
    musicList s <> [] ->
    (currentSongIndex s < Z.of_nat (length (musicList s)))%Z ->
    (exists index,
        nextChoice draws s = Play index
        /\ (0 <= index < Z.of_nat (length (musicList s)))%Z)
    /\ (exists index,
           previousChoice draws s = Play index
           /\ (0 <= index < Z.of_nat (length (musicList s)))%Z)
    /\ nextChoice draws s = nextChoice [] (set_playbackModeRef order s)
    /\ previousChoice draws s = previousChoice [] (set_playbackModeRef order s).
Proof.
  intros draws s Hmode Hne Hcur.
  assert (Hlen : (length (musicList s) =? 0)%nat = false)
    by (destruct (musicList s); [congruence | reflexivity]).
  assert (Hpos : (0 < Z.of_nat (length (musicList s)))%Z)
    by (destruct (musicList s); [congruence | simpl; lia]).
  assert (Hs : musicList (set_playbackModeRef order s) = musicList s
               /\ currentSongIndex (set_playbackModeRef order s)
                  = currentSongIndex s
               /\ playbackModeRef (set_playbackModeRef order s) = order)
    by (destruct s; repeat split).
  destruct Hs as (Hl & Hc & Hm).
  unfold nextChoice, previousChoice. rewrite Hl, Hc, Hm, Hlen.
  destruct (Z.ltb_spec (currentSongIndex s) 0).
  - repeat split; try (exists 0%Z; split; [reflexivity | lia]).
  - destruct (playbackModeRef s) eqn:E; try congruence;
      (split; [|split; [|split; reflexivity]]);
      eexists; (split; [reflexivity|]);
      repeat match goal with
             | |- context [(?a <=? ?b)%Z] => destruct (Z.leb_spec a b)
             end; lia.
Qed.

Lemma navigation_stays_in_the_list_witness :
  exists index,
    nextChoice [] (set_playbackModeRef single (setCurrentSongIndex 3 initialState))
    = Play index
    /\ (0 <= index
        < Z.of_nat (length (musicList (set_playbackModeRef single
                                         (setCurrentSongIndex 3 initialState)))))%Z.
Proof.
  apply (navigation_stays_in_the_list
           [] (set_playbackModeRef single (setCurrentSongIndex 3 initialState))).
  - discriminate.
  - discriminate.
  - vm_compute. reflexivity.
Defined.

(** ** Resolution, however the service answers *)

Lemma always_mono {A} (P Q : nat -> list Track -> Result A -> Prop)
      (m : Prog A) :
  (forall c u r, P c u r -> Q c u r) ->
  forall c u, always P c u m -> always Q c u m.
Proof.
  intros HPQ. induction m as [a|e|p k IH|t k IH]; intros c u; simpl; auto.
Qed.

Lemma always_bind {A B} (P : nat -> list Track -> Result B -> Prop)
      (m : Prog A) (f : A -> Prog B) :
  forall c u,
    always (fun c' u' r => match r with
                           | Ok a => always P c' u' (f a)
                           | Err e => P c' u' (Err e)
                           end) c u m ->
    always P c u (bind m f).
Proof.
  induction m as [a|e|p k IH|t k IH]; intros c u; simpl; auto.
Qed.

Lemma always_tryCatch {A} (P : nat -> list Track -> Result A -> Prop)
      (m : Prog A) (h : Error -> Prog A) :
  forall c u,
    always (fun c' u' r => match r with
                           | Ok a => P c' u' (Ok a)
                           | Err e => always P c' u' (h e)
                           end) c u m ->
    always P c u (tryCatch m h).
Proof.
  induction m as [a|e|p k IH|t k IH]; intros c u; simpl; auto.
Qed.

Lemma always_awaitApi (P : nat -> list Track -> Result ApiValue -> Prop)
      (p : Params) (c : nat) (u : list Track) :
  (forall v, P (S c) u (Ok v)) -> (forall e, P (S c) u (Err e)) ->
  always P c u (awaitApi p).
Proof. intros Hv He [e|v]; simpl; auto. Qed.

Lemma always_settle {A} (P : nat -> list Track -> Result A -> Prop)
      (api : Params -> Outcome) (m : Prog A) :
  forall c u,
    always P c u m ->
    P (c + length (requested api m))%nat (u ++ updated api m) (settle api m).
Proof.
  induction m as [a|e|p k IH|t k IH]; intros c u H; simpl in *.
  - rewrite Nat.add_0_r, app_nil_r. exact H.
  - rewrite Nat.add_0_r, app_nil_r. exact H.
  - specialize (IH (api p) (S c) u (H (api p))).
    rewrite Nat.add_succ_r. exact IH.
  - specialize (IH (c) (u ++ [t]) H). rewrite <- app_assoc in IH. exact IH.
Qed.

Lemma set_network_twice (net net' : Network) (s : PlayerState) :
  set_network net (set_network net' s) = set_network net s.
Proof. destruct s; reflexivity. Qed.

Lemma updateTrackInStates_set_network (t : Track) (net : Network)
      (s : PlayerState) :
  updateTrackInStates t (set_network net s)
  = set_network net (updateTrackInStates t s).
Proof. destruct s; reflexivity. Qed.

Lemma applyUpdates_set_network (updates : list Track) :
  forall (net : Network) (s : PlayerState),
    applyUpdates updates (set_network net s)
    = set_network net (applyUpdates updates s).
Proof.
  induction updates as [|t ups IH]; intros net s; [reflexivity|].
  unfold applyUpdates in *. simpl.
  rewrite updateTrackInStates_set_network. apply IH.
Qed.

(** A run on the component: the calls it makes, the updates it applies,
    and the state it leaves, the updates applied to the state it started
    from, with another network. *)
Lemma always_exec {A} (P : nat -> list Track -> Result A -> Prop) (env : Env)
      (m : Prog A) :
  forall c u n s,
    always P c u m ->
    exists updates net,
      P (c + (snd (fst (exec env m n s)) - n))%nat (u ++ updates)
        (fst (fst (exec env m n s)))
      /\ snd (exec env m n s) = set_network net (applyUpdates updates s)
      /\ (n <= snd (fst (exec env m n s)))%nat.
Proof.
  induction m as [a|e|p k IH|t k IH]; intros c u n s H.
  - exists [], (network s). simpl. rewrite Nat.sub_diag, Nat.add_0_r, app_nil_r.
    split; [exact H|]. split; [destruct s; reflexivity | lia].
  - exists [], (network s). simpl. rewrite Nat.sub_diag, Nat.add_0_r, app_nil_r.
    split; [exact H|]. split; [destruct s; reflexivity | lia].
  - cbn [exec].
    destruct (callMusicApi (clock env n) (remote env n) p (network s))
      as [o net1].
    destruct (IH o (S c) u (S n) (set_network net1 s) (H o))
      as (ups & net & HP & Hs & Hn).
    exists ups, net. split; [|split].
    + replace (c + (snd (fst (exec env (k o) (S n) (set_network net1 s))) - n))%nat
        with (S c + (snd (fst (exec env (k o) (S n) (set_network net1 s))) - S n))%nat
        by lia.
      exact HP.
    + rewrite Hs, applyUpdates_set_network, set_network_twice. reflexivity.
    + lia.
  - cbn [exec].
    destruct (IH c (u ++ [t]) n (updateTrackInStates t s) H)
      as (ups & net & HP & Hs & Hn).
    exists (t :: ups), net. split; [|split].
    + rewrite <- app_assoc in HP. exact HP.
    + exact Hs.
    + exact Hn.
Qed.

Lemma Bitrate_eqb_eq (a b : Bitrate) : Bitrate_eqb a b = true <-> a = b.
Proof. destruct a, b; cbv; split; intros H; try reflexivity; discriminate H. Qed.

Lemma sanitizeUrl_not_empty (u : jsstring) : u <> [] -> sanitizeUrl u <> [].
Proof.
  destruct u as [|c u]; [congruence|]. intros _. unfold sanitizeUrl.
  cbn [replaceAmp]. destruct (startsWith amp_entity (c :: u)); discriminate.
Qed.

Lemma playableUrl_not_empty (urlData : ApiValue) (u : jsstring) :
  playableUrl urlData = Some u -> u <> [].
Proof.
  destruct urlData as [|[[[|c r]|] ? ?]| | |]; simpl; try discriminate.
  intros H; inversion H; discriminate.
Qed.

Section ResolutionRuns.

Variable toLowerCase : jsstring -> jsstring.

Lemma identify_always (track : Track) (c : nat) (u : list Track) :
  always (fun c' u' _ => (c' <= S c)%nat /\ u' = u) c u
         (identify toLowerCase track).
Proof.
  assert (Hsearch :
            always (fun c' u' (_ : Result Identified) => (c' <= S c)%nat /\ u' = u)
                   c u
                   (if isEmpty (searchKeyword track)
                    then Throw (js "未配置歌曲关键词")
                    else
                      searchResults <-
                        awaitApi (searchParams (source (descriptor track))
                                               (searchKeyword track) (js "1")) ;;
                      match selectBestSearchResult toLowerCase
                              (Some match searchResults with
                                    | SearchResults items => items
                                    | _ => []
                                    end) track with
                      | None => Throw (js "未找到对应歌曲")
                      | Some best => Ret (adoptBest track best)
                      end)).
  { destruct (isEmpty (searchKeyword track));
      [cbn [always]; split; [lia | reflexivity]|].
    unfold awaitApi. cbn [always bind].
    intros [e|v]; cbn [always bind]; [split; [lia | reflexivity]|].
    match goal with
    | |- context [selectBestSearchResult ?f ?l ?t] =>
        destruct (selectBestSearchResult f l t)
    end; cbn [always]; (split; [lia | reflexivity]). }
  unfold identify.
  destruct (trackId (descriptor track)) as [[|x r]|].
  - exact Hsearch.
  - simpl. split; [lia | reflexivity].
  - exact Hsearch.
Qed.

Lemma fetchCover_always (src : MusicSource) (picId : option jsstring)
      (prev : nullable jsstring) (c : nat) (u : list Track) :
  always (fun c' u' r => (c' <= S c)%nat /\ u' = u /\ exists x, r = Ok x) c u
         (fetchCover src picId prev).
Proof.
  unfold fetchCover.
  destruct picId as [[|x r]|]; simpl;
    try (split; [lia | split; [reflexivity | eexists; reflexivity]]).
  intros [e|v]; simpl;
    (split; [lia | split; [reflexivity | eexists; reflexivity]]).
Qed.

Lemma fetchLyric_always (src : MusicSource) (lyricId : option jsstring)
      (l tl : nullable jsstring) (c : nat) (u : list Track) :
  always (fun c' u' r => (c' <= S c)%nat /\ u' = u /\ exists x, r = Ok x) c u
         (fetchLyric src lyricId l tl).
Proof.
  unfold fetchLyric.
  destruct lyricId as [[|x r]|]; simpl;
    try (split; [lia | split; [reflexivity | eexists; reflexivity]]).
  destruct (truthyN l); simpl;
    try (split; [lia | split; [reflexivity | eexists; reflexivity]]).
  intros [e|v]; simpl;
    (split; [lia | split; [reflexivity | eexists; reflexivity]]).
Qed.

Lemma ensureTrackResolved_always (track : Track) (desiredBitrate : Bitrate) :
  always (resolutionPost track desiredBitrate) 0 []
         (ensureTrackResolved toLowerCase track desiredBitrate).
Proof.
  unfold ensureTrackResolved.
  destruct (truthy (url track)
            && bitrateIs (bitrate (descriptor track)) desiredBitrate) eqn:Eres.
  - simpl. unfold resolutionPost, alreadyResolved. rewrite Eres.
    apply andb_true_iff in Eres. destruct Eres as [Hu Hb].
    split; [lia|]. repeat split; try assumption.
    unfold bitrateIs in Hb. destruct (bitrate (descriptor track)) as [b|];
      [|discriminate].
    apply Bitrate_eqb_eq in Hb. subst b. reflexivity.
  - apply always_bind.
    eapply always_mono; [|apply identify_always].
    intros c1 u1 [ids|e] [Hc1 ->]; [|split; [lia | reflexivity]].
    apply always_bind. apply always_awaitApi;
      [|intros e; split; [lia | reflexivity]].
    intros urlData.
    destruct (playableUrl urlData) as [x|] eqn:Eu;
      [|simpl; split; [lia | reflexivity]].
    apply always_bind.
    eapply always_mono; [|apply fetchCover_always].
    intros c2 u2 r2 (Hc2 & -> & cover' & ->).
    apply always_bind.
    eapply always_mono; [|apply fetchLyric_always].
    intros c3 u3 r3 (Hc3 & -> & lyrics & ->).
    simpl. unfold resolutionPost, alreadyResolved. rewrite Eres.
    split; [lia|]. repeat split.
    assert (Hx : sanitizeUrl x <> [])
      by (apply sanitizeUrl_not_empty, (playableUrl_not_empty urlData), Eu).
    destruct (sanitizeUrl x); [congruence | reflexivity].
Qed.

End ResolutionRuns.

(** X10. A track [ensureTrackResolved] returns, in a run against any
    answers of the service or in a run on the component, keeps the id,
    source, duration and keyword of the track given, has the bitrate asked
    for and a url that is not empty; so resolving it again at that bitrate
    returns it at once. *)
Theorem returned_track_is_resolved :
  forall (toLowerCase : jsstring -> jsstring) (track : Track)
         (desiredBitrate : Bitrate) (r : Track),
    (exists api,
        settle api (ensureTrackResolved toLowerCase track desiredBitrate) = Ok r)
    \/ (exists env n s,
           fst (fst (exec env (ensureTrackResolved toLowerCase track desiredBitrate)
                          n s)) = Ok r) ->
    id (descriptor r) = id (descriptor track)
    /\ source (descriptor r) = source (descriptor track)
    /\ duration (descriptor r) = duration (descriptor track)
    /\ keyword (descriptor r) = keyword (descriptor track)
    /\ bitrate (descriptor r) = Some desiredBitrate
    /\ truthy (url r) = true
    /\ ensureTrackResolved toLowerCase r desiredBitrate = Ret r.
Proof.
  intros toLowerCase track desiredBitrate r H.
  assert (Hpost : exists c u, resolutionPost track desiredBitrate c u (Ok r)).
  { destruct H as [[api Hs]|(env & n & s & He)].
    - pose proof (always_settle _ api _ 0%nat []
                    (ensureTrackResolved_always toLowerCase track desiredBitrate))
        as Hp.
      rewrite Hs in Hp. eauto.
    - destruct (always_exec _ env _ 0%nat [] n s
                  (ensureTrackResolved_always toLowerCase track desiredBitrate))
        as (ups & net & Hp & _).
      rewrite He in Hp. eauto. }
  destruct Hpost as (c & u & _ & _ & Hid & Hsrc & Hdur & Hkw & Hbr & Hurl).
  repeat split; try assumption.
  unfold ensureTrackResolved. rewrite Hurl, Hbr. simpl.
  rewrite (proj2 (Bitrate_eqb_eq desiredBitrate desiredBitrate) eq_refl).
  reflexivity.
Qed.

Lemma returned_track_is_resolved_witness :
  ensureTrackResolved asciiLower resolvedExample B320 = Ret resolvedExample.
Proof.
  apply (returned_track_is_resolved asciiLower (createTrack exampleDescriptor)
                                    B320 resolvedExample).
  left. exists answeringApi. exact resolvedExample_returned.
Defined.

(** The state a run of [ensureTrackResolved] on the component leaves. *)
Lemma exec_ensureTrackResolved (toLowerCase : jsstring -> jsstring) (env : Env)
      (track : Track) (desiredBitrate : Bitrate) (n : nat) (s : PlayerState) :
  let run := exec env (ensureTrackResolved toLowerCase track desiredBitrate) n s in
  (n <= snd (fst run) <= n + 4)%nat
  /\ exists net,
      match fst (fst run) with
      | Err _ => snd run = set_network net s
      | Ok r =>
          snd run = if alreadyResolved track desiredBitrate
                    then set_network net s
                    else updateTrackInStates r (set_network net s)
      end.
Proof.
  intros run. subst run.
  destruct (always_exec _ env _ 0%nat [] n s
              (ensureTrackResolved_always toLowerCase track desiredBitrate))
    as (ups & net & [Hc Hp] & Hs & Hn).
  split; [simpl in Hc; lia|]. exists net.
  destruct (fst (fst (exec env _ n s))) as [r|e].
  - destruct Hp as (Hu & _). simpl in Hu. subst ups.
    destruct (alreadyResolved track desiredBitrate); [exact Hs|].
    rewrite Hs. unfold applyUpdates. simpl.
    symmetry. apply updateTrackInStates_set_network.
  - simpl in Hp. subst ups. exact Hs.
Qed.

(** X11. A run of [ensureTrackResolved] on the component makes at most
    four calls of [callMusicApi]. When it throws, or returns a track that
    was already resolved, it leaves the state as it was but for the rate
    limiter and the requests sent; when it returns a track it resolved, it
    leaves that state with the one call [updateTrackInStates] of the
    track returned. *)
Theorem resolution_on_the_component :
  forall (toLowerCase : jsstring -> jsstring) (env : Env) (track : Track)
         (desiredBitrate : Bitrate) (n : nat) (s : PlayerState),
    let run := exec env (ensureTrackResolved toLowerCase track desiredBitrate) n s in
    (n <= snd (fst run) <= n + 4)%nat
    /\ exists net,
        match fst (fst run) with
        | Err _ => snd run = set_network net s
        | Ok r =>
            snd run = if alreadyResolved track desiredBitrate
                      then set_network net s
                      else updateTrackInStates r (set_network net s)
        end.
Proof.
  intros toLowerCase env track desiredBitrate n s.
  apply exec_ensureTrackResolved.
Qed.

(** ** updateTrackInStates *)

Lemma idsOf_replaceTrack (updated : Track) (tracks : list Track) :
  idsOf (replaceTrack updated tracks) = idsOf tracks.
Proof.
  unfold idsOf, replaceTrack. rewrite map_map. apply map_ext. intros x.
  destruct (jsstring_eqb (id (descriptor x)) (id (descriptor updated))) eqn:E;
    [|reflexivity].
  apply jsstring_eqb_eq in E. symmetry. exact E.
Qed.

Lemma replaceTrack_twice (updated : Track) (tracks : list Track) :
  replaceTrack updated (replaceTrack updated tracks) = replaceTrack updated tracks.
Proof.
  unfold replaceTrack. rewrite map_map. apply map_ext. intros x.
  destruct (jsstring_eqb (id (descriptor x)) (id (descriptor updated))) eqn:E.
  - rewrite jsstring_eqb_refl. reflexivity.
  - rewrite E. reflexivity.
Qed.

Lemma nth_error_replaceTrack (updated : Track) (tracks : list Track) (i : nat)
      (x : Track) :
  nth_error tracks i = Some x ->
  nth_error (replaceTrack updated tracks) i
  = Some (if jsstring_eqb (id (descriptor x)) (id (descriptor updated))
          then updated else x).
Proof.
  intros H. unfold replaceTrack. rewrite nth_error_map, H. reflexivity.
Qed.

Lemma updateTrackInStates_lists (updated : Track) (s : PlayerState) :
  musicList (updateTrackInStates updated s) = replaceTrack updated (musicList s)
  /\ allTracks (updateTrackInStates updated s) = replaceTrack updated (allTracks s)
  /\ localTracks (updateTrackInStates updated s)
     = replaceTrack updated (localTracks s)
  /\ network (updateTrackInStates updated s) = network s
  /\ sameControls s (updateTrackInStates updated s).
Proof. destruct s. unfold sameControls. simpl. repeat split. Qed.

Lemma nth_error_replaceTrack_all (updated : Track) (tracks : list Track)
      (i : nat) :
  nth_error (replaceTrack updated tracks) i
  = option_map (fun x => if jsstring_eqb (id (descriptor x))
                                         (id (descriptor updated))
                         then updated else x)
               (nth_error tracks i).
Proof. unfold replaceTrack. apply nth_error_map. Qed.

(** X12. [updateTrackInStates(updated)] puts [updated] in the place of
    every track with its id in each of the three lists and touches
    nothing else: at every position of [musicList], of [allTracks] and of
    [localTracks] the new list holds [updated] where the old one held a
    track with its id, and the old track elsewhere, so each list keeps its
    length and its ids in their order; every other cell keeps its value,
    and applying it twice is applying it once. *)
Theorem updateTrackInStates_replaces_by_id :
  forall (updated : Track) (s : PlayerState),
    let s' := updateTrackInStates updated s in
    let replaced := fun x : Track =>
                      if jsstring_eqb (id (descriptor x)) (id (descriptor updated))
                      then updated else x in
    (forall i, nth_error (musicList s') i
               = option_map replaced (nth_error (musicList s) i))
    /\ (forall i, nth_error (allTracks s') i
                  = option_map replaced (nth_error (allTracks s) i))
    /\ (forall i, nth_error (localTracks s') i
                  = option_map replaced (nth_error (localTracks s) i))
    /\ idsOf (musicList s') = idsOf (musicList s)
    /\ idsOf (allTracks s') = idsOf (allTracks s)
    /\ idsOf (localTracks s') = idsOf (localTracks s)
    /\ sameControls s s'
    /\ network s' = network s
    /\ updateTrackInStates updated s' = s'.
Proof.
  intros updated s s' replaced. subst s' replaced.
  destruct (updateTrackInStates_lists updated s) as (Hm & Ha & Hl & Hn & Hc).
  rewrite Hm, Ha, Hl.
  split; [intros i; apply nth_error_replaceTrack_all|].
  split; [intros i; apply nth_error_replaceTrack_all|].
  split; [intros i; apply nth_error_replaceTrack_all|].
  split; [apply idsOf_replaceTrack|].
  split; [apply idsOf_replaceTrack|].
  split; [apply idsOf_replaceTrack|].
  split; [exact Hc|]. split; [exact Hn|].
  destruct s. unfold updateTrackInStates. simpl.
  rewrite !replaceTrack_twice. reflexivity.
Qed.

Lemma updateTrackInStates_replaces_by_id_witness :
  nth_error (localTracks (updateTrackInStates resolvedExample
                            (setLocalTracks [createTrack blankDescriptor;
                                             createTrack exampleDescriptor]
                                            initialState))) 1
  = Some resolvedExample.
Proof.
  exact (proj1 (proj2 (proj2
           (updateTrackInStates_replaces_by_id
              resolvedExample
              (setLocalTracks [createTrack blankDescriptor;
                               createTrack exampleDescriptor]
                              initialState))))
           1%nat).
Defined.

(** ** The requests of a resolution *)

Lemma requested_bind {A B} (api : Params -> Outcome) (m : Prog A)
      (f : A -> Prog B) :
  requested api (bind m f)
  = requested api m
    ++ match settle api m with
       | Ok a => requested api (f a)
       | Err _ => []
       end.
Proof.
  induction m as [a|e|p k IH|t k IH]; simpl; auto.
  rewrite IH. reflexivity.
Qed.

Lemma requested_tryCatch {A} (api : Params -> Outcome) (m : Prog A)
      (h : Error -> Prog A) :
  requested api (tryCatch m h)
  = requested api m
    ++ match settle api m with
       | Ok _ => []
       | Err e => requested api (h e)
       end.
Proof.
  induction m as [a|e|p k IH|t k IH]; simpl; auto.
  rewrite IH. reflexivity.
Qed.

Section ResolutionRequests.

Variable toLowerCase : jsstring -> jsstring.
Variable api : Params -> Outcome.

Lemma requested_identify (track : Track) :
  requested api (identify toLowerCase track)
  = if truthy (trackId (descriptor track)) then []
    else if isEmpty (searchKeyword track) then []
    else [searchOf track].
Proof.
  unfold identify, searchOf.
  destruct (trackId (descriptor track)) as [[|c r]|]; cbn [truthy];
    try reflexivity;
    (destruct (isEmpty (searchKeyword track)); [reflexivity|];
     rewrite requested_bind; unfold awaitApi; cbn [requested settle];
     destruct (api _) as [e|v]; [reflexivity|]; cbn [requested app settle];
     f_equal;
     match goal with
     | |- context [selectBestSearchResult ?f ?l ?t] =>
         destruct (selectBestSearchResult f l t)
     end; reflexivity).
Qed.

Lemma requested_fetchCover (src : MusicSource) (picId : option jsstring)
      (prev : nullable jsstring) :
  requested api (fetchCover src picId prev)
  = match picId with
    | Some (c :: r) => [picParams src (c :: r)]
    | _ => []
    end.
Proof.
  unfold fetchCover. destruct picId as [[|c r]|]; try reflexivity.
  unfold awaitApi. cbn [tryCatch bind requested].
  destruct (api (picParams src (c :: r))) as [e|v]; reflexivity.
Qed.

Lemma requested_fetchLyric (src : MusicSource) (lyricId : option jsstring)
      (l tl : nullable jsstring) :
  requested api (fetchLyric src lyricId l tl)
  = match lyricId with
    | Some (c :: r) => if truthyN l then [] else [lyricParams src (c :: r)]
    | _ => []
    end.
Proof.
  unfold fetchLyric. destruct lyricId as [[|c r]|]; try reflexivity.
  destruct (truthyN l); [reflexivity|].
  unfold awaitApi. cbn [tryCatch bind requested].
  destruct (api (lyricParams src (c :: r))) as [e|v]; reflexivity.
Qed.

(** The requests of [ensureTrackResolved], one after the other. *)
Lemma requested_ensureTrackResolved (track : Track) (desiredBitrate : Bitrate) :
  requested api (ensureTrackResolved toLowerCase track desiredBitrate)
  = if alreadyResolved track desiredBitrate then []
    else
      requested api (identify toLowerCase track)
      ++ match identified toLowerCase api track with
         | Err _ => []
         | Ok ids =>
             urlParams (source (descriptor track)) (i_trackId ids) desiredBitrate
             :: match urlObtained api track desiredBitrate (i_trackId ids) with
                | None => []
                | Some _ =>
                    requested api (fetchCover (source (descriptor track))
                                              (i_picId ids)
                                              (orNull (cover track)))
                    ++ requested api (fetchLyric (source (descriptor track))
                                                 (i_lyricId ids)
                                                 (orNull (lyric track))
                                                 (orNull (tLyric track)))
                end
         end.
Proof.
  unfold ensureTrackResolved, alreadyResolved, urlObtained.
  destruct (truthy (url track) && _); [reflexivity|].
  rewrite requested_bind, settle_identify. f_equal.
  destruct (identified toLowerCase api track) as [ids|e]; [|reflexivity].
  rewrite requested_bind, settle_awaitApi. unfold awaitApi at 1.
  cbn [requested].
  destruct (api (urlParams (source (descriptor track)) (i_trackId ids)
                           desiredBitrate)) as [e|urlData];
    [reflexivity|].
  cbn [requested app]. f_equal.
  destruct (playableUrl urlData) as [u|]; [|reflexivity].
  rewrite requested_bind, settle_fetchCover.
  rewrite requested_bind, settle_fetchLyric.
  cbn [requested]. rewrite app_nil_r. reflexivity.
Qed.

End ResolutionRequests.

(** X13. The requests of one [ensureTrackResolved], however the service
    answers: at most one of each kind, in the order search, url, pic,
    lyric, so at most four; a search only for a track without track id; a
    pic or a lyric request only after the url request and only in a run
    that returns; a lyric request only for a track without lyric; and
    every request names the source of the track. *)
Theorem resolution_requests_in_order :
  forall (toLowerCase : jsstring -> jsstring) (api : Params -> Outcome)
         (track : Track) (desiredBitrate : Bitrate),
    let prog := ensureTrackResolved toLowerCase track desiredBitrate in
    (exists search urlCall pic lyricCall,
        map typesOf (requested api prog)
        = requestKinds search urlCall pic lyricCall
        /\ (search = true -> truthy (trackId (descriptor track)) = false)
        /\ (pic = true \/ lyricCall = true ->
            urlCall = true /\ exists r, settle api prog = Ok r)
        /\ (lyricCall = true -> truthyN (lyric track) = false))
    /\ (length (requested api prog) <= 4)%nat
    /\ Forall (fun p => In (js "source", source_text (source (descriptor track))) p)
              (requested api prog).
Proof.
  intros toLowerCase api track desiredBitrate prog. subst prog.
  rewrite settle_ensureTrackResolved, requested_ensureTrackResolved,
    requested_identify.
  assert (Hnone : forall P : Prop, false = true \/ false = true -> P)
    by (intros P [H|H]; discriminate H).
  destruct (alreadyResolved track desiredBitrate).
  { split; [|split; [simpl; lia | constructor]].
    exists false, false, false, false.
    split; [reflexivity|].
    split; [discriminate|]. split; [intros H; exact (Hnone _ H) | discriminate]. }
  destruct (identified toLowerCase api track) as [ids|e] eqn:Ei.
  - (* identified: the url request is made *)
    unfold urlObtained.
    rewrite requested_fetchCover, requested_fetchLyric, truthyN_orNull.
    destruct (api (urlParams (source (descriptor track)) (i_trackId ids)
                             desiredBitrate)) as [e|urlData];
      [|destruct (playableUrl urlData) as [u|]];
      (destruct (truthy (trackId (descriptor track)));
       [|destruct (isEmpty (searchKeyword track))]);
      try (destruct (i_picId ids) as [[|pc pr]|];
           destruct (i_lyricId ids) as [[|lc lr]|];
           try destruct (truthyN (lyric track)));
      (split;
       [|split;
         [simpl; lia
         |repeat (apply Forall_cons; [right; left; reflexivity|]);
          apply Forall_nil]]);
      first
        [ exists false, true, false, false; split; [reflexivity|]
        | exists false, true, true, false; split; [reflexivity|]
        | exists false, true, false, true; split; [reflexivity|]
        | exists false, true, true, true; split; [reflexivity|]
        | exists true, true, false, false; split; [reflexivity|]
        | exists true, true, true, false; split; [reflexivity|]
        | exists true, true, false, true; split; [reflexivity|]
        | exists true, true, true, true; split; [reflexivity|] ];
      (split; [first [discriminate | intros _; reflexivity]|]);
      (split;
       [first [intros H; exact (Hnone _ H)
              | intros _; split; [reflexivity | eexists; reflexivity]]
       |first [discriminate | intros _; reflexivity]]).
  - (* not identified: only the search, if any, was sent *)
    destruct (proj1 (identified_Err toLowerCase api track)
                    (ex_intro _ e Ei)) as [Ht _].
    rewrite Ht.
    destruct (isEmpty (searchKeyword track));
      (split;
       [|split;
         [simpl; lia
         |repeat (apply Forall_cons; [right; left; reflexivity|]);
          apply Forall_nil]]).
    + exists false, false, false, false.
      split; [reflexivity|].
      split; [discriminate|]. split; [intros H; exact (Hnone _ H) | discriminate].
    + exists true, false, false, false.
      split; [reflexivity|].
      split; [intros _; reflexivity|]. split; [intros H; exact (Hnone _ H) | discriminate].
Qed.

(** ** A whole [playSong] *)

Lemma exec_resolution (toLowerCase : jsstring -> jsstring) (env : Env)
      (track : Track) (desiredBitrate : Bitrate) (n : nat) (s : PlayerState) :
  let run := exec env (ensureTrackResolved toLowerCase track desiredBitrate) n s in
  exists net,
    match fst (fst run) with
    | Err _ => snd run = set_network net s
    | Ok r =>
        snd run = (if alreadyResolved track desiredBitrate
                   then set_network net s
                   else updateTrackInStates r (set_network net s))
        /\ id (descriptor r) = id (descriptor track)
        /\ bitrate (descriptor r) = Some desiredBitrate
        /\ truthy (url r) = true
    end.
Proof.
  intros run. subst run.
  destruct (always_exec _ env _ 0%nat [] n s
              (ensureTrackResolved_always toLowerCase track desiredBitrate))
    as (ups & net & [Hc Hp] & Hs & Hn).
  exists net.
  destruct (fst (fst (exec env _ n s))) as [r|e].
  - destruct Hp as (Hu & Hid & _ & _ & _ & Hb & Hurl). simpl in Hu. subst ups.
    repeat split; try assumption.
    destruct (alreadyResolved track desiredBitrate); [exact Hs|].
    rewrite Hs. unfold applyUpdates. simpl.
    symmetry. apply updateTrackInStates_set_network.
  - simpl in Hp. subst ups. exact Hs.
Qed.

Lemma bitrateIs_same (b : Bitrate) : bitrateIs (Some b) b = true.
Proof. apply Bitrate_eqb_eq. reflexivity. Qed.

(** The state a [playSong] that passed its guards ends in when nothing
    else ran: either the song is current and resolved, or an error is
    shown and the song that was current still is. *)
Lemma playSong_alone_cases (toLowerCase : jsstring -> jsstring) (env : Env)
      (index : Z) (autoplay : bool) (n : nat) (s : PlayerState) :
  (0 <= index < Z.of_nat (length (musicList s)))%Z ->
  loadingTrackIndex s <> Some index ->
  let s' := playSong_alone toLowerCase env index autoplay n s in
  loadingTrackIndex s' = None
  /\ playRequestIdRef s' = (playRequestIdRef s + 1)%Z
  /\ isPlaying s' = false
  /\ idsOf (musicList s') = idsOf (musicList s)
  /\ selectedBitrate s' = selectedBitrate s
  /\ exists r,
      nth_error (musicList s') (Z.to_nat index) = Some r
      /\ bitrate (descriptor r) = Some (selectedBitrate s)
      /\ ((truthy (url r) = true
           /\ currentSongIndex s' = index
           /\ coverUrl s' = stringValue (cover r)
           /\ errorMessage s' = None
           /\ soundRef s' = None
           /\ autoPlayRef s' = autoplay)
          \/ (truthy (url r) = false
              /\ currentSongIndex s' = currentSongIndex s
              /\ coverUrl s' = coverUrl s
              /\ (exists e, errorMessage s' = Some e)
              /\ soundRef s' = soundRef s
              /\ autoPlayRef s' = autoPlayRef s)).
Proof.
  intros Hrange Hload s'. subst s'.
  unfold playSong_alone, playSong. cbv zeta.
  replace ((index <? 0)%Z || (Z.of_nat (length (musicList s)) <=? index)%Z)
    with false
    by (symmetry; apply orb_false_iff; split;
        [apply Z.ltb_ge | apply Z.leb_gt]; lia).
  replace (option_Z_eqb (loadingTrackIndex s) index) with false.
  2:{ unfold option_Z_eqb. destruct (loadingTrackIndex s) as [x|];
      [|reflexivity]. symmetry. apply Z.eqb_neq. congruence. }
  destruct (nth_error (musicList s) (Z.to_nat index)) as [orig|] eqn:En.
  2:{ apply nth_error_None in En. lia. }
  match goal with
  | |- context [updateTrackInStates ?b _] => set (base := b)
  end.
  assert (Hid : id (descriptor base) = id (descriptor orig)) by reflexivity.
  assert (Hb : bitrate (descriptor base) = Some (selectedBitrate s))
    by reflexivity.
  assert (Hnth : forall l, 
             nth_error l (Z.to_nat index) = Some orig ->
             nth_error (replaceTrack base l) (Z.to_nat index) = Some base).
  { intros l Hl. rewrite (nth_error_replaceTrack base l _ orig Hl).
    rewrite Hid, jsstring_eqb_refl. reflexivity. }
  clearbody base.
  destruct (truthy (url base)) eqn:Eu.
  - (* the url is there: nothing is awaited *)
    destruct s as [csi playing prog ctime dur locals sel alls mlist cov loading err searching showing trans page more pageInput lastKw sound autop mode playId searchId net0].
    cbn -[replaceTrack] in *.
    unfold playSong_settled, unloadSound. cbn -[replaceTrack].
      rewrite Z.eqb_refl. cbn -[replaceTrack].
    destruct sound; cbn -[replaceTrack]; rewrite Z.eqb_refl; cbn -[replaceTrack];
      (repeat split; try reflexivity; try apply idsOf_replaceTrack;
       exists base; split; [apply Hnth; exact En|];
       split; [exact Hb|]; left; repeat split; try reflexivity; exact Eu).
  - (* the track is resolved first *)
    destruct (exec_resolution toLowerCase env base (selectedBitrate s) n
                (updateTrackInStates base
                   (setIsPlaying false
                      (setErrorMessage None
                         (setLoadingTrackIndex (Some index)
                            (set_playRequestIdRef (playRequestIdRef s + 1)%Z s))))))
      as [net Hrun].
    cbv zeta in Hrun.
    destruct (fst (fst (exec env _ n _))) as [r|e].
    + destruct Hrun as (Hs & Hrid & Hrb & Hru).
      rewrite Hs. unfold alreadyResolved. rewrite Eu. cbn [andb].
      assert (Hr : forall l,
                 nth_error l (Z.to_nat index) = Some orig ->
                 nth_error (replaceTrack r (replaceTrack base l)) (Z.to_nat index)
                 = Some r).
      { intros l Hl.
        rewrite (nth_error_replaceTrack r _ _ base (Hnth l Hl)).
        rewrite Hrid, jsstring_eqb_refl. reflexivity. }
      destruct s as [csi playing prog ctime dur locals sel alls mlist cov loading err searching showing trans page more pageInput lastKw sound autop mode playId searchId net0].
    cbn -[replaceTrack] in *.
      unfold playSong_settled, unloadSound. cbn -[replaceTrack].
      rewrite Z.eqb_refl. cbn -[replaceTrack].
      destruct sound; cbn -[replaceTrack]; rewrite Z.eqb_refl; cbn -[replaceTrack];
        (repeat split; try reflexivity;
         try (rewrite !idsOf_replaceTrack; reflexivity);
         exists r; split; [apply Hr; exact En|];
         split; [exact Hrb|]; left; repeat split; try reflexivity; exact Hru).
    + rewrite Hrun.
      destruct s as [csi playing prog ctime dur locals sel alls mlist cov loading err searching showing trans page more pageInput lastKw sound autop mode playId searchId net0].
    cbn -[replaceTrack] in *.
      unfold playSong_settled. cbn -[replaceTrack]. rewrite Z.eqb_refl.
      cbn -[replaceTrack]. rewrite Z.eqb_refl. cbn -[replaceTrack].
      repeat split; try reflexivity; try apply idsOf_replaceTrack.
      exists base. split; [apply Hnth; exact En|].
      split; [exact Hb|]. right. repeat split; try reflexivity; try exact Eu.
      exists e. reflexivity.
Qed.

(** X14. A [playSong(index, autoplay)] that passes its guards and runs
    with nothing in between ends with no track loading, its request id
    one more than before, the player not playing and the ids of the list
    as they were. Either the track at [index] now has the selected bitrate
    and a url that is not empty, [index] is the current song, its cover is
    the cover shown, no error is shown and the old sound is unloaded; or
    the track at [index] has the selected bitrate and no url, an error is
    shown, and the current song, the cover and the sound are as before. *)
Theorem playSong_ends_resolved_or_with_an_error :
  forall (toLowerCase : jsstring -> jsstring) (env : Env) (index : Z)
         (autoplay : bool) (n : nat) (s : PlayerState),
    (0 <= index < Z.of_nat (length (musicList s)))%Z ->
    loadingTrackIndex s <> Some index ->
    let s' := playSong_alone toLowerCase env index autoplay n s in
    loadingTrackIndex s' = None
    /\ playRequestIdRef s' = (playRequestIdRef s + 1)%Z
    /\ isPlaying s' = false
    /\ idsOf (musicList s') = idsOf (musicList s)
    /\ selectedBitrate s' = selectedBitrate s
    /\ exists r,
        nth_error (musicList s') (Z.to_nat index) = Some r
        /\ bitrate (descriptor r) = Some (selectedBitrate s)
        /\ ((truthy (url r) = true
             /\ currentSongIndex s' = index
             /\ coverUrl s' = stringValue (cover r)
             /\ errorMessage s' = None
             /\ soundRef s' = None
             /\ autoPlayRef s' = autoplay)
            \/ (truthy (url r) = false
                /\ currentSongIndex s' = currentSongIndex s
                /\ coverUrl s' = coverUrl s
                /\ (exists e, errorMessage s' = Some e)
                /\ soundRef s' = soundRef s
                /\ autoPlayRef s' = autoPlayRef s)).
Proof.
  intros toLowerCase env index autoplay n s Hrange Hload.
  exact (playSong_alone_cases toLowerCase env index autoplay n s Hrange Hload).
Qed.

Lemma playSong_ends_resolved_or_with_an_error_witness :
  loadingTrackIndex
    (playSong_alone asciiLower
                    (mkEnv (fun _ => 0%Z) (fun _ _ => HttpNotOk))
                    0%Z true 0%nat initialState)
  = None.
Proof.
  apply (playSong_ends_resolved_or_with_an_error
           asciiLower (mkEnv (fun _ => 0%Z) (fun _ _ => HttpNotOk))
           0%Z true 0%nat initialState).
  - vm_compute. split; [discriminate | reflexivity].
  - discriminate.
Defined.

Lemma bitrate_value_positive (b : Bitrate) : (bitrate_value b <=? 0)%Z = false.
Proof. destruct b; reflexivity. Qed.

Lemma idsOf_length (a b : list Track) : idsOf a = idsOf b -> length a = length b.
Proof.
  unfold idsOf. intros H. apply (f_equal (@length _)) in H.
  rewrite !length_map in H. exact H.
Qed.

(** X15. After a [playSong] that ran with nothing in between, the effect
    that follows the selected bitrate is at rest when the song was
    resolved: it does not call [playSong] again. When the resolution
    failed and [index] was the current song, the body of the effect calls
    [playSong] for it again, and that call goes on to resolve the track
    under the next request id. *)
Theorem bitrate_effect_after_playSong :
  forall (toLowerCase : jsstring -> jsstring) (env : Env) (index : Z)
         (autoplay : bool) (n : nat) (s : PlayerState),
    (0 <= index < Z.of_nat (length (musicList s)))%Z ->
    loadingTrackIndex s <> Some index ->
    let s' := playSong_alone toLowerCase env index autoplay n s in
    (errorMessage s' = None -> bitrateEffect s' = None)
    /\ (errorMessage s' <> None -> currentSongIndex s = index ->
        exists s1 baseTrack,
          bitrateEffect s'
          = Some (PlayAwaiting s1 (playRequestIdRef s + 2)%Z baseTrack)
          /\ truthy (url baseTrack) = false).
Proof.
  intros toLowerCase env index autoplay n s Hrange Hload s'.
  destruct (playSong_alone_cases toLowerCase env index autoplay n s
                                 Hrange Hload)
    as (Hl & Hp & Hplay & Hids & Hsel & r & Hr & Hb & Hcase).
  fold s' in Hl, Hp, Hplay, Hids, Hsel, Hr, Hcase.
  split.
  - intros Herr. destruct Hcase as [(Hu & Hc & _)|(_ & _ & _ & [e He] & _)];
      [|congruence].
    unfold bitrateEffect.
    rewrite bitrate_value_positive, Hc, Hl, Hr, Hsel, Hb, bitrateIs_same, Hu.
    replace (index <? 0)%Z with false by (symmetry; apply Z.ltb_ge; lia).
    reflexivity.
  - intros Herr Hcur.
    destruct Hcase as [(_ & _ & _ & He & _)|(Hu & Hc & _)]; [congruence|].
    unfold bitrateEffect.
    rewrite bitrate_value_positive, Hc, Hcur, Hl, Hr, Hsel, Hb, bitrateIs_same, Hu.
    replace (index <? 0)%Z with false by (symmetry; apply Z.ltb_ge; lia).
    cbn [andb]. unfold playSong. cbv zeta.
    rewrite (idsOf_length _ _ Hids).
    replace ((index <? 0)%Z || (Z.of_nat (length (musicList s)) <=? index)%Z)
      with false
      by (symmetry; apply orb_false_iff; split;
          [apply Z.ltb_ge | apply Z.leb_gt]; lia).
    rewrite Hl. cbn [option_Z_eqb]. rewrite Hr, Hsel, Hb, bitrateIs_same.
    cbn [negb url]. rewrite Hu, Hp.
    replace (playRequestIdRef s + 1 + 1)%Z with (playRequestIdRef s + 2)%Z by lia.
    eexists. eexists. split; [reflexivity|]. cbn [url]. exact Hu.
Qed.

Lemma bitrate_effect_after_playSong_witness :
  exists s1 baseTrack,
    bitrateEffect
      (playSong_alone asciiLower
                      (mkEnv (fun _ => 0%Z) (fun _ _ => HttpNotOk))
                      0%Z true 0%nat (setCurrentSongIndex 0 initialState))
    = Some (PlayAwaiting s1 (playRequestIdRef (setCurrentSongIndex 0 initialState) + 2)%Z
                         baseTrack)
    /\ truthy (url baseTrack) = false.
Proof.
  apply (bitrate_effect_after_playSong
           asciiLower (mkEnv (fun _ => 0%Z) (fun _ _ => HttpNotOk))
           0%Z true 0%nat (setCurrentSongIndex 0 initialState)).
  - vm_compute. split; [discriminate | reflexivity].
  - discriminate.
  - vm_compute. discriminate.
  - reflexivity.
Defined.

(** ** A whole search *)

Lemma findIndex_Some {A} (f : A -> bool) (l : list A) (i : nat) :
  findIndex f l = Some i -> exists x, nth_error l i = Some x /\ f x = true.
Proof.
  revert i. induction l as [|y l IH]; intros i H; simpl in H; [discriminate|].
  destruct (f y) eqn:Ey.
  - inversion H; subst. exists y. split; [reflexivity | exact Ey].
  - destruct (findIndex f l) as [j|]; [|discriminate].
    inversion H; subst. apply (IH j). reflexivity.
Qed.

Lemma findIndex_None {A} (f : A -> bool) (l : list A) :
  findIndex f l = None -> forall x, In x l -> f x = false.
Proof.
  induction l as [|y l IH]; intros H x Hx; [destruct Hx|].
  simpl in H. destruct (f y) eqn:Ey; [discriminate|].
  destruct (findIndex f l); [discriminate|].
  destruct Hx as [->|Hx]; [exact Ey | apply IH; [reflexivity | exact Hx]].
Qed.

Lemma nth_error_replaceAt {A} (i : nat) (x y : A) (l : list A) :
  nth_error l i = Some y -> nth_error (replaceAt i x l) i = Some x.
Proof.
  revert i. induction l as [|z l IH]; intros [|i] H; simpl in *;
    try discriminate; [reflexivity | apply IH; exact H].
Qed.

Lemma nth_of_nth_error {A} (l : list A) (i : nat) (x d : A) :
  nth_error l i = Some x -> nth i l d = x.
Proof.
  revert i. induction l as [|z l IH]; intros [|i] H; simpl in *;
    try discriminate; [congruence | apply IH; exact H].
Qed.

Lemma findIndex_at_first {A} (f : A -> bool) (l : list A) (k : nat) (x : A) :
  nth_error l k = Some x -> f x = true ->
  (forall j y, (j < k)%nat -> nth_error l j = Some y -> f y = false) ->
  findIndex f l = Some k.
Proof.
  revert k. induction l as [|z l IH]; intros k Hx Hf Hfirst.
  - destruct k; discriminate Hx.
  - destruct k as [|k]; cbn [findIndex].
    + cbn [nth_error] in Hx. inversion Hx; subst. rewrite Hf. reflexivity.
    + rewrite (Hfirst 0%nat z (Nat.lt_0_succ k) eq_refl).
      rewrite (IH k Hx Hf); [reflexivity|].
      intros j y Hj Hy. apply (Hfirst (S j) y); [lia | exact Hy].
Qed.

Lemma nth_error_replaceAt_other {A} (k i : nat) (x : A) (l : list A) :
  i <> k -> nth_error (replaceAt k x l) i = nth_error l i.
Proof.
  revert k i. induction l as [|z l IH]; intros [|k] [|i] H; cbn;
    try reflexivity; try congruence.
  apply IH. congruence.
Qed.

Lemma length_replaceAt {A} (k : nat) (x : A) (l : list A) :
  length (replaceAt k x l) = length l.
Proof.
  revert k. induction l as [|z l IH]; intros [|k]; cbn; try reflexivity.
  rewrite IH. reflexivity.
Qed.

(** What a track made of a search result holds besides its descriptor. *)
Lemma mapped_track_is_bare (src : MusicSource) (trimmedKeyword : jsstring)
      (selectedBitrate : Bitrate) (items : list SearchApiItem) (x : Track) :
  In x (map (mapSearchItem src trimmedKeyword selectedBitrate) items) ->
  url x = None /\ orNull (cover x) = null /\ lyric x = null /\ tLyric x = null.
Proof.
  intros H. apply in_map_iff in H. destruct H as (item & <- & _).
  unfold mapSearchItem. cbn [url cover lyric tLyric].
  destruct (truthy (if truthy (pic_id item) then pic_id item else None));
    repeat split.
Qed.

(** The active track spread over a track made of a search result. *)
Lemma mergeTracks_keeps_active (ownKeys : TrackKey -> bool)
      (found activeTrack : Track) :
  url found = None -> orNull (cover found) = null ->
  lyric found = null -> tLyric found = null ->
  let t := mergeTracks ownKeys found activeTrack in
  id (descriptor t) = id (descriptor activeTrack)
  /\ name (descriptor t) = name (descriptor activeTrack)
  /\ source (descriptor t) = source (descriptor activeTrack)
  /\ url t = url activeTrack
  /\ orNull (cover t) = orNull (cover activeTrack)
  /\ orNull (lyric t) = orNull (lyric activeTrack)
  /\ orNull (tLyric t) = orNull (tLyric activeTrack).
Proof.
  intros Hu Hc Hl Ht. unfold mergeTracks.
  cbn [descriptor id name source url cover lyric tLyric].
  rewrite Hu, Hl, Ht.
  destruct (url activeTrack), (cover activeTrack), (lyric activeTrack),
    (tLyric activeTrack), (ownKeys K_url), (ownKeys K_cover),
    (ownKeys K_lyric), (ownKeys K_tLyric);
    repeat split; try reflexivity; try (symmetry; exact Hc); exact Hc.
Qed.

(** X16. A search made while a sound is loaded keeps the song that is
    current, however the search settles: when [performSearch] has run
    with nothing in between, the sound is still loaded, the player plays
    or not as before, and the current index points at a track with the id,
    name, source and url of the track that was current, and with its
    cover and lyrics where it had any.  When the search was rejected the
    list is as it was.  When it was answered, the list of all tracks is
    that of the results; the list played from is the results with, in the
    place of the first result that has the id of the current track, the
    current track spread over that result, every other entry being the
    result at its place; and when no result has that id the list is the
    current track followed by the results. *)
Theorem search_keeps_the_playing_song :
  forall (env : Env) (activeOwnKeys : TrackKey -> bool) (src : MusicSource)
         (query : jsstring) (page : Z) (n : nat) (s : PlayerState)
         (activeTrack : Track),
    isEmpty (trim query) = false ->
    soundRef s <> None ->
    (0 <= currentSongIndex s)%Z ->
    nth_error (musicList s) (Z.to_nat (currentSongIndex s)) = Some activeTrack ->
    let o := fst (callMusicApi (clock env n) (remote env n)
                               (searchParams src (trim query) (String_of_Z page))
                               (network s)) in
    let mapped := map (mapSearchItem src (trim query) (selectedBitrate s))
                      (searchItems o) in
    let s' := performSearch_alone env activeOwnKeys src query page n s in
    soundRef s' = soundRef s
    /\ isPlaying s' = isPlaying s
    /\ playRequestIdRef s' = playRequestIdRef s
    /\ isSearching s' = false
    /\ (0 <= currentSongIndex s')%Z
    /\ (exists t,
          nth_error (musicList s') (Z.to_nat (currentSongIndex s')) = Some t
          /\ id (descriptor t) = id (descriptor activeTrack)
          /\ name (descriptor t) = name (descriptor activeTrack)
          /\ source (descriptor t) = source (descriptor activeTrack)
          /\ url t = url activeTrack
          /\ orNull (cover t) = orNull (cover activeTrack)
          /\ orNull (lyric t) = orNull (lyric activeTrack)
          /\ orNull (tLyric t) = orNull (tLyric activeTrack))
    /\ (isRejected o = true ->
        musicList s' = musicList s /\ allTracks s' = []
        /\ currentSongIndex s' = currentSongIndex s)
    /\ (isRejected o = false ->
        allTracks s' = mapped
        /\ (forall k found,
               nth_error mapped k = Some found ->
               id (descriptor found) = id (descriptor activeTrack) ->
               (forall j x, (j < k)%nat -> nth_error mapped j = Some x ->
                            id (descriptor x) <> id (descriptor activeTrack)) ->
               currentSongIndex s' = Z.of_nat k
               /\ length (musicList s') = length mapped
               /\ nth_error (musicList s') k
                  = Some (mergeTracks activeOwnKeys found activeTrack)
               /\ forall i, i <> k ->
                            nth_error (musicList s') i = nth_error mapped i)
        /\ (~ In (id (descriptor activeTrack)) (idsOf mapped) ->
            musicList s' = activeTrack :: mapped
            /\ currentSongIndex s' = 0%Z)).
Proof.
  intros env activeOwnKeys src query page n s activeTrack Hkw Hsound Hcur
         Hactive o mapped s'.
  subst s'. unfold performSearch_alone, performSearch. rewrite Hkw. cbv zeta.
  replace (0 <=? currentSongIndex s)%Z with true
    by (symmetry; apply Z.leb_le; exact Hcur).
  rewrite Hactive.
  destruct s as [csi playing prog ctime dur locals sel alls mlist cov loading
                 err searching showing trans pg more pageInput lastKw sound
                 autop mode playId searchId net0].
  cbn [soundRef currentSongIndex musicList network selectedBitrate isPlaying
       playRequestIdRef allTracks] in *.
  destruct sound as [snd0|]; [clear Hsound | congruence].
  cbn -[callMusicApi trim searchParams String_of_Z mapSearchItem
        performSearch_settled].
  subst o mapped.
  destruct (callMusicApi (clock env n) (remote env n)
                         (searchParams src (trim query) (String_of_Z page))
                         net0) as [out net].
  cbn [fst].
  destruct out as [e|v].
  - (* the search was rejected *)
    unfold performSearch_settled.
    cbn -[trim String_of_Z]. rewrite Z.eqb_refl. cbn -[trim String_of_Z].
    rewrite Z.eqb_refl. cbn -[trim String_of_Z].
    repeat split; try assumption; try discriminate.
    exists activeTrack. repeat split. exact Hactive.
  - (* the search was answered *)
    unfold performSearch_settled.
    cbn -[trim String_of_Z mapSearchItem findIndex replaceAt mergeTracks nth
          jsstring_eqb DEFAULT_SEARCH_COUNT Nat.eqb Z.eqb].
    rewrite Z.eqb_refl.
    cbn -[trim String_of_Z mapSearchItem findIndex replaceAt mergeTracks nth
          jsstring_eqb DEFAULT_SEARCH_COUNT Nat.eqb Z.eqb].
    set (items := match v with SearchResults items => items | _ => [] end).
    set (mapped := map (mapSearchItem src (trim query) sel) items).
    destruct (findIndex
                (fun item => jsstring_eqb (id (descriptor item))
                                          (id (descriptor activeTrack)))
                mapped) as [existingIndex|] eqn:Ef;
      cbn -[trim String_of_Z mapSearchItem findIndex replaceAt mergeTracks nth
            jsstring_eqb DEFAULT_SEARCH_COUNT Nat.eqb Z.eqb];
      rewrite Z.eqb_refl;
      cbn -[trim String_of_Z mapSearchItem findIndex replaceAt mergeTracks nth
            jsstring_eqb DEFAULT_SEARCH_COUNT Nat.eqb Z.eqb].
    + destruct (findIndex_Some _ _ _ Ef) as (x & Hx & Hxid).
      apply jsstring_eqb_eq in Hxid.
      rewrite (nth_of_nth_error mapped existingIndex x activeTrack Hx).
      destruct (mapped_track_is_bare src (trim query) sel items x
                                     (nth_error_In _ _ Hx))
        as (Hu & Hc & Hl & Ht).
      split; [reflexivity|]. split; [reflexivity|]. split; [reflexivity|].
      split; [reflexivity|]. split; [lia|].
      split.
      { exists (mergeTracks activeOwnKeys x activeTrack).
        rewrite Nat2Z.id.
        split; [apply (nth_error_replaceAt _ _ x); exact Hx|].
        apply (mergeTracks_keeps_active activeOwnKeys x activeTrack Hu Hc Hl Ht). }
      split; [discriminate|].
      intros _. split; [reflexivity|]. split.
      { intros k found Hk Hid Hfirst.
        assert (Hkx : Some k = Some existingIndex).
        { rewrite <- Ef. symmetry.
          apply (findIndex_at_first _ mapped k found Hk).
          - apply jsstring_eqb_eq. exact Hid.
          - intros j y Hj Hy.
            destruct (jsstring_eqb (id (descriptor y))
                                   (id (descriptor activeTrack))) eqn:E;
              [|reflexivity].
            apply jsstring_eqb_eq in E. destruct (Hfirst j y Hj Hy E). }
        inversion Hkx; subst k. rewrite Hx in Hk. inversion Hk; subst found.
        split; [reflexivity|]. split; [apply length_replaceAt|].
        split; [apply (nth_error_replaceAt _ _ x); exact Hx|].
        intros i Hi. apply nth_error_replaceAt_other. exact Hi. }
      intros Hnot. exfalso. apply Hnot. unfold idsOf. rewrite <- Hxid.
      apply in_map_iff. exists x. split; [reflexivity|].
      apply (nth_error_In _ _ Hx).
    + assert (Hnone : forall x, In x mapped ->
                                id (descriptor x) <> id (descriptor activeTrack)).
      { intros x Hx Hxid.
        pose proof (findIndex_None _ _ Ef x Hx) as Hf. cbn beta in Hf.
        rewrite Hxid, jsstring_eqb_refl in Hf. discriminate. }
      split; [reflexivity|]. split; [reflexivity|]. split; [reflexivity|].
      split; [reflexivity|]. split; [lia|].
      split; [exists activeTrack; repeat split|].
      split; [discriminate|].
      intros _. split; [reflexivity|]. split.
      { intros k found Hk Hid _.
        destruct (Hnone found (nth_error_In _ _ Hk) Hid). }
      intros _. split; reflexivity.
Qed.

Lemma search_keeps_the_playing_song_witness :
  currentSongIndex
    (performSearch_alone
       (mkEnv (fun _ => 0%Z)
              (fun _ _ =>
                 JsonBody
                   (SearchResults
                      [mkItem (IdNumber 5) (Some (js "other")) None None None
                              None None;
                       mkItem (IdNumber 1867150097) None None None
                              (Some (js "p5")) None None])))
       (fun _ => true) netease (js "atarayo") 1%Z 0%nat
       (set_soundRef (Some (js "howl")) (setCurrentSongIndex 0 initialState)))
  = 1%Z.
Proof.
  destruct (search_keeps_the_playing_song
              (mkEnv (fun _ => 0%Z)
                     (fun _ _ =>
                        JsonBody
                          (SearchResults
                             [mkItem (IdNumber 5) (Some (js "other")) None None
                                     None None None;
                              mkItem (IdNumber 1867150097) None None None
                                     (Some (js "p5")) None None])))
              (fun _ => true) netease (js "atarayo") 1%Z 0%nat
              (set_soundRef (Some (js "howl"))
                            (setCurrentSongIndex 0 initialState))
              (nth 0 INITIAL_SOURCE_TRACKS resolvedExample))
    as (_ & _ & _ & _ & _ & _ & _ & Hanswered).
  - reflexivity.
  - discriminate.
  - vm_compute. discriminate.
  - reflexivity.
  - destruct (Hanswered eq_refl) as (_ & Hfound & _).
    destruct (Hfound 1%nat
                (mapSearchItem netease (js "atarayo") B320
                   (mkItem (IdNumber 1867150097) None None None
                           (Some (js "p5")) None None)))
      as (Hindex & _).
    + reflexivity.
    + vm_compute. reflexivity.
    + intros j x Hj Hx. destruct j as [|j]; [|lia].
      vm_compute in Hx. inversion Hx; subst x. vm_compute. discriminate.
    + exact Hindex.
Defined.

Lemma mapSearchItem_fields (src : MusicSource) (trimmedKeyword : jsstring)
      (selectedBitrate : Bitrate) (items : list SearchApiItem) :
  Forall (fun t => url t = None
                   /\ source (descriptor t) = src
                   /\ bitrate (descriptor t) = Some selectedBitrate
                   /\ keyword (descriptor t) = Some trimmedKeyword)
         (map (mapSearchItem src trimmedKeyword selectedBitrate) items).
Proof.
  induction items as [|item items IH]; constructor; [|exact IH].
  repeat split.
Qed.

(** X17. A search made while no sound is loaded resets the player and
    puts the results in the place of the list: when [performSearch] has
    run with nothing in between, no song is current or loading, a
    [playSong] that was waiting is out of date, the list played from and
    the list of all tracks are the tracks made of the results (none when
    the search was rejected), each without url and with the source
    searched, the selected bitrate and the trimmed keyword; the error
    shown is the one thrown, or that nothing was found, or none; and
    there are more pages exactly when a full page of results came. *)
Theorem search_without_sound_replaces_the_list :
  forall (env : Env) (activeOwnKeys : TrackKey -> bool) (src : MusicSource)
         (query : jsstring) (page : Z) (n : nat) (s : PlayerState),
    isEmpty (trim query) = false ->
    soundRef s = None ->
    let o := fst (callMusicApi (clock env n) (remote env n)
                               (searchParams src (trim query) (String_of_Z page))
                               (network s)) in
    let mapped := map (mapSearchItem src (trim query) (selectedBitrate s))
                      (searchItems o) in
    let s' := performSearch_alone env activeOwnKeys src query page n s in
    currentSongIndex s' = (-1)%Z
    /\ loadingTrackIndex s' = None
    /\ isPlaying s' = false
    /\ playRequestIdRef s' = (playRequestIdRef s + 1)%Z
    /\ musicList s' = mapped
    /\ allTracks s' = mapped
    /\ localTracks s' = localTracks s
    /\ Forall (fun t => url t = None
                        /\ source (descriptor t) = src
                        /\ bitrate (descriptor t) = Some (selectedBitrate s)
                        /\ keyword (descriptor t) = Some (trim query))
              (musicList s')
    /\ errorMessage s'
       = match o with
         | Rejected message => Some message
         | Resolved _ => if (length mapped =? 0)%nat
                         then Some (js "未找到匹配的歌曲") else None
         end
    /\ searchHasMore s' = (Z.of_nat (length mapped) =? DEFAULT_SEARCH_COUNT)%Z
    /\ isSearching s' = false
    /\ showingSearchResults s' = true
    /\ lastSearchKeyword s' = Some (trim query)
    /\ searchPage s' = page
    /\ searchPageInput s' = String_of_Z page.
Proof.
  intros env activeOwnKeys src query page n s Hkw Hsound o mapped s'.
  subst s'. unfold performSearch_alone, performSearch. rewrite Hkw. cbv zeta.
  destruct s as [csi playing prog ctime dur locals sel alls mlist cov loading
                 err searching showing trans pg more pageInput lastKw sound
                 autop mode playId searchId net0].
  cbn [soundRef currentSongIndex musicList network selectedBitrate isPlaying
       playRequestIdRef allTracks localTracks] in *.
  subst sound.
  cbn -[callMusicApi trim searchParams String_of_Z mapSearchItem
        performSearch_settled Z.leb].
  subst o mapped.
  destruct (callMusicApi (clock env n) (remote env n)
                         (searchParams src (trim query) (String_of_Z page))
                         net0) as [out net].
  cbn [fst].
  destruct out as [e|v].
  - unfold performSearch_settled.
    cbn -[trim String_of_Z Z.leb]. rewrite Z.eqb_refl. cbn -[trim String_of_Z Z.leb].
    rewrite Z.eqb_refl. cbn -[trim String_of_Z Z.leb].
    repeat split; try reflexivity. constructor.
  - unfold performSearch_settled.
    cbn -[trim String_of_Z mapSearchItem DEFAULT_SEARCH_COUNT Nat.eqb Z.eqb Z.leb].
    rewrite Z.eqb_refl.
    cbn -[trim String_of_Z mapSearchItem DEFAULT_SEARCH_COUNT Nat.eqb Z.eqb Z.leb].
    destruct (0 <=? csi)%Z;
      [destruct (nth_error mlist (Z.to_nat csi))|];
      cbn -[trim String_of_Z mapSearchItem DEFAULT_SEARCH_COUNT Nat.eqb Z.eqb Z.leb];
      rewrite Z.eqb_refl;
      cbn -[trim String_of_Z mapSearchItem DEFAULT_SEARCH_COUNT Nat.eqb Z.eqb Z.leb];
      (repeat split; try reflexivity; apply mapSearchItem_fields).
Qed.

Lemma search_without_sound_replaces_the_list_witness :
  currentSongIndex
    (performSearch_alone (mkEnv (fun _ => 0%Z) (fun _ _ => HttpNotOk))
                         (fun _ => true) netease (js "avid") 1%Z 0%nat
                         initialState)
  = (-1)%Z.
Proof.
  apply (search_without_sound_replaces_the_list
           (mkEnv (fun _ => 0%Z) (fun _ _ => HttpNotOk)) (fun _ => true)
           netease (js "avid") 1%Z 0%nat initialState).
  - reflexivity.
  - reflexivity.
Defined.

(** ** The search box, the source buttons and the pager *)

Lemma trimStart_fixed (c : N) (r : jsstring) :
  isWhiteSpace c = false -> trimStart (c :: r) = c :: r.
Proof. intros H. simpl. rewrite H. reflexivity. Qed.

Lemma last_cons (r : jsstring) (x c : N) : last (x :: r) c = last r x.
Proof.
  revert x c. induction r as [|y r IH]; intros x c; [reflexivity|].
  change (last (x :: y :: r) c) with (last (y :: r) c).
  rewrite (IH y c), (IH y x). reflexivity.
Qed.

Lemma rev_head_last (c : N) (r : jsstring) :
  exists u, rev (c :: r) = last r c :: u.
Proof.
  revert c. induction r as [|x r IH]; intros c.
  - exists []. reflexivity.
  - destruct (IH x) as [u Hu].
    exists (u ++ [c]).
    change (rev (c :: x :: r)) with (rev (x :: r) ++ [c]). rewrite Hu.
    rewrite (last_cons r x c). reflexivity.
Qed.

(** Trimming a trimmed string changes nothing. *)
Lemma trim_trim (s : jsstring) : trim (trim s) = trim s.
Proof.
  destruct (trim s) as [|c r] eqn:E; [reflexivity|].
  destruct (trim_ends s c r E) as [Hc Hl].
  unfold trim, trimEnd. rewrite (trimStart_fixed c r Hc).
  destruct (rev_head_last c r) as [u Hu]. rewrite Hu.
  rewrite (trimStart_fixed _ u Hl), <- Hu. apply rev_involutive.
Qed.

Lemma filter_Forall {A} (f : A -> bool) (l : list A) :
  Forall (fun x => f x = true) (filter f l).
Proof.
  apply Forall_forall. intros x Hx. apply filter_In in Hx. apply Hx.
Qed.

(** The state [handleSearch] and [handleSourceChange] leave when the
    search box is blank. *)
Lemma restored_local_list (src : MusicSource) (s : PlayerState) :
  let filtered :=
    filter (fun track => MusicSource_eqb (source (descriptor track)) src)
           (localTracks s) in
  let s' :=
    resetPlayer
      (setLastSearchKeyword None
         (setSearchHasMore false
            (setSearchPageInput (js "1")
               (setSearchPage 1%Z
                  (setErrorMessage None
                     (setShowTranslation false
                        (setShowingSearchResults false
                           (setMusicList filtered
                              (setAllTracks filtered
                                 (setIsSearching false
                                    (set_searchRequestIdRef
                                       (searchRequestIdRef s + 1)%Z s))))))))))) in
  musicList s' = filtered
  /\ allTracks s' = filtered
  /\ localTracks s' = localTracks s
  /\ currentSongIndex s' = (-1)%Z
  /\ soundRef s' = None
  /\ isPlaying s' = false
  /\ loadingTrackIndex s' = None
  /\ coverUrl s' = None
  /\ isSearching s' = false
  /\ showingSearchResults s' = false
  /\ errorMessage s' = None
  /\ searchPage s' = 1%Z
  /\ searchHasMore s' = false
  /\ lastSearchKeyword s' = None
  /\ searchRequestIdRef s' = (searchRequestIdRef s + 1)%Z
  /\ playRequestIdRef s' = (playRequestIdRef s + 1)%Z.
Proof.
  destruct s as [csi playing prog ctime dur locals sel alls mlist cov loading
                 err searching showing trans pg more pageInput lastKw sound
                 autop mode playId searchId net0].
  unfold resetPlayer, unloadSound. cbn -[filter].
  destruct sound; cbn -[filter]; repeat split.
Qed.

(** X18. Searching with a blank search box leaves the search: the list
    played from and the list of all tracks become the local tracks of the
    selected source, in their order, the player is reset, no results, no
    error and no further page are shown. A search or a [playSong] that
    was waiting then changes nothing when it resumes, and the pager does
    nothing. *)
Theorem blank_search_restores_the_local_list :
  forall (searchTerm : jsstring) (selectedSource : MusicSource)
         (s : PlayerState),
    isEmpty (trim searchTerm) = true ->
    exists s',
      handleSearch searchTerm selectedSource s = SearchFinished s'
      /\ musicList s'
         = filter (fun track =>
                     MusicSource_eqb (source (descriptor track)) selectedSource)
                  (localTracks s)
      /\ allTracks s' = musicList s'
      /\ localTracks s' = localTracks s
      /\ Forall (fun track =>
                   MusicSource_eqb (source (descriptor track)) selectedSource
                   = true)
                (musicList s')
      /\ currentSongIndex s' = (-1)%Z
      /\ soundRef s' = None
      /\ isPlaying s' = false
      /\ isSearching s' = false
      /\ showingSearchResults s' = false
      /\ errorMessage s' = None
      /\ (forall activeOwnKeys pending outcome,
             (sp_requestId pending <= searchRequestIdRef s)%Z ->
             performSearch_settled activeOwnKeys pending outcome s' = s')
      /\ (forall requestId index autoplay resolution,
             (requestId <= playRequestIdRef s)%Z ->
             playSong_settled requestId index autoplay resolution s' = s')
      /\ handleSearchPagePrev selectedSource s' = SearchFinished s'
      /\ handleSearchPageNext selectedSource s' = SearchFinished s'.
Proof.
  intros searchTerm selectedSource s Hblank.
  unfold handleSearch. rewrite Hblank. cbv zeta.
  destruct (restored_local_list selectedSource s)
    as (Hm & Ha & Hl & Hc & Hs & Hp & _ & _ & Hi & Hr & He & _ & _ & Hk & Hsr & Hpr).
  cbv zeta in Hm, Ha, Hl, Hc, Hs, Hp, Hi, Hr, He, Hk, Hsr, Hpr.
  eexists. split; [reflexivity|].
  rewrite Hm, Ha.
  repeat split; try assumption; try reflexivity.
  - apply filter_Forall.
  - intros activeOwnKeys pending outcome Hid.
    apply performSearch_settled_stale.
    rewrite Hsr. lia.
  - intros requestId index autoplay resolution Hid.
    apply playSong_settled_stale. rewrite Hpr. lia.
  - unfold handleSearchPagePrev. rewrite Hk. reflexivity.
  - unfold handleSearchPageNext. rewrite Hk. reflexivity.
Qed.

Lemma blank_search_restores_the_local_list_witness :
  exists s',
    handleSearch (js "  ") netease initialState = SearchFinished s'
    /\ musicList s'
       = filter (fun track =>
                   MusicSource_eqb (source (descriptor track)) netease)
                (localTracks initialState).
Proof.
  destruct (blank_search_restores_the_local_list (js "  ") netease initialState)
    as (s' & H & Hm & _); [reflexivity|].
  exists s'. split; [exact H | exact Hm].
Defined.

(** X19. Choosing the source that is already selected does nothing;
    choosing another one selects it and does what [handleSearch] does
    under that source with the same search box: a search of the first
    page for the trimmed text, or the local tracks of that source when
    the box is blank. *)
Theorem source_change_searches_under_the_new_source :
  forall (src selectedSource : MusicSource) (searchTerm : jsstring)
         (s : PlayerState),
    handleSourceChange src searchTerm selectedSource s
    = if MusicSource_eqb src selectedSource
      then (selectedSource, SearchFinished s)
      else (src, handleSearch searchTerm src s).
Proof.
  intros src selectedSource searchTerm s.
  unfold handleSourceChange, handleSearch.
  destruct (MusicSource_eqb src selectedSource); [reflexivity|].
  destruct (isEmpty (trim searchTerm)) eqn:E; cbn [negb]; reflexivity.
Qed.

(** What the pager reads after a [performSearch] that ran with nothing in
    between. *)
Lemma performSearch_alone_pager (env : Env) (activeOwnKeys : TrackKey -> bool)
      (src : MusicSource) (query : jsstring) (page : Z) (n : nat)
      (s : PlayerState) :
  isEmpty (trim query) = false ->
  let o := fst (callMusicApi (clock env n) (remote env n)
                             (searchParams src (trim query) (String_of_Z page))
                             (network s)) in
  let s' := performSearch_alone env activeOwnKeys src query page n s in
  lastSearchKeyword s' = Some (trim query)
  /\ searchPage s' = page
  /\ searchHasMore s'
     = (Z.of_nat (length (searchItems o)) =? DEFAULT_SEARCH_COUNT)%Z
  /\ searchRequestIdRef s' = (searchRequestIdRef s + 1)%Z.
Proof.
  intros Hkw o s'.
  subst s'. unfold performSearch_alone, performSearch. rewrite Hkw. cbv zeta.
  destruct s as [csi playing prog ctime dur locals sel alls mlist cov loading
                 err searching showing trans pg more pageInput lastKw sound
                 autop mode playId searchId net0].
  cbn [soundRef currentSongIndex musicList network selectedBitrate] in *.
  subst o.
  destruct sound as [snd0|];
    cbn -[callMusicApi trim searchParams String_of_Z mapSearchItem
          performSearch_settled Z.leb];
    (destruct (callMusicApi (clock env n) (remote env n)
                            (searchParams src (trim query) (String_of_Z page))
                            net0) as [out net];
     cbn [fst];
     destruct out as [e|v];
     unfold performSearch_settled;
     cbn -[trim String_of_Z mapSearchItem findIndex replaceAt mergeTracks nth
           jsstring_eqb DEFAULT_SEARCH_COUNT Nat.eqb Z.eqb Z.leb];
     rewrite Z.eqb_refl;
     cbn -[trim String_of_Z mapSearchItem findIndex replaceAt mergeTracks nth
           jsstring_eqb DEFAULT_SEARCH_COUNT Nat.eqb Z.eqb Z.leb];
     repeat match goal with
            | |- context [if (?a <=? ?b)%Z then _ else _] =>
                destruct (a <=? b)%Z
            | |- context [match nth_error ?l ?i with _ => _ end] =>
                destruct (nth_error l i)
            | |- context [match findIndex ?f ?l with _ => _ end] =>
                destruct (findIndex f l)
            end;
     cbn -[trim String_of_Z mapSearchItem findIndex replaceAt mergeTracks nth
           jsstring_eqb DEFAULT_SEARCH_COUNT Nat.eqb Z.eqb Z.leb];
     rewrite ?Z.eqb_refl;
     cbn -[trim String_of_Z mapSearchItem findIndex replaceAt mergeTracks nth
           jsstring_eqb DEFAULT_SEARCH_COUNT Nat.eqb Z.eqb Z.leb];
     rewrite ?length_map;
     repeat split; reflexivity).
Qed.

(** X20. The pager after a search that ran with nothing in between. The
    next page is asked for only when a full page of results came: the
    request is then for the page after the one searched, for the same
    trimmed text. The previous page is asked for only when the page
    searched is beyond the first: the request is then for the page before
    it. Otherwise the buttons do nothing. *)
Theorem pager_after_a_search :
  forall (env : Env) (activeOwnKeys : TrackKey -> bool)
         (src selectedSource : MusicSource) (query : jsstring) (page : Z)
         (n : nat) (s : PlayerState),
    isEmpty (trim query) = false ->
    let o := fst (callMusicApi (clock env n) (remote env n)
                               (searchParams src (trim query) (String_of_Z page))
                               (network s)) in
    let s' := performSearch_alone env activeOwnKeys src query page n s in
    (Z.of_nat (length (searchItems o)) <> DEFAULT_SEARCH_COUNT ->
     handleSearchPageNext selectedSource s' = SearchFinished s')
    /\ (Z.of_nat (length (searchItems o)) = DEFAULT_SEARCH_COUNT ->
        exists s1 pending,
          handleSearchPageNext selectedSource s'
          = SearchAwaiting s1 pending
              (searchParams selectedSource (trim query) (String_of_Z (page + 1)))
          /\ sp_page pending = (page + 1)%Z
          /\ sp_requestId pending = (searchRequestIdRef s + 2)%Z)
    /\ ((page <= 1)%Z ->
        handleSearchPagePrev selectedSource s' = SearchFinished s')
    /\ ((1 < page)%Z ->
        exists s1 pending,
          handleSearchPagePrev selectedSource s'
          = SearchAwaiting s1 pending
              (searchParams selectedSource (trim query) (String_of_Z (page - 1)))
          /\ sp_page pending = (page - 1)%Z
          /\ sp_requestId pending = (searchRequestIdRef s + 2)%Z).
Proof.
  intros env activeOwnKeys src selectedSource query page n s Hkw o s'.
  destruct (performSearch_alone_pager env activeOwnKeys src query page n s Hkw)
    as (Hk & Hp & Hm & Hr).
  fold o in Hm. fold s' in Hk, Hp, Hm, Hr.
  assert (Htrim : isEmpty (trim (trim query)) = false)
    by (rewrite trim_trim; exact Hkw).
  destruct (trim query) as [|c r] eqn:Eq; [discriminate Hkw|].
  unfold handleSearchPageNext, handleSearchPagePrev.
  rewrite Hk, Hm, Hp.
  assert (Hre : trim (c :: r) = c :: r) by (rewrite <- Eq; apply trim_trim).
  repeat split.
  - intros Hne. apply Z.eqb_neq in Hne. rewrite Hne. reflexivity.
  - intros He. apply Z.eqb_eq in He. rewrite He. cbn [negb].
    unfold performSearch. rewrite Hre. cbn [isEmpty]. cbv zeta.
    eexists. eexists. split; [reflexivity|]. cbn [sp_page sp_requestId].
    split; [reflexivity | rewrite Hr; lia].
  - intros Hle. apply Z.leb_le in Hle. rewrite Hle. reflexivity.
  - intros Hlt. replace (page <=? 1)%Z with false
      by (symmetry; apply Z.leb_gt; exact Hlt).
    replace (Z.max 1 (page - 1)) with (page - 1)%Z by lia.
    unfold performSearch. rewrite Hre. cbn [isEmpty]. cbv zeta.
    eexists. eexists. split; [reflexivity|]. cbn [sp_page sp_requestId].
    split; [reflexivity | rewrite Hr; lia].
Qed.

Lemma pager_after_a_search_witness :
  handleSearchPagePrev
    netease
    (performSearch_alone (mkEnv (fun _ => 0%Z) (fun _ _ => HttpNotOk))
                         (fun _ => true) netease (js " avid ") 1%Z 0%nat
                         initialState)
  = SearchFinished
      (performSearch_alone (mkEnv (fun _ => 0%Z) (fun _ _ => HttpNotOk))
                           (fun _ => true) netease (js " avid ") 1%Z 0%nat
                           initialState).
Proof.
  apply (pager_after_a_search
           (mkEnv (fun _ => 0%Z) (fun _ _ => HttpNotOk)) (fun _ => true)
           netease netease (js " avid ") 1%Z 0%nat initialState).
  - reflexivity.
  - vm_compute. discriminate.
Defined.

(** ** The track information dialog *)

Lemma settle_resolution (toLowerCase : jsstring -> jsstring)
      (api : Params -> Outcome) (track : Track) (desiredBitrate : Bitrate)
      (r : Track) :
  settle api (ensureTrackResolved toLowerCase track desiredBitrate) = Ok r ->
  id (descriptor r) = id (descriptor track)
  /\ bitrate (descriptor r) = Some desiredBitrate
  /\ truthy (url r) = true.
Proof.
  intros Hr.
  pose proof (always_settle _ api _ 0%nat []
                (ensureTrackResolved_always toLowerCase track desiredBitrate))
    as H.
  rewrite Hr in H. destruct H as (_ & _ & Hid & _ & _ & _ & Hb & Hu).
  repeat split; assumption.
Qed.

(** X21. The dialog after [handleShowTrackInfo(track)], however the
    service answers. When the request is still the latest as it settles,
    the dialog is open and no longer loading; it shows the resolved track,
    which has the id of [track], the bitrate of [track] or else the
    selected one, and a url that is not empty, or it shows [track] with
    the error thrown. When a newer request was made in between, the older
    one changes nothing. Closing the dialog in between does not cancel
    the request: the dialog stays closed, and takes the resolved track or
    the error all the same. *)
Theorem info_dialog_after_a_request :
  forall (toLowerCase : jsstring -> jsstring) (api : Params -> Outcome)
         (selectedBitrate : Bitrate) (track : Track) (m : InfoModal),
    let shown := handleShowTrackInfo track m in
    let resolution :=
      settle api (ensureTrackResolved toLowerCase
                                      (infoTrack track selectedBitrate)
                                      (infoBitrate track selectedBitrate)) in
    let m' := handleShowTrackInfo_settled (snd shown) resolution (fst shown) in
    infoModalVisible m' = true
    /\ infoModalLoading m' = false
    /\ match resolution with
       | Ok r =>
           infoModalTrack m' = Some r
           /\ infoModalError m' = None
           /\ id (descriptor r) = id (descriptor track)
           /\ bitrate (descriptor r)
              = Some (orElse (bitrate (descriptor track)) selectedBitrate)
           /\ truthy (url r) = true
       | Err message =>
           infoModalTrack m' = Some track
           /\ infoModalError m' = Some message
       end
    /\ (forall track2,
           let newer := fst (handleShowTrackInfo track2 (fst shown)) in
           handleShowTrackInfo_settled (snd shown) resolution newer = newer)
    /\ (let closed := handleCloseInfoModal (fst shown) in
        let m2 := handleShowTrackInfo_settled (snd shown) resolution closed in
        infoModalVisible m2 = false
        /\ infoModalLoading m2 = false
        /\ match resolution with
           | Ok r => infoModalTrack m2 = Some r /\ infoModalError m2 = None
           | Err message =>
               infoModalTrack m2 = None /\ infoModalError m2 = Some message
           end).
Proof.
  intros toLowerCase api selectedBitrate track m shown resolution m'.
  pose proof (settle_resolution toLowerCase api
                                (infoTrack track selectedBitrate)
                                (infoBitrate track selectedBitrate)) as Hres.
  fold resolution in Hres.
  subst m' shown. unfold handleShowTrackInfo, handleShowTrackInfo_settled,
    handleCloseInfoModal.
  cbn [fst snd infoRequestIdRef infoModalVisible infoModalLoading
       infoModalTrack infoModalError].
  destruct resolution as [r|e].
  - destruct (Hres r eq_refl) as (Hid & Hb & Hu).
    rewrite Z.eqb_refl. cbn [negb infoRequestIdRef infoModalVisible
                             infoModalLoading infoModalTrack infoModalError].
    rewrite Z.eqb_refl. cbn [negb infoRequestIdRef infoModalVisible
                             infoModalLoading infoModalTrack infoModalError].
    repeat split; try assumption.
    intros track2.
    replace (infoRequestIdRef m + 1 + 1 =? infoRequestIdRef m + 1)%Z with false
      by (symmetry; apply Z.eqb_neq; lia).
    cbn [negb infoRequestIdRef].
    replace (infoRequestIdRef m + 1 + 1 =? infoRequestIdRef m + 1)%Z with false
      by (symmetry; apply Z.eqb_neq; lia).
    reflexivity.
  - rewrite Z.eqb_refl. cbn [negb infoRequestIdRef infoModalVisible
                             infoModalLoading infoModalTrack infoModalError].
    rewrite Z.eqb_refl. cbn [negb infoRequestIdRef infoModalVisible
                             infoModalLoading infoModalTrack infoModalError].
    repeat split.
    intros track2.
    replace (infoRequestIdRef m + 1 + 1 =? infoRequestIdRef m + 1)%Z with false
      by (symmetry; apply Z.eqb_neq; lia).
    cbn [negb infoRequestIdRef].
    replace (infoRequestIdRef m + 1 + 1 =? infoRequestIdRef m + 1)%Z with false
      by (symmetry; apply Z.eqb_neq; lia).
    reflexivity.
Qed.

(** ** The lyric panel *)

Lemma findIndex_first {A} (f : A -> bool) (l : list A) (i : nat) :
  findIndex f l = Some i ->
  forall j x, (j < i)%nat -> nth_error l j = Some x -> f x = false.
Proof.
  revert i. induction l as [|y l IH]; intros i H j x Hj Hx; simpl in H;
    [discriminate|].
  destruct (f y) eqn:Ey.
  - inversion H; subst. lia.
  - destruct (findIndex f l) as [k|] eqn:Ek; [|discriminate].
    inversion H; subst. destruct j as [|j]; simpl in Hx.
    + inversion Hx; subst. exact Ey.
    + apply (IH k eq_refl j x); [lia | exact Hx].
Qed.

(** The loop of [activeLyricIndex]: it leaves [index] as it was when the
    first line with a finite time is not due, and otherwise holds the
    position of the last line of the run of due lines. *)
Lemma scanLyricLines_spec (due : N -> bool) (lines : list LyricLine) :
  forall i index,
    (scanLyricLines due lines i index = index
     /\ forall k ms, finiteAt lines k ms -> noneFiniteBetween lines 0 k ->
                     due ms = false)
    \/ exists k ms,
        scanLyricLines due lines i index = (i + Z.of_nat k)%Z
        /\ finiteAt lines k ms
        /\ due ms = true
        /\ (forall k' ms', (k' < k)%nat -> finiteAt lines k' ms' ->
                           due ms' = true)
        /\ (forall j ms', (k < j)%nat -> finiteAt lines j ms' ->
                          noneFiniteBetween lines (S k) j -> due ms' = false).
Proof.
  induction lines as [|entry rest IH]; intros i index.
  - left. split; [reflexivity|].
    intros k ms [l [Hl _]]. destruct k; discriminate Hl.
  - cbn [scanLyricLines]. destruct (time entry) as [ms0|] eqn:Et.
    + destruct (due ms0) eqn:Ed.
      * right. destruct (IH (i + 1)%Z i) as [[Hr Hfirst]|(k & ms & Hr & Hk & Hd & Hb & Ha)].
        -- exists 0%nat, ms0. rewrite Hr. split; [lia|].
           split; [exists entry; split; [reflexivity | exact Et]|].
           split; [exact Ed|]. split; [intros k' ms' Hlt; lia|].
           intros j ms' Hj [l [Hl Htl]] Hnone.
           destruct j as [|j]; [lia|]. cbn [nth_error] in Hl.
           apply (Hfirst j ms'); [exists l; split; assumption|].
           intros k0 ms1 Hk0 [l0 [Hl0 Ht0]].
           apply (Hnone (S k0) ms1); [lia|].
           exists l0. split; assumption.
        -- exists (S k), ms. rewrite Hr. split; [lia|].
           split; [destruct Hk as [l [Hl Htl]]; exists l; split; assumption|].
           split; [exact Hd|]. split.
           ++ intros k' ms' Hlt [l [Hl Htl]]. destruct k' as [|k'].
              ** cbn [nth_error] in Hl. inversion Hl; subst.
                 rewrite Et in Htl. inversion Htl; subst. exact Ed.
              ** apply (Hb k' ms'); [lia | exists l; split; assumption].
           ++ intros j ms' Hj [l [Hl Htl]] Hnone.
              destruct j as [|j]; [lia|]. cbn [nth_error] in Hl.
              apply (Ha j ms'); [lia | exists l; split; assumption|].
              intros k0 ms1 Hk0 [l0 [Hl0 Ht0]].
              apply (Hnone (S k0) ms1); [lia|].
              exists l0. split; assumption.
      * left. split; [reflexivity|].
        intros k ms [l [Hl Htl]] Hnone. destruct k as [|k].
        -- cbn [nth_error] in Hl. inversion Hl; subst.
           rewrite Et in Htl. inversion Htl; subst. exact Ed.
        -- exfalso. apply (Hnone 0%nat ms0); [lia|].
           exists entry. split; [reflexivity | exact Et].
    + destruct (IH (i + 1)%Z index) as [[Hr Hfirst]|(k & ms & Hr & Hk & Hd & Hb & Ha)].
      * left. split; [exact Hr|].
        intros k ms [l [Hl Htl]] Hnone. destruct k as [|k].
        -- cbn [nth_error] in Hl. inversion Hl; subst.
           rewrite Et in Htl. discriminate.
        -- cbn [nth_error] in Hl.
           apply (Hfirst k ms); [exists l; split; assumption|].
           intros k0 ms1 Hk0 [l0 [Hl0 Ht0]].
           apply (Hnone (S k0) ms1); [lia|].
           exists l0. split; assumption.
      * right. exists (S k), ms. rewrite Hr. split; [lia|].
        split; [destruct Hk as [l [Hl Htl]]; exists l; split; assumption|].
        split; [exact Hd|]. split.
        -- intros k' ms' Hlt [l [Hl Htl]]. destruct k' as [|k'].
           ++ cbn [nth_error] in Hl. inversion Hl; subst.
              rewrite Et in Htl. discriminate.
           ++ apply (Hb k' ms'); [lia | exists l; split; assumption].
        -- intros j ms' Hj [l [Hl Htl]] Hnone.
           destruct j as [|j]; [lia|]. cbn [nth_error] in Hl.
           apply (Ha j ms'); [lia | exists l; split; assumption|].
           intros k0 ms1 Hk0 [l0 [Hl0 Ht0]].
           apply (Hnone (S k0) ms1); [lia|].
           exists l0. split; assumption.
Qed.

Lemma finiteAt_in_range (lines : list LyricLine) (k : nat) (ms : N) :
  finiteAt lines k ms -> (k < length lines)%nat.
Proof.
  intros [l [Hl _]]. apply nth_error_Some. congruence.
Qed.

Lemma isFiniteTime_finiteAt (lines : list LyricLine) (k : nat) (l : LyricLine) :
  nth_error lines k = Some l ->
  isFiniteTime (time l) = true -> exists ms, finiteAt lines k ms.
Proof.
  intros Hl Hf. destruct (time l) as [ms|] eqn:Et; [|discriminate].
  exists ms, l. split; assumption.
Qed.

Lemma finiteAt_isFiniteTime (lines : list LyricLine) (k : nat) (ms : N)
      (l : LyricLine) :
  finiteAt lines k ms -> nth_error lines k = Some l ->
  isFiniteTime (time l) = true.
Proof.
  intros [l' [Hl' Ht]] Hl. rewrite Hl in Hl'. inversion Hl'; subst.
  rewrite Ht. reflexivity.
Qed.

Lemma finiteAt_unique (lines : list LyricLine) (k : nat) (a b : N) :
  finiteAt lines k a -> finiteAt lines k b -> a = b.
Proof.
  intros [l [Hl Ht]] [l' [Hl' Ht']]. rewrite Hl in Hl'. inversion Hl'; subst.
  rewrite Ht in Ht'. inversion Ht'. reflexivity.
Qed.

(** X22. The active line of the lyric panel. It is [-1] for no lines and
    a position in the list otherwise. Every line before it that has a
    finite time is due. When the active line has a finite time and is due,
    the next line with a finite time is not: the active line is the last
    of the due ones. When it has a finite time and is not due, it is the
    first line with a finite time; and when it has none, it is the first
    line and no line has a finite time. *)
Theorem active_lyric_is_the_last_due_line :
  forall (due : N -> bool) (lines : list LyricLine),
    let index := activeLyricIndex due lines in
    (lines = [] -> index = (-1)%Z)
    /\ (lines <> [] -> (0 <= index < Z.of_nat (length lines))%Z)
    /\ (forall i ms, finiteAt lines i ms -> (Z.of_nat i < index)%Z ->
                     due ms = true)
    /\ (forall ms, finiteAt lines (Z.to_nat index) ms -> due ms = true ->
        forall j ms', (Z.to_nat index < j)%nat -> finiteAt lines j ms' ->
                      noneFiniteBetween lines (S (Z.to_nat index)) j ->
                      due ms' = false)
    /\ (forall ms, finiteAt lines (Z.to_nat index) ms -> due ms = false ->
        noneFiniteBetween lines 0 (Z.to_nat index))
    /\ ((forall ms, ~ finiteAt lines (Z.to_nat index) ms) ->
        (index <= 0)%Z /\ forall i ms, ~ finiteAt lines i ms).
Proof.
  intros due lines index. subst index. unfold activeLyricIndex.
  destruct lines as [|entry rest].
  - cbn [length Nat.eqb].
    assert (Hno : forall i ms, ~ finiteAt [] i ms)
      by (intros i ms [l [Hl _]]; destruct i; discriminate Hl).
    split; [reflexivity|]. split; [congruence|].
    split; [intros i ms H; destruct (Hno i ms H)|].
    split; [intros ms H; destruct (Hno _ ms H)|].
    split; [intros ms H; destruct (Hno _ ms H)|].
    intros _. split; [lia | exact Hno].
  - set (lines := entry :: rest).
    assert (Hlen : (0 < length lines)%nat) by (simpl; lia).
    replace (length lines =? 0)%nat with false
      by (symmetry; apply Nat.eqb_neq; lia).
    replace (0 <? length lines)%nat with true
      by (symmetry; apply Nat.ltb_lt; exact Hlen).
    cbv zeta. rewrite andb_true_r.
    destruct (scanLyricLines_spec due lines 0%Z (-1)%Z)
      as [[Hr Hfirst]|(k & ms & Hr & Hk & Hd & Hb & Ha)].
    + rewrite Hr. cbn [Z.eqb Pos.eqb].
      destruct (findIndex (fun entry0 => isFiniteTime (time entry0)) lines)
        as [firstFinite|] eqn:Ef.
      * destruct (findIndex_Some _ _ _ Ef) as (x & Hx & Hfin).
        destruct (isFiniteTime_finiteAt lines firstFinite x Hx Hfin)
          as [msf Hmsf].
        assert (Hnone : noneFiniteBetween lines 0 firstFinite).
        { intros j msj Hj Hfj. destruct Hfj as [l [Hl Htl]].
          pose proof (findIndex_first _ _ _ Ef j l (proj2 Hj) Hl) as Hf.
          cbn beta in Hf. rewrite Htl in Hf. discriminate. }
        pose proof (Hfirst firstFinite msf Hmsf Hnone) as Hdue.
        rewrite Nat2Z.id.
        split; [discriminate|].
        split; [intros _; pose proof (finiteAt_in_range _ _ _ Hmsf); lia|].
        split.
        { intros i msi Hi Hlt. exfalso. apply (Hnone i msi); [lia | exact Hi]. }
        split.
        { intros ms0 H0 Hd0. rewrite (finiteAt_unique _ _ _ _ H0 Hmsf) in Hd0.
          congruence. }
        split; [intros ms0 _ _; exact Hnone|].
        intros Hno. destruct (Hno msf Hmsf).
      * assert (Hno : forall i ms, ~ finiteAt lines i ms).
        { intros i msi [l [Hl Htl]].
          pose proof (findIndex_None _ _ Ef l (nth_error_In _ _ Hl)) as Hf.
          cbn beta in Hf. rewrite Htl in Hf. discriminate. }
        split; [discriminate|]. split; [intros _; lia|].
        split; [intros i ms H; destruct (Hno i ms H)|].
        split; [intros ms H; destruct (Hno _ ms H)|].
        split; [intros ms H; destruct (Hno _ ms H)|].
        intros _. split; [lia | exact Hno].
    + rewrite Hr.
      replace (0 + Z.of_nat k =? -1)%Z with false
        by (symmetry; apply Z.eqb_neq; lia).
      replace (Z.to_nat (0 + Z.of_nat k)) with k by lia.
      split; [discriminate|].
      split; [intros _; pose proof (finiteAt_in_range _ _ _ Hk); lia|].
      split; [intros i msi Hi Hlt; apply (Hb i msi); [lia | exact Hi]|].
      split; [intros ms0 _ _; exact Ha|].
      split.
      { intros ms0 H0 Hd0. rewrite (finiteAt_unique _ _ _ _ H0 Hk) in Hd0.
        congruence. }
      intros Hno. destruct (Hno ms Hk).
Qed.

Lemma nth_error_in_range (lines : list LyricLine) (i : Z) :
  (0 <= i < Z.of_nat (length lines))%Z ->
  exists line, nth_error lines (Z.to_nat i) = Some line.
Proof.
  intros Hi. destruct (nth_error lines (Z.to_nat i)) as [line|] eqn:E.
  - exists line. reflexivity.
  - apply nth_error_None in E. lia.
Qed.

Ltac decide_comparisons :=
  repeat (try unfold addIndex; try unfold sortIndices;
          cbn [existsb orb andb negb app length Nat.eqb fold_right insertIndex
               map fst snd filter];
          match goal with
          | |- context [(?a =? ?b)%Z] => destruct (Z.eqb_spec a b); try lia
          | |- context [(?a <=? ?b)%Z] => destruct (Z.leb_spec a b); try lia
          | |- context [(?a <? ?b)%Z] => destruct (Z.ltb_spec a b); try lia
          end).

(** X23. The preview of the lyric panel shows the line at the base
    index, which is the active index when that is a position in the list
    and 0 otherwise, with the line before it and the line after it where
    there are such lines, in ascending order and each once; every entry
    holds the line at its index. For no lines it shows nothing. *)
Theorem preview_shows_the_lines_around_the_active_one :
  forall (lines : list LyricLine) (activeIndex : Z),
    let n := Z.of_nat (length lines) in
    let baseIndex :=
      if (0 <=? activeIndex)%Z && (activeIndex <? n)%Z then activeIndex
      else 0%Z in
    let preview := previewLyricLines lines activeIndex in
    map fst preview
    = filter (fun i => (0 <=? i)%Z && (i <? n)%Z)
             [baseIndex - 1; baseIndex; baseIndex + 1]%Z
    /\ Forall (fun p => exists line,
                   snd p = Some line
                   /\ nth_error lines (Z.to_nat (fst p)) = Some line)
              preview.
Proof.
  intros lines activeIndex n baseIndex preview.
  subst preview. unfold previewLyricLines.
  destruct lines as [|entry rest].
  - subst baseIndex n. cbn [length Nat.eqb map Z.of_nat].
    split; [|constructor].
    destruct (Z.leb_spec 0 activeIndex); destruct (Z.ltb_spec activeIndex 0);
      try lia; reflexivity.
  - set (lines := entry :: rest) in *.
    assert (Hn : (0 < n)%Z) by (subst n lines; cbn [length]; lia).
    replace (length lines =? 0)%nat with false
      by (symmetry; apply Nat.eqb_neq; subst lines; cbn [length]; lia).
    cbv zeta. fold n. fold baseIndex.
    assert (Hbase : (0 <= baseIndex < n)%Z).
    { subst baseIndex.
      destruct (Z.leb_spec 0 activeIndex); destruct (Z.ltb_spec activeIndex n);
        cbn [andb]; lia. }
    clearbody baseIndex.
    destruct (nth_error_in_range lines baseIndex Hbase) as [line Hline].
    rewrite Hline.
    assert (Hat : forall i, (0 <= i < n)%Z ->
                            exists l, nth_error lines (Z.to_nat i) = Some l)
      by (intros i Hi; apply nth_error_in_range; exact Hi).
    clearbody n lines.
    destruct (Z.ltb_spec 0 baseIndex) as [Hprev|Hprev];
      destruct (Z.ltb_spec (baseIndex + 1) n) as [Hnext|Hnext];
      decide_comparisons;
      (split; [reflexivity|]);
      repeat (apply Forall_cons;
              [cbn [fst snd];
               match goal with
               | |- exists l, nth_error _ (Z.to_nat ?i) = Some l /\ _ =>
                   let Hl := fresh "Hl" in
                   let l0 := fresh "l" in
                   destruct (Hat i ltac:(lia)) as [l0 Hl];
                   exists l0; split; exact Hl
               end|]);
      apply Forall_nil.
Qed.
